(** * phat-contract-ui: chain synchronisation and transaction lifecycle

    A shallow embedding of the chain atoms and hooks of the UI
    (connection handlers, system-event ingestion, [signAndSend],
    [checkUntil] / [blockBarrier] and the read path of [useRunner]),
    with the properties its design document states about them. *)

From Stdlib Require Import String List Bool Arith ZArith NArith Lia.
From Stdlib Require Import DecimalString.
From Stdlib Require Import Permutation Sorted.
From Stdlib Require Import Ascii DecimalPos DecimalN.
Import ListNotations.

Open Scope string_scope.
Open Scope list_scope.

(** ** Values shared by all components *)

(** A SCALE value ([Codec]) is kept by its hex rendering; JSON produced by
    [toHuman] is kept by its text. *)
Definition Codec : Type := string.
Definition AnyJson : Type := string.

(** [EventRecord]: [phase] and [topics], and between them the fields of
    [record.event] that the code reads. The code reads [phase] and [topics]
    nowhere, but they are part of what [stringify] writes out. *)
Record EventRecord : Type := mkRecord {
  phase : Codec;
  section : string;
  method : string;
  data : list Codec;
  topics : list Codec
}.

(** A record of the first extrinsic of a block, without topics. *)
Definition mkEventRecord (section method : string) (data : list Codec)
    : EventRecord :=
  {| phase := "0x0000000000";
     section := section;
     method := method;
     data := data;
     topics := [] |}.

(** [Array.prototype.includes] on an array of strings. *)
Definition includes (xs : list string) (x : string) : bool :=
  existsb (String.eqb x) xs.

(** ** System events: the pipeline of [useSystemEvents] *)
Module Events.

(** [interface IndexedEvent]. *)
Record IndexedEvent : Type := mkIndexedEvent {
  indexes : list nat;
  record : EventRecord
}.

(** [records.map((record, index) => ({ indexes: [index], record }))],
    counting from [i]. *)
Fixpoint mapIndexFrom (i : nat) (records : list EventRecord) : list IndexedEvent :=
  match records with
  | [] => []
  | r :: rest => mkIndexedEvent [i] r :: mapIndexFrom (S i) rest
  end.

Definition mapIndex (records : list EventRecord) : list IndexedEvent :=
  mapIndexFrom 0 records.

(** The predicate given to [.filter]. *)
Definition keepEvent (e : IndexedEvent) : bool :=
  let section := section (record e) in
  let method := method (record e) in
  negb (section =? "system")
  && (negb (includes ["balances"; "treasury"] section)
      || negb (includes ["Deposit"] method))
  && (negb (includes ["parasInclusion"; "inclusion"] section)
      || negb (includes ["CandidateBacked"; "CandidateIncluded"] method)).

(** The predicate given to [combined.find] for the event [e]. *)
Definition sameKind (e p : IndexedEvent) : bool :=
  (section (record e) =? section (record p))
  && (method (record e) =? method (record p)).

(** [prev.indexes.push(...e.indexes)] on the first element that satisfies the
    predicate: the object that [find] returned is the one held by the array,
    so the push is an update at that position. *)
Fixpoint pushAtFirst (p : IndexedEvent -> bool) (more : list nat)
    (combined : list IndexedEvent) : list IndexedEvent :=
  match combined with
  | [] => []
  | c :: rest =>
      if p c then mkIndexedEvent (indexes c ++ more) (record c) :: rest
      else c :: pushAtFirst p more rest
  end.

(** The callback given to [.reduce]. *)
Definition reducer (combined : list IndexedEvent) (e : IndexedEvent)
    : list IndexedEvent :=
  match find (sameKind e) combined with
  | Some _ => pushAtFirst (sameKind e) (indexes e) combined
  | None => combined ++ [e]
  end.

(** [newEvents]: map, filter, reduce from the empty array, reverse. *)
Definition newEvents (records : list EventRecord) : list IndexedEvent :=
  rev (fold_left reducer (filter keepEvent (mapIndex records)) []).

(** *** The pipeline as the design document words it *)

(** The noise suppression table. *)
Definition noise_spec (s m : string) : bool :=
  (s =? "system")
  || (((s =? "balances") || (s =? "treasury")) && (m =? "Deposit"))
  || (((s =? "parasInclusion") || (s =? "inclusion"))
      && ((m =? "CandidateBacked") || (m =? "CandidateIncluded"))).

(** Pair each event with its index in the batch. *)
Definition paired_spec (batch : list EventRecord) : list (nat * EventRecord) :=
  List.combine (seq 0 (List.length batch)) batch.

(** Merge one event into the accumulator: append its index to the entry of
    the same (section, method), else append a new entry. *)
Fixpoint merge_spec (acc : list IndexedEvent) (ie : nat * EventRecord)
    : list IndexedEvent :=
  match acc with
  | [] => [mkIndexedEvent [fst ie] (snd ie)]
  | c :: rest =>
      if (section (record c) =? section (snd ie))
         && (method (record c) =? method (snd ie))
      then mkIndexedEvent (indexes c ++ [fst ie]) (record c) :: rest
      else c :: merge_spec rest ie
  end.

Definition dedupe_spec (batch : list EventRecord) : list IndexedEvent :=
  rev (fold_left merge_spec
         (filter (fun ie => negb (noise_spec (section (snd ie)) (method (snd ie))))
                 (paired_spec batch))
         []).

(** *** The stored log and the ingestion cycle *)

Definition MAX_EVENTS : nat := 75.

(** [interface KeyedEvent extends IndexedEvent]: the inherited fields are
    [keyed]; [blockHash] and [blockNumber] are optional. *)
Record KeyedEvent : Type := mkKeyedEvent {
  blockHash : option string;
  blockNumber : option N;
  keyed : IndexedEvent;
  key : string
}.

(** [interface PrevHashes]; [None] is [null]. *)
Record PrevHashes : Type := mkPrevHashes {
  block : option string;
  event : option string
}.

(** The value of [systemEventsAtom]. *)
Record SystemEvents : Type := mkSystemEvents {
  eventCount : nat;
  events : list KeyedEvent
}.

(** What the hook holds: the atom and the ref [prevHashes.current]. *)
Record Ingestion : Type := mkIngestion {
  systemEventsAtom : SystemEvents;
  prevHashes : PrevHashes
}.

(** The header that [api.rpc.chain.getHeader(records.createdAtHash)] gives. *)
Record Header : Type := mkHeader {
  number : N;
  hash : string
}.

(** One delivery of the subscription: the records, and the outcome of the
    header request for them ([None] when the request rejects). *)
Record Delivery : Type := mkDelivery {
  records : list EventRecord;
  getHeader : option Header
}.

(** [n.toString()] for a number that is a natural. *)
Definition decimal (n : N) : string := NilZero.string_of_uint (N.to_uint n).

(** [`${blockNumber.toNumber()}-${blockHash}-${indexes.join('.')}`]. *)
Definition makeKey (blockNumber : N) (blockHash : string) (indexes : list nat)
    : string :=
  (decimal blockNumber ++ "-" ++ blockHash ++ "-"
   ++ String.concat "." (map (fun i => decimal (N.of_nat i)) indexes))%string.

(** [a !== b] for a string [a] and a tracker [b : string | null]. *)
Definition differs (a : string) (b : option string) : bool :=
  match b with
  | None => true
  | Some b' => negb (a =? b')
  end.

(** [!p.blockNumber?.eq(blockNumber)]. *)
Definition otherHeight (blockNumber : N) (p : KeyedEvent) : bool :=
  match Events.blockNumber p with
  | None => true
  | Some n => negb (N.eqb n blockNumber)
  end.

(** The mapping applied to [newEvents] inside the updater. *)
Definition toKeyed (blockNumber : N) (blockHash : string) (e : IndexedEvent)
    : KeyedEvent :=
  {| blockHash := Some blockHash;
     blockNumber := Some blockNumber;
     keyed := e;
     key := makeKey blockNumber blockHash (indexes e) |}.

(** The updater of the branch that stores a new block. *)
Definition storeBlock (recordsLength : nat) (blockNumber : N)
    (blockHash : string) (newEvents : list IndexedEvent) (s : SystemEvents)
    : SystemEvents :=
  {| eventCount := recordsLength;
     events := firstn MAX_EVENTS
                 (map (toKeyed blockNumber blockHash) newEvents
                  ++ filter (otherHeight blockNumber) (events s)) |}.

(** The updater of the [else] branch. *)
Definition countOnly (recordsLength : nat) (s : SystemEvents) : SystemEvents :=
  {| eventCount := recordsLength; events := events s |}.

Section Ingest.

(** [xxhashAsHex(stringToU8a(stringify(newEvents)))]. *)
Variable eventHash : list IndexedEvent -> string.

(** The callback given to [api.query.system.events], one whole run. *)
Definition onRecords (d : Delivery) (st : Ingestion) : Ingestion :=
  let newEvents := newEvents (records d) in
  let newEventHash := eventHash newEvents in
  let prev := prevHashes st in
  if differs newEventHash (event prev) && negb (List.length newEvents =? 0)%nat
  then
    let prev1 := {| block := block prev; event := Some newEventHash |} in
    match getHeader d with
    | None => {| systemEventsAtom := systemEventsAtom st; prevHashes := prev1 |}
    | Some header =>
        let blockNumber := number header in
        let blockHash := hash header in
        if differs blockHash (block prev1)
        then
          {| systemEventsAtom :=
               storeBlock (List.length (records d)) blockNumber blockHash
                 newEvents (systemEventsAtom st);
             prevHashes := {| block := Some blockHash; event := event prev1 |} |}
        else {| systemEventsAtom := systemEventsAtom st; prevHashes := prev1 |}
    end
  else
    {| systemEventsAtom := countOnly (List.length (records d)) (systemEventsAtom st);
       prevHashes := prev |}.

(** Deliveries applied in order, one after the other. *)
Definition onAllRecords (ds : list Delivery) (st : Ingestion) : Ingestion :=
  fold_left (fun s d => onRecords d s) ds st.

End Ingest.

(** The atom's initial value and the ref's initial value. *)
Definition initial : Ingestion :=
  {| systemEventsAtom := {| eventCount := 0; events := [] |};
     prevHashes := {| block := None; event := None |} |}.

(** *** Notions used to speak about the pipeline's result *)

(** The kind of an entry: the pair that [find] compares. *)
Definition kind (e : IndexedEvent) : string * string :=
  (section (record e), method (record e)).

(** The predicate of [.filter] reads the record only. *)
Definition keepRecord (r : EventRecord) : bool :=
  keepEvent (mkIndexedEvent [] r).

(** What an entry made from [records] is: its record is the one at the
    first of its indexes; its indexes are ascending positions of records
    that passed the filter and have the entry's section and method. *)
Definition groups (records : list EventRecord) (c : IndexedEvent) : Prop :=
  nth_error records (hd 0 (indexes c)) = Some (record c) /\
  indexes c <> [] /\
  StronglySorted lt (indexes c) /\
  forall i, In i (indexes c) ->
    exists r, nth_error records i = Some r /\ keepRecord r = true /\
              section r = section (record c) /\ method r = method (record c).

(** The accumulator of [.reduce] once the records before position [k] have
    gone through. *)
Definition accumulated (records : list EventRecord) (k : nat)
    (acc : list IndexedEvent) : Prop :=
  Forall (groups records) acc /\
  NoDup (map kind acc) /\
  NoDup (flat_map indexes acc) /\
  forall i, In i (flat_map indexes acc) <->
            (i < k /\ exists r, nth_error records i = Some r /\ keepRecord r = true).

(** What holds of the hook's state after any deliveries: every entry was
    made by [toKeyed]; the block-hash tracker is the hash of the first
    entry; entries of one block number have one block hash; no two entries
    share block number and indexes. *)
Definition wellKept (st : Ingestion) : Prop :=
  Forall (fun p => exists n h,
            blockNumber p = Some n /\ blockHash p = Some h /\
            key p = makeKey n h (indexes (keyed p)))
         (events (systemEventsAtom st)) /\
  block (prevHashes st)
  = match events (systemEventsAtom st) with
    | [] => None
    | p :: _ => blockHash p
    end /\
  (forall p q,
     In p (events (systemEventsAtom st)) ->
     In q (events (systemEventsAtom st)) ->
     blockNumber p = blockNumber q -> blockHash p = blockHash q) /\
  NoDup (map (fun p => (blockNumber p, indexes (keyed p)))
             (events (systemEventsAtom st))).

End Events.

(** ** Promises *)

(** What a promise is rejected with in this file: a SCALE value taken from
    an event ([reject(error)] with [error = data[0]]), a string literal, a
    [new Error(message)] made by this code, the [TypeError] of a property
    read or a call on [undefined], or an error that an awaited call outside
    this file rejected with. *)
Inductive Reason : Type :=
| OfCodec (c : Codec)
| OfString (s : string)
| NewError (message : string)
| TypeError
| External (e : string).

(** The state of a promise. *)
Inductive Promise (A : Type) : Type :=
| Pending
| Fulfilled (v : A)
| Rejected (r : Reason).

Arguments Pending {A}.
Arguments Fulfilled {A} v.
Arguments Rejected {A} r.

(** What an awaited call outside this file settles with. *)
Inductive Awaited (A : Type) : Type :=
| Resolves (v : A)
| Rejects (e : string).

Arguments Resolves {A} v.
Arguments Rejects {A} e.

(** ** Submission of an extrinsic: [signAndSend] *)
Module Tx.

(** [result.status]: the variants of [ExtrinsicStatus]. *)
Inductive ExtrinsicStatus : Type :=
| Future
| Ready
| Broadcast
| InBlock (hash : string)
| Retracted (hash : string)
| FinalityTimeout (hash : string)
| Finalized (hash : string)
| Usurped (hash : string)
| Dropped
| Invalid.

(** The [result] handed to the status callback. *)
Record SubmittableResult : Type := mkResult {
  status : ExtrinsicStatus;
  events : list EventRecord
}.

(** The object the promise is resolved with. *)
Record InBlockValue : Type := mkInBlockValue {
  hash : AnyJson;
  humanEvents : AnyJson
}.

(** One call of [signAndSend]: the promise it returned, the promise of its
    [async] executor (which nothing observes), and how often [unsub] was
    called. *)
Record Submission : Type := mkSubmission {
  promise : Promise InBlockValue;
  executor : Promise unit;
  unsubCalls : nat
}.

(** [resolve] and [reject] of the returned promise: only the first call
    settles it. *)
Definition resolve (v : InBlockValue) (s : Submission) : Submission :=
  match promise s with
  | Pending => {| promise := Fulfilled v; executor := executor s;
                  unsubCalls := unsubCalls s |}
  | _ => s
  end.

Definition reject (r : Reason) (s : Submission) : Submission :=
  match promise s with
  | Pending => {| promise := Rejected r; executor := executor s;
                  unsubCalls := unsubCalls s |}
  | _ => s
  end.

(** [unsub()]. *)
Definition unsub (s : Submission) : Submission :=
  {| promise := promise s; executor := executor s;
     unsubCalls := S (unsubCalls s) |}.

(** [section === 'system' && method === 'ExtrinsicFailed']. *)
Definition isExtrinsicFailed (e : EventRecord) : bool :=
  (section e =? "system") && (method e =? "ExtrinsicFailed").

(** The [for] loop over [result.events]; [None] is [undefined], and
    [data[0]] of an empty [data] is [undefined] too. *)
Definition scanError (events : list EventRecord) : option Codec :=
  fold_left
    (fun error e => if isExtrinsicFailed e then nth_error (data e) 0 else error)
    events None.

(** How the run of a function body ends: normally, or by a throw. *)
Inductive Completion : Type :=
| Normal
| Abrupt (r : Reason).

(** A submission before anything has happened. *)
Definition fresh : Submission :=
  {| promise := Pending; executor := Pending; unsubCalls := 0 |}.

(** [new Promise(executor)]: the executor is called at once; if that call
    throws, the promise is rejected with what was thrown; what the call
    returns is dropped. *)
Definition newPromise (executorCall : Submission -> Completion * Submission)
    : Submission :=
  match executorCall fresh with
  | (Normal, s) => s
  | (Abrupt r, s) => reject r s
  end.

(** The call of an [async] function: the call itself never throws; the way
    its body ends settles the promise that the call returns, here the
    promise of the executor. *)
Definition asyncCall (body : Submission -> Completion * Submission)
    (s : Submission) : Completion * Submission :=
  match body s with
  | (Normal, s') =>
      (Normal, {| promise := promise s'; executor := Fulfilled tt;
                  unsubCalls := unsubCalls s' |})
  | (Abrupt r, s') =>
      (Normal, {| promise := promise s'; executor := Rejected r;
                  unsubCalls := unsubCalls s' |})
  end.

(** The body of the executor: [const unsub = await target.signAndSend(...)],
    with no [try] around it. An [await] of a rejected promise throws. *)
Definition executorBody (subscription : Awaited unit) (s : Submission)
    : Completion * Submission :=
  match subscription with
  | Resolves _ => (Normal, s)
  | Rejects e => (Abrupt (External e), s)
  end.

Section Callback.

(** [result.status.asInBlock.toHuman()] and [result.toHuman().events]. *)
Variable hashToHuman : string -> AnyJson.
Variable eventsToHuman : SubmittableResult -> AnyJson.

(** The status callback. A [Codec] is an object, hence truthy: [if (error)]
    asks whether [error] is defined. *)
Definition callback (result : SubmittableResult) (s : Submission) : Submission :=
  match status result with
  | InBlock h =>
      let error := scanError (events result) in
      let s1 := unsub s in
      match error with
      | Some err => reject (OfCodec err) s1
      | None =>
          resolve {| hash := hashToHuman h; humanEvents := eventsToHuman result |} s1
      end
  | Invalid => reject (OfString "Invalid transaction") (unsub s)
  | _ => s
  end.

(** The subscription: it hands each notification to the callback until
    [unsub] has been called. *)
Fixpoint notify (results : list SubmittableResult) (s : Submission) : Submission :=
  match results with
  | [] => s
  | r :: rest =>
      if (unsubCalls s =? 0)%nat then notify rest (callback r s) else s
  end.

(** [signAndSend]: [new Promise(async (resolve, reject) => { const unsub =
    await target.signAndSend(address, { signer }, callback) })]. Without a
    subscription there is no notification; with one, the notifications
    follow. *)
Definition signAndSend (subscription : Awaited unit)
    (notifications : list SubmittableResult) : Submission :=
  let s := newPromise (asyncCall (executorBody subscription)) in
  match subscription with
  | Rejects _ => s
  | Resolves _ => notify notifications s
  end.

End Callback.

(** The terminal notifications: those on which the callback acts. *)
Definition terminal (r : SubmittableResult) : bool :=
  match status r with
  | InBlock _ | Invalid => true
  | _ => false
  end.

(** The failure event whose payload the loop ends with: the last one. *)
Definition lastFailed (events : list EventRecord) : option EventRecord :=
  find isExtrinsicFailed (rev events).

(** The submission right after the subscription was made. *)
Definition subscribed : Submission :=
  {| promise := Pending; executor := Fulfilled tt; unsubCalls := 0 |}.

End Tx.

(** ** The connection: the handlers of [useConnectApi] *)
Module Conn.

(** [type ApiConnectionStatus]. *)
Inductive ApiConnectionStatus : Type :=
| disconnected
| connecting
| connected
| error.

Definition status_eqb (a b : ApiConnectionStatus) : bool :=
  match a, b with
  | disconnected, disconnected
  | connecting, connecting
  | connected, connected
  | error, error => true
  | _, _ => false
  end.

(** An [ApiPromise], known by the endpoint [createApiInstance] was given. *)
Inductive ApiPromise : Type :=
| apiFor (endpointUrl : string).

(** The four atoms the hook writes. *)
Record Atoms : Type := mkAtoms {
  rpcEndpointAtom : string;
  rpcEndpointErrorAtom : string;
  rpcApiInstanceAtom : option ApiPromise;
  rpcApiStatusAtom : ApiConnectionStatus
}.

(** The atoms' initial values. *)
Definition initialAtoms : Atoms :=
  {| rpcEndpointAtom := "";
     rpcEndpointErrorAtom := "";
     rpcApiInstanceAtom := None;
     rpcApiStatusAtom := disconnected |}.

(** [ws.on('error', ...)]: the status atom is not written here. *)
Definition wsOnError (isFirefox : bool) (a : Atoms) : Atoms :=
  {| rpcEndpointAtom := "";
     rpcEndpointErrorAtom :=
       if isFirefox
       then "RPC Endpoint is unreachable. If you are using Firefox, please switch to Chrome and try again."
       else "RPC Endpoint is unreachable.";
     rpcApiInstanceAtom := None;
     rpcApiStatusAtom := rpcApiStatusAtom a |}.

(** [api.on('connected', async () => { await api.isReady;
    setStatus('connected') })], once [api.isReady] has resolved. *)
Definition apiOnConnected (a : Atoms) : Atoms :=
  {| rpcEndpointAtom := rpcEndpointAtom a;
     rpcEndpointErrorAtom := rpcEndpointErrorAtom a;
     rpcApiInstanceAtom := rpcApiInstanceAtom a;
     rpcApiStatusAtom := connected |}.

(** [api.on('disconnected', ...)]. *)
Definition apiOnDisconnected (a : Atoms) : Atoms :=
  {| rpcEndpointAtom := "";
     rpcEndpointErrorAtom := rpcEndpointErrorAtom a;
     rpcApiInstanceAtom := rpcApiInstanceAtom a;
     rpcApiStatusAtom :=
       if status_eqb (rpcApiStatusAtom a) error
       then rpcApiStatusAtom a else disconnected |}.

(** [onError], the handler of [api.on('error', ...)]. *)
Definition onError (a : Atoms) : Atoms :=
  {| rpcEndpointAtom := "";
     rpcEndpointErrorAtom := "RPC Error";
     rpcApiInstanceAtom := None;
     rpcApiStatusAtom := error |}.

(** The function given to [setTimeout]. *)
Definition onTimeout (a : Atoms) : Atoms :=
  if negb (status_eqb (rpcApiStatusAtom a) connected)
  then
    {| rpcEndpointAtom := "";
       rpcEndpointErrorAtom := "RPC Endpoint is unreachable";
       rpcApiInstanceAtom := None;
       rpcApiStatusAtom := error |}
  else a.

(** The end of [fn]: [await api.isReady; setApiInstance(api)]. *)
Definition fnReady (api : ApiPromise) (a : Atoms) : Atoms :=
  {| rpcEndpointAtom := rpcEndpointAtom a;
     rpcEndpointErrorAtom := rpcEndpointErrorAtom a;
     rpcApiInstanceAtom := Some api;
     rpcApiStatusAtom := rpcApiStatusAtom a |}.

(** [setEndpointUrl(url)] from outside the hook. *)
Definition setEndpointUrl (url : string) (a : Atoms) : Atoms :=
  {| rpcEndpointAtom := url;
     rpcEndpointErrorAtom := rpcEndpointErrorAtom a;
     rpcApiInstanceAtom := rpcApiInstanceAtom a;
     rpcApiStatusAtom := rpcApiStatusAtom a |}.

(** The atoms after the synchronous part of the effect. *)
Definition effectAtoms (a : Atoms) : Atoms :=
  if (rpcEndpointAtom a =? "")
  then
    {| rpcEndpointAtom := rpcEndpointAtom a;
       rpcEndpointErrorAtom := "";
       rpcApiInstanceAtom := None;
       rpcApiStatusAtom := disconnected |}
  else
    {| rpcEndpointAtom := rpcEndpointAtom a;
       rpcEndpointErrorAtom := "";
       rpcApiInstanceAtom := rpcApiInstanceAtom a;
       rpcApiStatusAtom := connecting |}.

(** The delay given to [setTimeout], in milliseconds. *)
Definition LIVENESS_MS : N := 10000.

(** The hook in time: the clock in milliseconds, the atoms, and the due
    times of the timers that [setTimeout] registered and that have not
    fired yet (the hook never clears one). *)
Record World : Type := mkWorld {
  now : N;
  atoms : Atoms;
  timers : list N
}.

(** The body of the effect: with an endpoint it sets [connecting] and [fn]
    registers the timer. *)
Definition effect (w : World) : World :=
  {| now := now w;
     atoms := effectAtoms (atoms w);
     timers :=
       if (rpcEndpointAtom (atoms w) =? "") then timers w
       else timers w ++ [(now w + LIVENESS_MS)%N] |}.

(** Time passes until [t]: the timers due by then fire. They all run the
    same function, so their order does not show. *)
Definition advanceTo (t : N) (w : World) : World :=
  {| now := N.max (now w) t;
     atoms := fold_left (fun a _ => onTimeout a)
                (filter (fun due => (due <=? t)%N) (timers w)) (atoms w);
     timers := filter (fun due => negb (due <=? t)%N) (timers w) |}.

(** What can happen to the hook besides the passing of time. The effect is
    run by React when it has seen the endpoint change. *)
Inductive Signal : Type :=
| SetEndpoint (url : string)
| RunEffect
| WsError (isFirefox : bool)
| ApiConnected
| ApiDisconnected
| ApiError
| FnReady (api : ApiPromise).

Definition onAtoms (f : Atoms -> Atoms) (w : World) : World :=
  {| now := now w; atoms := f (atoms w); timers := timers w |}.

Definition handle (s : Signal) (w : World) : World :=
  match s with
  | SetEndpoint url => onAtoms (setEndpointUrl url) w
  | RunEffect => effect w
  | WsError isFirefox => onAtoms (wsOnError isFirefox) w
  | ApiConnected => onAtoms apiOnConnected w
  | ApiDisconnected => onAtoms apiOnDisconnected w
  | ApiError => onAtoms onError w
  | FnReady api => onAtoms (fnReady api) w
  end.

(** A signal at time [t]: first the timers due by [t], then the handler. *)
Definition deliver (ts : N * Signal) (w : World) : World :=
  handle (snd ts) (advanceTo (fst ts) w).

Definition run (trace : list (N * Signal)) (w : World) : World :=
  fold_left (fun w ts => deliver ts w) trace w.

Definition initialWorld : World :=
  {| now := 0; atoms := initialAtoms; timers := [] |}.

(** What React does after an event: the effect depends on [endpointUrl] and
    on four setters that never change, so it runs again exactly when the
    event has left another endpoint than it found. [before] is the hook as
    the event found it, [after] as the handler left it. *)
Definition committed (before after : World) : World :=
  if (rpcEndpointAtom (atoms after) =? rpcEndpointAtom (atoms before))
  then after else effect after.

(** Time passes until [t] with React at work: each timer due by then fires
    on its own, in the order of registration, and is followed by the effect
    if it changed the endpoint. (The effect that follows a timer finds the
    endpoint empty and registers nothing, so the clock it reads does not
    show.) *)
Definition elapse (t : N) (w : World) : World :=
  fold_left (fun w _ => committed w (onAtoms onTimeout w))
    (filter (fun due => (due <=? t)%N) (timers w))
    {| now := N.max (now w) t;
       atoms := atoms w;
       timers := filter (fun due => negb (due <=? t)%N) (timers w) |}.

(** A signal at time [t] with React at work: the timers due by [t], the
    handler, and the effect if the handler changed the endpoint. *)
Definition react (ts : N * Signal) (w : World) : World :=
  let found := elapse (fst ts) w in
  committed found (handle (snd ts) found).

Definition live (trace : list (N * Signal)) (w : World) : World :=
  fold_left (fun w ts => react ts w) trace w.

(** The hook when it has mounted: the effect has run once on the initial
    atoms. *)
Definition mounted : World := effect initialWorld.

(** The handlers that call [setEndpointUrl('')] whatever the atoms hold. *)
Definition clearsEndpoint (s : Signal) : bool :=
  match s with
  | WsError _ | ApiDisconnected | ApiError => true
  | _ => false
  end.

(** The atoms as the timer leaves them when it acts. *)
Definition timedOut : Atoms :=
  {| rpcEndpointAtom := "";
     rpcEndpointErrorAtom := "RPC Endpoint is unreachable";
     rpcApiInstanceAtom := None;
     rpcApiStatusAtom := error |}.

End Conn.

(** ** Polling: [checkUntil] and [blockBarrier] *)
Module Barrier.

Local Open Scope Z_scope.

(** How a call of [checkUntil] stands: it returned, it threw, or it is
    still awaiting a call that has not settled. *)
Inductive Outcome : Type :=
| Returned
| Threw (r : Reason)
| Awaiting.

(** Where a run stands: the outcome, the clock then, and how often
    [async_fn] has been called. *)
Record Run : Type := mkRun {
  outcome : Outcome;
  clock : Z;
  evaluations : nat
}.

(** The interval given to [sleep], in milliseconds. *)
Definition POLL_MS : Z := 100.

(** [sleep(t)]: the clock after it. A timer that fires late shows as time
    taken by the call that follows. *)
Definition sleep (t : Z) (now : Z) : Z := now + t.

Section CheckUntil.

Variable T : Type.

(** Whether a value of [T] is truthy. *)
Variable truthy : T -> bool.

(** The [while (true)] loop. [calls] are the calls of [async_fn] that settle,
    in order: the time each takes and what it settles with; the call after
    the last of them is made and never settles. [now] is the clock at the
    top of the loop, [n] the calls made so far. *)
Fixpoint loop (t0 timeout : Z) (calls : list (Z * Awaited T)) (now : Z)
    (n : nat) : Run :=
  match calls with
  | [] => {| outcome := Awaiting; clock := now; evaluations := S n |}
  | (took, answer) :: rest =>
      let t := now + took in
      match answer with
      | Rejects e =>
          {| outcome := Threw (External e); clock := t; evaluations := S n |}
      | Resolves v =>
          if truthy v
          then {| outcome := Returned; clock := t; evaluations := S n |}
          else if t - t0 >=? timeout
          then {| outcome := Threw (NewError "timeout"); clock := t;
                  evaluations := S n |}
          else loop t0 timeout rest (sleep POLL_MS t) (S n)
      end
  end.

(** The clock at the reading [t] that follows call [j] (from 0), for a loop
    entered at [start]: the time the calls took and the sleeps between them. *)
Fixpoint readingAfter (calls : list (Z * Awaited T)) (j : nat) (start : Z) : Z :=
  match calls with
  | [] => start
  | (took, _) :: rest =>
      match j with
      | O => start + took
      | S j' => readingAfter rest j' (sleep POLL_MS (start + took))
      end
  end.

(** The calls before call [k] all resolved with a falsy value. *)
Definition falsyBefore (calls : list (Z * Awaited T)) (k : nat) : Prop :=
  forall j, (j < k)%nat ->
    exists took v, nth_error calls j = Some (took, Resolves v) /\ truthy v = false.

(** [checkUntil(async_fn, timeout)] started when the clock shows [now]. *)
Definition checkUntil (calls : list (Z * Awaited T)) (timeout : Z) (now : Z)
    : Run :=
  let t0 := now in
  loop t0 timeout calls now 0.

End CheckUntil.

(** What a head request of [api.rpc.chain] resolves with: [getHeader] gives
    the header of the best block, kept by its number; [getFinalizedHead]
    gives the hash of the finalized block ([BlockHash]), not its header. *)
Inductive Head : Type :=
| HeaderOf (number : Z)
| BlockHashOf (hex : string).

(** [head.number.toNumber()]: a block hash has no field [number], so the
    call is made on [undefined] ([None] here) and is a [TypeError]. *)
Definition numberToNumber (head : Head) : option Z :=
  match head with
  | HeaderOf number => Some number
  | BlockHashOf _ => None
  end.

(** The two head requests of [api.rpc.chain]: what each gives when asked at
    a given time (the hash of the finalized block, the number of the best
    block), and the time the request takes. *)
Record ChainApi : Type := mkChainApi {
  getFinalizedHead : Z -> string;
  getHeader : Z -> Z;
  headTook : Z
}.

(** The default of the parameter [timeout]. *)
Definition DEFAULT_TIMEOUT : Z := 4 * 6000.

(** [async () => (await prpc.getInfo({})).blocknum > chainHeight] on the
    calls of [prpc.getInfo]. *)
Definition caughtUp (chainHeight : Z) (c : Z * Awaited Z) : Z * Awaited bool :=
  match snd c with
  | Resolves blocknum => (fst c, Resolves (blocknum >? chainHeight))
  | Rejects e => (fst c, Rejects e)
  end.

(** [blockBarrier(api, prpc, finalized=false, timeout=4*6000)] started at
    [now]; an argument left out is [None] and takes its default. [getInfo]
    are the calls of [prpc.getInfo]. The call that throws on
    [head.number.toNumber()] has polled nothing. *)
Definition blockBarrier (api : ChainApi) (getInfo : list (Z * Awaited Z))
    (finalized : option bool) (timeout : option Z) (now : Z) : Run :=
  let finalized := match finalized with Some b => b | None => false end in
  let timeout := match timeout with Some t => t | None => DEFAULT_TIMEOUT end in
  let head := if finalized then BlockHashOf (getFinalizedHead api now)
              else HeaderOf (getHeader api now) in
  match numberToNumber head with
  | None =>
      {| outcome := Threw TypeError; clock := now + headTook api;
         evaluations := 0 |}
  | Some chainHeight =>
      checkUntil bool (fun b => b) (map (caughtUp chainHeight) getInfo) timeout
        (now + headTook api)
  end.

(** The calls before [k] all reported a height not above the target. *)
Definition notBeyond (chainHeight : Z) (getInfo : list (Z * Awaited Z))
    (k : nat) : Prop :=
  forall j, (j < k)%nat ->
    exists took blocknum,
      nth_error getInfo j = Some (took, Resolves blocknum) /\
      blocknum <= chainHeight.

(** Calls of [prpc.getInfo] that take [took] each and report [heights]. *)
Definition reports (took : Z) (heights : list Z) : list (Z * Awaited Z) :=
  map (fun h => (took, Resolves h)) heights.

End Barrier.

(** ** Running a contract method: [useRunner] *)
Module Runner.

(** [type LocalContractInfo]. *)
Record LocalContractInfo : Type := mkLocalContractInfo {
  contractId : string;
  metadata : string;
  savedAt : option Z
}.

(** [ContractMetaMessage]: the fields of a message specification read here;
    [args] holds the labels of the declared arguments. *)
Record ContractMetaMessage : Type := mkMessage {
  label : string;
  mutates : bool;
  args : list string
}.

(** A [Record<string, unknown>], and [obj[k]] on it ([None] is
    [undefined]). *)
Definition Dict : Type := list (string * AnyJson).

Fixpoint lookup (obj : Dict) (k : string) : option AnyJson :=
  match obj with
  | [] => None
  | (k', v) :: rest => if k' =? k then Some v else lookup rest k
  end.

(** [type MethodRunResult]. *)
Record MethodRunResult : Type := mkMethodRunResult {
  contract : LocalContractInfo;
  methodSpec : ContractMetaMessage;
  succeed : bool;
  inputArgs : Dict;
  output : option AnyJson;
  completedAt : Z
}.

(** The write of [dispatchResultsAtom]: [[ result, ...prev ]]. *)
Definition dispatchResultsAtom (result : MethodRunResult)
    (prev : list MethodRunResult) : list MethodRunResult :=
  result :: prev.

(** What the awaited query gives: [result.isOk], [result.toHuman()] and
    [output?.toHuman()]. *)
Record ContractCallOutcome : Type := mkContractCallOutcome {
  resultIsOk : bool;
  resultToHuman : AnyJson;
  outputToHuman : option AnyJson
}.

(** The [ContractPromise] built by the runner: the two tables made with
    [R.fromPairs], from message identifier to method name. *)
Record ContractInstance : Type := mkContractInstance {
  queryMethods : Dict;
  txMethods : Dict
}.

(** The names that every object has from [Object.prototype]. *)
Definition inheritedNames : list string :=
  ["constructor"; "hasOwnProperty"; "isPrototypeOf"; "propertyIsEnumerable";
   "toLocaleString"; "toString"; "valueOf"; "__proto__";
   "__defineGetter__"; "__defineSetter__"; "__lookupGetter__";
   "__lookupSetter__"].

(** What [table[label]] gives on a table made with [R.fromPairs]: the name
    stored under [label]; else, for a label that names a property of
    [Object.prototype], that function or object; else [undefined]. *)
Inductive Property : Type :=
| Own (name : string)
| Inherited
| Undefined.

Definition prop (table : Dict) (label : string) : Property :=
  match lookup table label with
  | Some name => Own name
  | None => if includes inheritedNames label then Inherited else Undefined
  end.

(** Truthiness of [table[label]]: a name that is not the empty string, or
    an inherited function or object. *)
Definition present (m : Property) : bool :=
  match m with
  | Own name => negb (name =? "")
  | Inherited => true
  | Undefined => false
  end.

(** Everything outside the callback that one invocation meets: the values
    of the atoms and what each awaited call settles with. *)
Record Env : Type := mkEnv {
  api : bool;
  account : bool;
  currentMethod : option ContractMetaMessage;
  currentContract : option LocalContractInfo;
  cloneIsReady : Awaited unit;
  create : Awaited ContractInstance;
  web3FromSource : Awaited unit;
  signAndSend : Promise Tx.InBlockValue;
  createPruntimeApi : Awaited unit;
  blockBarrier : Barrier.Outcome;
  signCertificate : Awaited unit;
  query : Awaited ContractCallOutcome;
  dateNow : Z
}.

(** How a piece of the callback ends: it goes on with a value, it leaves
    through [return], it throws, or it waits on a promise that never
    settles. *)
Inductive Flow (A : Type) : Type :=
| Next (a : A)
| Return
| Throw (r : Reason)
| Stuck.

Arguments Next {A} a.
Arguments Return {A}.
Arguments Throw {A} r.
Arguments Stuck {A}.

(** Steps of the callback act on the value of [resultsAtom]. *)
Definition M (A : Type) : Type :=
  list MethodRunResult -> Flow A * list MethodRunResult.

Definition ret {A : Type} (a : A) : M A := fun rs => (Next a, rs).

Definition bind {A B : Type} (m : M A) (k : A -> M B) : M B :=
  fun rs =>
    match m rs with
    | (Next a, rs') => k a rs'
    | (Return, rs') => (Return, rs')
    | (Throw r, rs') => (Throw r, rs')
    | (Stuck, rs') => (Stuck, rs')
    end.

Notation "x <- m ;; k" := (bind m (fun x => k))
  (at level 61, m at next level, right associativity).
Notation "m ;;; k" := (bind m (fun _ => k))
  (at level 61, right associativity).

Definition leave {A : Type} : M A := fun rs => (Return, rs).
Definition throw {A : Type} (r : Reason) : M A := fun rs => (Throw r, rs).

(** [await] of a call outside this file, and of a promise. *)
Definition await {A : Type} (c : Awaited A) : M A :=
  match c with
  | Resolves v => ret v
  | Rejects e => throw (External e)
  end.

Definition awaitPromise {A : Type} (p : Promise A) : M A :=
  match p with
  | Fulfilled v => ret v
  | Rejected r => throw r
  | Pending => fun rs => (Stuck, rs)
  end.

(** [await blockBarrier(...)] by the outcome of the barrier. *)
Definition awaitBarrier (o : Barrier.Outcome) : M unit :=
  match o with
  | Barrier.Returned => ret tt
  | Barrier.Threw r => throw r
  | Barrier.Awaiting => fun rs => (Stuck, rs)
  end.

(** [obj[name](...)]: a [TypeError] when [name] is [undefined], and when
    it is an inherited function or object, whose text is no key of [obj]. *)
Definition method_of (name : Property) : M string :=
  match name with
  | Own n => ret n
  | Inherited | Undefined => throw TypeError
  end.

Definition appendResult (result : MethodRunResult) : M unit :=
  fun rs => (Next tt, dispatchResultsAtom result rs).

(** The block of [try]. *)
Definition tryBlock (e : Env) (inputs : Dict) : M unit :=
  match currentMethod e with
  | Some methodSpec =>
      if negb (api e) || negb (account e) then leave
      else
        _ <- await (cloneIsReady e) ;;
        contract <- match currentContract e with
                    | Some c => ret c
                    | None => throw TypeError
                    end ;;
        contractInstance <- await (create e) ;;
        let queryMethod := prop (queryMethods contractInstance) (label methodSpec) in
        let txMethod := prop (txMethods contractInstance) (label methodSpec) in
        if negb (present queryMethod) && negb (present txMethod) then leave
        else
          let args := map (lookup inputs) (args methodSpec) in
          _ <- await (web3FromSource e) ;;
          if mutates methodSpec
          then
            _ <- method_of txMethod ;;
            _ <- awaitPromise (signAndSend e) ;;
            _ <- await (createPruntimeApi e) ;;
            awaitBarrier (blockBarrier e)
          else
            _ <- await (signCertificate e) ;;
            _ <- method_of queryMethod ;;
            queryResult <- await (query e) ;;
            if resultIsOk queryResult
            then
              appendResult
                {| contract := contract;
                   methodSpec := methodSpec;
                   succeed := true;
                   inputArgs := inputs;
                   output := outputToHuman queryResult;
                   completedAt := dateNow e |}
            else
              appendResult
                {| contract := contract;
                   methodSpec := methodSpec;
                   succeed := false;
                   inputArgs := inputs;
                   output := Some (resultToHuman queryResult);
                   completedAt := dateNow e |}
  | None => leave
  end.

(** How the promise of [fn] ends. *)
Inductive Ending : Type :=
| Done
| Failed (r : Reason)
| NeverSettles.

(** The hook's state: [resultsAtom] and [isLoading]. *)
Record RunnerState : Type := mkRunnerState {
  resultsAtom : list MethodRunResult;
  isLoading : bool
}.

(** [fn(inputs)]: [setIsLoading(true)], the [try] block, and
    [setIsLoading(false)] in [finally], which a block that never settles
    does not reach. *)
Definition fn (e : Env) (inputs : Dict) (st : RunnerState)
    : Ending * RunnerState :=
  match tryBlock e inputs (resultsAtom st) with
  | (Next _, rs) | (Return, rs) => (Done, {| resultsAtom := rs; isLoading := false |})
  | (Throw r, rs) => (Failed r, {| resultsAtom := rs; isLoading := false |})
  | (Stuck, rs) => (NeverSettles, {| resultsAtom := rs; isLoading := true |})
  end.

(** The invocation gets as far as the query and the query resolves. *)
Definition reachesQuery (e : Env) (q : ContractCallOutcome) : Prop :=
  exists m c ci name,
    currentMethod e = Some m /\ api e = true /\ account e = true /\
    cloneIsReady e = Resolves tt /\ currentContract e = Some c /\
    create e = Resolves ci /\
    mutates m = false /\
    lookup (queryMethods ci) (label m) = Some name /\ name <> "" /\
    web3FromSource e = Resolves tt /\ signCertificate e = Resolves tt /\
    query e = Resolves q.

(** The invocation is one of a mutating method and gets as far as the
    submission of the extrinsic. *)
Definition reachesSubmit (e : Env) : Prop :=
  exists m c ci name,
    currentMethod e = Some m /\ api e = true /\ account e = true /\
    cloneIsReady e = Resolves tt /\ currentContract e = Some c /\
    create e = Resolves ci /\
    mutates m = true /\
    lookup (txMethods ci) (label m) = Some name /\ name <> "" /\
    web3FromSource e = Resolves tt.

End Runner.

(** ** Stored contracts: [localContractsAtom], [currentContractAtom],
    [availableContractsAtom] *)
Module Contracts.

(** The value of [localContractsAtom], as [Object.entries] lists it: the
    contract ids are the keys. An object lists the keys that are array
    indexes first, in ascending order, and its other keys after them, in the
    order they were first assigned. *)
Definition LocalContracts : Type := list (string * Runner.LocalContractInfo).

(** Whether a property key is an array index: the canonical decimal text of
    an integer below 2^32 - 1. *)
Definition arrayIndex (key : string) : option N :=
  match NilZero.uint_of_string key with
  | Some u =>
      let n := N.of_uint u in
      if (Events.decimal n =? key) && (n <? 4294967295)%N then Some n else None
  | None => None
  end.

(** The order in which an object lists its keys. *)
Fixpoint listed (keys : list string) : bool :=
  match keys with
  | [] => true
  | k :: rest =>
      match arrayIndex k with
      | Some n =>
          forallb (fun k' => match arrayIndex k' with
                             | Some m => (n <? m)%N
                             | None => true
                             end) rest
      | None =>
          forallb (fun k' => match arrayIndex k' with
                             | Some _ => false
                             | None => true
                             end) rest
      end && listed rest
  end.

(** [contracts[contractId]], as [currentContractAtom] reads it. *)
Fixpoint currentContract (contracts : LocalContracts) (contractId : string)
    : option Runner.LocalContractInfo :=
  match contracts with
  | [] => None
  | (k, v) :: rest =>
      if k =? contractId then Some v else currentContract rest contractId
  end.

(** [contractId in exists]. *)
Definition has (exists_ : LocalContracts) (contractId : string) : bool :=
  existsb (fun i => fst i =? contractId) exists_.

(** A key that is there takes the new value where it stands. *)
Fixpoint overwrite (contractId : string) (info : Runner.LocalContractInfo)
    (exists_ : LocalContracts) : LocalContracts :=
  match exists_ with
  | [] => []
  | (k, v) :: rest =>
      if k =? contractId then (contractId, info) :: rest
      else (k, v) :: overwrite contractId info rest
  end.

(** A new key that is the array index [n] is listed after the array indexes
    below [n] that lead the list. *)
Fixpoint insertIndex (n : N) (entry : string * Runner.LocalContractInfo)
    (exists_ : LocalContracts) : LocalContracts :=
  match exists_ with
  | [] => [entry]
  | (k, v) :: rest =>
      match arrayIndex k with
      | Some m =>
          if (m <? n)%N then (k, v) :: insertIndex n entry rest
          else entry :: (k, v) :: rest
      | None => entry :: (k, v) :: rest
      end
  end.

(** [{ ...exists, [contractId]: info }]: the spread copies the entries in
    the order [exists] lists them; a key already there keeps its place and
    takes the new value; a new key goes to its place among the array
    indexes if it is one, and last if it is not. *)
Definition assign (contractId : string) (info : Runner.LocalContractInfo)
    (exists_ : LocalContracts) : LocalContracts :=
  if has exists_ contractId then overwrite contractId info exists_
  else
    match arrayIndex contractId with
    | Some n => insertIndex n (contractId, info) exists_
    | None => exists_ ++ [(contractId, info)]
    end.

(** [R.propOr(0, 'savedAt', i[1])]. *)
Definition savedAtOr0 (i : string * Runner.LocalContractInfo) : Z :=
  match Runner.savedAt (snd i) with
  | Some t => t
  | None => 0%Z
  end.

(** [R.sortBy(key)]: a stable sort, ascending in [key]; written as the
    insertion that puts an element before the first one of a key not below
    its own. *)
Fixpoint insertBy {A : Type} (key : A -> Z) (x : A) (sorted : list A) : list A :=
  match sorted with
  | [] => [x]
  | y :: rest =>
      if (key x <=? key y)%Z then x :: y :: rest
      else y :: insertBy key x rest
  end.

Definition sortBy {A : Type} (key : A -> Z) (l : list A) : list A :=
  fold_right (insertBy key) [] l.

(** The [queryFn] of [availableContractsAtom]: [api] tells whether
    [rpcApiInstanceAtom] holds an instance, [onChain] is what
    [PhalaFatContractsQuery.contracts(api)] settles with, by its keys. *)
Definition availableContracts (api : bool) (onChain : Awaited (list string))
    (onLocal : LocalContracts) : Awaited LocalContracts :=
  if api then
    match onChain with
    | Rejects e => Rejects e
    | Resolves onChainKeys =>
        Resolves
          (rev (sortBy savedAtOr0
                  (filter (fun i => includes onChainKeys (fst i)) onLocal)))
    end
  else Resolves [].

End Contracts.

(** ** Upload and instantiation: [useUploadCodeAndInstantiate] *)
Module Upload.

(** An element of [result.toHuman().events]: [i.event] and the rest. *)
Record HumanRecord : Type := mkHumanRecord {
  event : EventRecord;
  phase : string
}.

(** The contract file handed to the callback: [contract.source.wasm],
    [contract.source.hash] and the constructors of [contract.V3.spec] by
    label and selector. *)
Record ContractFile : Type := mkContractFile {
  wasm : string;
  hash : string;
  constructors : list (string * string)
}.

(** The atoms the callback writes, and the toasts shown. *)
Record UploadState : Type := mkUploadState {
  eventsAtom : list EventRecord;
  localContractsAtom : Contracts.LocalContracts;
  toasts : list string
}.

(** The write of [dispatchEventAtom]:
    [[ ...R.reverse(events.map(i => i.event)), ...prev ]]. *)
Definition dispatchEventAtom (events : list HumanRecord)
    (prev : list EventRecord) : list EventRecord :=
  rev (map event events) ++ prev.

(** Everything outside the callback that one call meets. *)
Record Env : Type := mkEnv {
  api : bool;
  web3FromSource : Awaited unit;
  uploadCode : Promise (list HumanRecord);
  instantiate : Promise (list HumanRecord);
  dateNow : Z
}.

(** Steps of the callback act on [UploadState]. *)
Definition M (A : Type) : Type := UploadState -> Runner.Flow A * UploadState.

Definition ret {A : Type} (a : A) : M A := fun st => (Runner.Next a, st).

Definition bind {A B : Type} (m : M A) (k : A -> M B) : M B :=
  fun st =>
    match m st with
    | (Runner.Next a, st') => k a st'
    | (Runner.Return, st') => (Runner.Return, st')
    | (Runner.Throw r, st') => (Runner.Throw r, st')
    | (Runner.Stuck, st') => (Runner.Stuck, st')
    end.

Notation "x <- m ;; k" := (bind m (fun x => k))
  (at level 61, m at next level, right associativity).

Definition throw {A : Type} (r : Reason) : M A :=
  fun st => (Runner.Throw r, st).

Definition await {A : Type} (c : Awaited A) : M A :=
  match c with
  | Resolves v => ret v
  | Rejects e => throw (External e)
  end.

Definition awaitPromise {A : Type} (p : Promise A) : M A :=
  match p with
  | Fulfilled v => ret v
  | Rejected r => throw r
  | Pending => fun st => (Runner.Stuck, st)
  end.

(** [reset()] of [eventsAtom]. *)
Definition reset : M unit :=
  fun st => (Runner.Next tt,
             {| eventsAtom := [];
                localContractsAtom := localContractsAtom st;
                toasts := toasts st |}).

Definition dispatch (events : list HumanRecord) : M unit :=
  fun st => (Runner.Next tt,
             {| eventsAtom := dispatchEventAtom events (eventsAtom st);
                localContractsAtom := localContractsAtom st;
                toasts := toasts st |}).

Definition saveContract (contractId : string) (info : Runner.LocalContractInfo)
    : M unit :=
  fun st => (Runner.Next tt,
             {| eventsAtom := eventsAtom st;
                localContractsAtom :=
                  Contracts.assign contractId info (localContractsAtom st);
                toasts := toasts st |}).

Definition toast (title : string) : M unit :=
  fun st => (Runner.Next tt,
             {| eventsAtom := eventsAtom st;
                localContractsAtom := localContractsAtom st;
                toasts := title :: toasts st |}).

(** [contract.V3.spec.constructors.filter(c => c.label === 'default' ||
    c.label === 'new')[0].selector]: a [TypeError] when the filter leaves
    nothing. *)
Definition initSelector (contract : ContractFile) : M string :=
  match filter (fun c => (fst c =? "default") || (fst c =? "new"))
               (constructors contract) with
  | c :: _ => ret (snd c)
  | [] => throw TypeError
  end.

(** [R.find(R.pathEq(['event', 'method'], 'Instantiating'), r2.events)]. *)
Definition instantiateEvent (events : list HumanRecord) : option HumanRecord :=
  find (fun i => method (event i) =? "Instantiating") events.

Section Callback.

(** [R.dissocPath(['source', 'wasm'], contract)], as the text that is
    stored. *)
Variable dissocWasm : ContractFile -> string.

(** The callback that the hook returns. *)
Definition uploadCodeAndInstantiate (e : Env) (contract : ContractFile) : M unit :=
  if negb (api e) then throw (NewError "API instance is not ready yet.")
  else
    _ <- reset ;;
    _ <- await (web3FromSource e) ;;
    r1 <- awaitPromise (uploadCode e) ;;
    _ <- dispatch r1 ;;
    _ <- initSelector contract ;;
    r2 <- awaitPromise (instantiate e) ;;
    _ <- dispatch r2 ;;
    _ <- match instantiateEvent r2 with
         | Some found =>
             if (2 <? List.length (data (event found)))%nat
             then
               match nth_error (data (event found)) 0 with
               | Some contractId =>
                   saveContract contractId
                     {| Runner.contractId := contractId;
                        Runner.metadata := dissocWasm contract;
                        Runner.savedAt := Some (dateNow e) |}
               | None => ret tt
               end
             else ret tt
         | None => ret tt
         end ;;
    toast "Instantiate Requested.".

End Callback.

End Upload.

(** ** The account field: [account-select-field.tsx] *)
Module AccountField.

(** An injected account: [address] and [meta.name]. *)
Record Account : Type := mkAccount {
  address : string;
  name : option string
}.

(** [selected && selected.meta && selected.meta.name]: the name when it is
    truthy. *)
Definition selectedName (selected : option Account) : option string :=
  match selected with
  | Some a =>
      match name a with
      | Some n => if n =? "" then None else Some n
      | None => None
      end
  | None => None
  end.

(** The [placeholder] of [AccountSelectFieldBase]. *)
Definition placeholder (accounts : list Account) (selected : option Account)
    : string :=
  match selectedName selected with
  | Some n => n
  | None =>
      if (List.length accounts =? 0)%nat then "Please Add Account First"
      else "Please Select Account First"
  end.

(** [address.substring(0, 6)], three dots, and
    [address.substring(address.length - 6)]. *)
Definition shortAddress (address : string) : string :=
  (String.substring 0 6 address ++ "..."
   ++ String.substring (String.length address - 6) 6 address)%string.

(** One [MenuItem]. *)
Record MenuItem : Type := mkMenuItem {
  itemKey : option string;
  isChecked : bool;
  itemName : option string;
  itemCode : string
}.

(** [account.address === selected?.address]. *)
Definition checked (account : Account) (selected : option Account) : bool :=
  match selected with
  | Some s => address account =? address s
  | None => false
  end.

Definition menuItem (selected : option Account) (account : Account) : MenuItem :=
  {| itemKey := name account;
     isChecked := checked account selected;
     itemName := name account;
     itemCode := shortAddress (address account) |}.

(** What [AccountSelectFieldBase] renders: the text of the button and the
    list of the menu, if any. *)
Record Menu : Type := mkMenu {
  button : string;
  menuList : option (list MenuItem)
}.

(** The three components; [None] and [false] stand for [return null]. *)
Definition AccountSelectFieldBase (enabled : bool) (accounts : list Account)
    (selected : option Account) : option Menu :=
  if negb enabled then None
  else
    Some {| button := placeholder accounts selected;
            menuList :=
              if negb (List.length accounts =? 0)%nat
              then Some (map (menuItem selected) accounts)
              else None |}.

Definition ExtensionRequiredHelpText (enabled : bool) : bool :=
  if enabled then false else true.

Definition CreateAccountHelpText (enabled : bool) (accounts : list Account)
    : bool :=
  if negb enabled || (0 <? List.length accounts)%nat then false else true.

End AccountField.

(** ** Recent events with their details: [getAddressMeta], [getContractAbi],
    [recentSystemEventsAtom] *)
Module Recent.

(** What [keyring.getAddress(address, type)] does: it throws, it gives
    nothing, or it gives a pair, of whose [meta] the code reads
    [contract.abi]. *)
Inductive KeyringAnswer : Type :=
| GetThrows
| NoPair
| Pair (contractAbi : option string).

(** What [abi.decodeEvent(encoded)] gives: the fields spread into
    [abiEvent]. *)
Record DecodedEvent : Type := mkDecodedEvent {
  args : list Codec;
  eventName : string
}.

(** [abiEvent]: [{ ...decoded, values: decoded.args.map(...) }]. *)
Record AbiEvent : Type := mkAbiEvent {
  decoded : DecodedEvent;
  abiValues : list (bool * Codec)
}.

(** [RecentSystemEvent]. *)
Record Details : Type := mkDetails {
  abiEvent : option AbiEvent;
  params : list string;
  values : list (bool * Codec)
}.

Record RecentSystemEvent : Type := mkRecentSystemEvent {
  event : Events.KeyedEvent;
  details : Details
}.

(** [value => ({ isValid: true, value })]. *)
Definition valid (value : Codec) : bool * Codec := (true, value).

Section Decode.

(** The collaborators: the keyring, [JSON.parse], [new Abi(data, ...)] and
    [abi.decodeEvent]; [None] as a result stands for a throw, [None] as the
    argument of [newAbi] for [undefined]. [typeDef] gives [value.typeDef]. *)
Variable Abi : Type.
Variable getAddress : string -> KeyringAnswer.
Variable jsonParse : string -> option AnyJson.
Variable newAbi : option AnyJson -> option Abi.
Variable decodeEvent : Abi -> Codec -> option DecodedEvent.
Variable typeDef : EventRecord -> list string.

(** [getAddressMeta(address, 'contract')], by the [contract.abi] of what it
    returns: the [catch] and [meta || {}] give the empty meta. *)
Definition getAddressMeta (address : string) : option string :=
  match getAddress address with
  | GetThrows => None
  | NoPair => None
  | Pair contractAbi => contractAbi
  end.

(** [getContractAbi(api, address)]; an [address] of [None] is [null]. *)
Definition getContractAbi (address : option string) : option Abi :=
  match address with
  | None => None
  | Some a =>
      if a =? "" then None
      else
        match getAddressMeta a with
        | Some abiText =>
            match jsonParse abiText with
            | Some data => newAbi (Some data)
            | None => None
            end
        | None => newAbi None
        end
  end.

(** The function mapped over the stored events. *)
Definition detail (event : Events.KeyedEvent) : RecentSystemEvent :=
  let value := Events.record (Events.keyed event) in
  let params := typeDef value in
  let values := map valid (data value) in
  let plain :=
    {| event := event;
       details := {| abiEvent := None; params := params; values := values |} |} in
  if (section value =? "contracts") && (method value =? "ContractExecution")
     && (List.length (data value) =? 2)%nat
  then
    match data value with
    | accountId :: encoded :: _ =>
        match getContractAbi (Some accountId) with
        | Some abi =>
            match decodeEvent abi encoded with
            | Some d =>
                {| event := event;
                   details :=
                     {| abiEvent := Some {| decoded := d;
                                            abiValues := map valid (args d) |};
                        params := params;
                        values := values |} |}
            | None => plain
            end
        | None => plain
        end
    | _ => plain
    end
  else plain.

(** The read of [recentSystemEventsAtom]; [api] tells whether there is an
    API instance. *)
Definition recentSystemEvents (api : bool) (events : list Events.KeyedEvent)
    : list RecentSystemEvent :=
  if api then map detail events else [].

End Decode.

End Recent.

(** ** Sample data *)
Module Sample.

(** A stand-in for the content hash where an example needs a concrete one:
    the kinds and indexes of the events written out, in order. *)
Definition kindsDigest (es : list Events.IndexedEvent) : string :=
  String.concat ";"
    (map (fun e =>
            (section (Events.record e) ++ "." ++ method (Events.record e) ++ "#"
             ++ String.concat ","
                  (map (fun i => Events.decimal (N.of_nat i)) (Events.indexes e)))%string)
         es).

Definition transfer : EventRecord := mkEventRecord "balances" "Transfer" ["0x2a"].
Definition instantiated : EventRecord :=
  mkEventRecord "contracts" "Instantiated" ["0x01"; "0x02"].
Definition extrinsicSuccess : EventRecord :=
  mkEventRecord "system" "ExtrinsicSuccess" [].

(** Block 7 with hash [0xaa], delivered once with one transfer and once
    more with a second event. *)
Definition block7 : Events.Header := Events.mkHeader 7 "0xaa".
Definition first7 : Events.Delivery :=
  Events.mkDelivery [extrinsicSuccess; transfer] (Some block7).
Definition again7 : Events.Delivery :=
  Events.mkDelivery [extrinsicSuccess; transfer; instantiated] (Some block7).

(** Another block at the same height, and a delivery with system events
    only. *)
Definition fork7 : Events.Header := Events.mkHeader 7 "0xbb".
Definition forked7 : Events.Delivery :=
  Events.mkDelivery [instantiated] (Some fork7).
Definition quiet8 : Events.Delivery :=
  Events.mkDelivery [extrinsicSuccess] (Some (Events.mkHeader 8 "0xcc")).

(** Notifications of a submission, and the two [toHuman] renderings used
    in examples. *)
Definition extrinsicFailed : EventRecord :=
  mkEventRecord "system" "ExtrinsicFailed" ["0xdead"; "0x00"].
Definition failedInBlock : Tx.SubmittableResult :=
  Tx.mkResult (Tx.InBlock "0x11") [transfer; extrinsicFailed].
Definition goodInBlock : Tx.SubmittableResult :=
  Tx.mkResult (Tx.InBlock "0x22") [transfer; extrinsicSuccess].
Definition pendingResult (st : Tx.ExtrinsicStatus) : Tx.SubmittableResult :=
  Tx.mkResult st [].
Definition hashText (h : string) : AnyJson := h.
Definition methodsText (r : Tx.SubmittableResult) : AnyJson :=
  String.concat "," (map method (Tx.events r)).

(** A connection attempt at time 0, as the hook sees it. *)
Definition endpoint : string := "wss://node.example:9944".
Definition attempt : Conn.World :=
  Conn.run [(0%N, Conn.SetEndpoint endpoint)] Conn.initialWorld.

(** The transport drops after five seconds; React then runs the effect for
    the emptied endpoint. *)
Definition dropped : list (N * Conn.Signal) :=
  [(5000%N, Conn.ApiDisconnected); (5000%N, Conn.RunEffect)].

(** The endpoint is entered at time 0 and the node is not reached: what
    happens early in the attempt, and then nothing until the timer of the
    attempt has fired. *)
Definition unreachable (early : list (N * Conn.Signal)) : Conn.World :=
  Conn.elapse 10000
    (Conn.live ((0%N, Conn.SetEndpoint endpoint) :: early) Conn.mounted).

(** The API is ready after two seconds. *)
Definition readyInTime : list (N * Conn.Signal) :=
  [(2000%N, Conn.ApiConnected); (2000%N, Conn.FnReady (Conn.apiFor endpoint))].

(** A chain that gains a block every six seconds, a chain that stands
    still at the same best block, and one whose best block is three blocks
    lower. The finalized block is told by its hash. *)
Definition growing : Barrier.ChainApi :=
  Barrier.mkChainApi
    (fun t => if (t <? 6000)%Z then "0x61f3a9" else "0x62b07c")
    (fun t => 100 + t / 6000)%Z 50%Z.
Definition standing : Barrier.ChainApi :=
  Barrier.mkChainApi (fun _ => "0x61f3a9") (fun _ => 100%Z) 50%Z.
Definition trailing : Barrier.ChainApi :=
  Barrier.mkChainApi (fun _ => "0x5e02d4") (fun _ => 97%Z) 50%Z.

(** A predicate that is falsy after one second and truthy ten milliseconds
    into the next call. *)
Definition slowThenReady : list (Z * Awaited bool) :=
  [(1000, Resolves false); (10, Resolves true)]%Z.

(** A slow worker: its third answer is read 24000 ms after the start. *)
Definition lagging : list (Z * Awaited Z) :=
  [(8000, Resolves 98); (8000, Resolves 99); (7800, Resolves 100)]%Z.
Definition overtaking : list (Z * Awaited Z) :=
  [(8000, Resolves 98); (8000, Resolves 99); (7800, Resolves 101)]%Z.

(** A read-only message of a stored contract, and an invocation of it in
    which every awaited call resolves. *)
Definition flipper : Runner.LocalContractInfo :=
  Runner.mkLocalContractInfo "0x0c" "{}" (Some 1660000000000%Z).
Definition getMessage : Runner.ContractMetaMessage :=
  Runner.mkMessage "get" false [].
Definition instance : Runner.ContractInstance :=
  Runner.mkContractInstance [("flip", "flip"); ("get", "get")]
                            [("flip", "flip"); ("get", "get")].
Definition reading (q : Runner.ContractCallOutcome) : Runner.Env :=
  {| Runner.api := true;
     Runner.account := true;
     Runner.currentMethod := Some getMessage;
     Runner.currentContract := Some flipper;
     Runner.cloneIsReady := Resolves tt;
     Runner.create := Resolves instance;
     Runner.web3FromSource := Resolves tt;
     Runner.signAndSend := Pending;
     Runner.createPruntimeApi := Resolves tt;
     Runner.blockBarrier := Barrier.Awaiting;
     Runner.signCertificate := Resolves tt;
     Runner.query := Resolves q;
     Runner.dateNow := 1660000000123%Z |}.
Definition reverted : Runner.ContractCallOutcome :=
  Runner.mkContractCallOutcome false "{Err: {Module: ContractReverted}}" None.
Definition answered : Runner.ContractCallOutcome :=
  Runner.mkContractCallOutcome true "{Ok: {flags: [], data: 0x01}}" (Some "true").
Definition flipMessage : Runner.ContractMetaMessage :=
  Runner.mkMessage "flip" true [].

(** The same invocation for another message of the form. *)
Definition asking (m : Runner.ContractMetaMessage)
    (q : Runner.ContractCallOutcome) : Runner.Env :=
  {| Runner.api := true;
     Runner.account := true;
     Runner.currentMethod := Some m;
     Runner.currentContract := Some flipper;
     Runner.cloneIsReady := Resolves tt;
     Runner.create := Resolves instance;
     Runner.web3FromSource := Resolves tt;
     Runner.signAndSend := Pending;
     Runner.createPruntimeApi := Resolves tt;
     Runner.blockBarrier := Barrier.Awaiting;
     Runner.signCertificate := Resolves tt;
     Runner.query := Resolves q;
     Runner.dateNow := 1660000000123%Z |}.

(** An invocation of the mutating message, with what the submission and the
    barrier give. *)
Definition flipping (sent : Promise Tx.InBlockValue)
    (barrier : Barrier.Outcome) : Runner.Env :=
  {| Runner.api := true;
     Runner.account := true;
     Runner.currentMethod := Some flipMessage;
     Runner.currentContract := Some flipper;
     Runner.cloneIsReady := Resolves tt;
     Runner.create := Resolves instance;
     Runner.web3FromSource := Resolves tt;
     Runner.signAndSend := sent;
     Runner.createPruntimeApi := Resolves tt;
     Runner.blockBarrier := barrier;
     Runner.signCertificate := Rejects "cancelled";
     Runner.query := Rejects "unused";
     Runner.dateNow := 1660000000456%Z |}.

Definition earlier : Runner.RunnerState :=
  Runner.mkRunnerState
    [Runner.mkMethodRunResult flipper getMessage true [] (Some "false")
       1660000000000%Z]
    false.

(** The transfer as the second extrinsic of a block applies it, and a
    content hash that writes out the phases too. *)
Definition transferSecond : EventRecord :=
  {| phase := "0x0001000000";
     section := "balances";
     method := "Transfer";
     data := ["0x2a"];
     topics := [] |}.
Definition phasesDigest (es : list Events.IndexedEvent) : string :=
  (kindsDigest es ++ "@"
   ++ String.concat "," (map (fun e => phase (Events.record e)) es))%string.

(** A batch with two transfers around a system event and a deposit. *)
Definition deposit : EventRecord := mkEventRecord "balances" "Deposit" ["0x07"].
Definition mixed : list EventRecord :=
  [transfer; extrinsicSuccess; instantiated; deposit; transfer].

(** A second attempt begun eight seconds after the first. *)
Definition secondAttempt : Conn.World :=
  Conn.run [(8000%N, Conn.SetEndpoint "wss://other.example:9944")]
           (Conn.effect attempt).

(** Three stored contracts, the middle one without [savedAt]. *)
Definition stored3 : Contracts.LocalContracts :=
  [("0x0a", Runner.mkLocalContractInfo "0x0a" "{}" (Some 100%Z));
   ("0x0b", Runner.mkLocalContractInfo "0x0b" "{}" None);
   ("0x0c", flipper)].

(** An upload in which both submissions go through. *)
Definition codeStored : Upload.HumanRecord :=
  Upload.mkHumanRecord (mkEventRecord "phalaFatContracts" "CodeUploaded" ["0xc0de"])
                       "ApplyExtrinsic".
Definition instantiating : Upload.HumanRecord :=
  Upload.mkHumanRecord
    (mkEventRecord "phalaFatContracts" "Instantiating" ["0x0d"; "0xcc"; "0xdd"])
    "ApplyExtrinsic".
Definition paid : Upload.HumanRecord :=
  Upload.mkHumanRecord (mkEventRecord "balances" "Withdraw" ["0x01"])
                       "ApplyExtrinsic".
Definition flipperFile : Upload.ContractFile :=
  Upload.mkContractFile "0x0061736d" "0xabcd" [("new", "0x9bae9d5e"); ("default", "0xed4b9d1b")].
Definition bareFile : Upload.ContractFile :=
  Upload.mkContractFile "0x0061736d" "0xabcd" [("init", "0x00000001")].
Definition withoutWasm (c : Upload.ContractFile) : string := Upload.hash c.
Definition uploading (first second : Promise (list Upload.HumanRecord))
    : Upload.Env :=
  {| Upload.api := true;
     Upload.web3FromSource := Resolves tt;
     Upload.uploadCode := first;
     Upload.instantiate := second;
     Upload.dateNow := 1660000000789%Z |}.
Definition shelf : Upload.UploadState :=
  Upload.mkUploadState [transfer] stored3 [].

(** A stored event of a contract execution, with a keyring that knows the
    contract and a decoder that throws. *)
Definition executed : Events.KeyedEvent :=
  Events.toKeyed 9 "0xee"
    (Events.mkIndexedEvent [1%nat]
       (mkEventRecord "contracts" "ContractExecution" ["0x0c"; "0xbeef"])).
Definition knownContract (address : string) : Recent.KeyringAnswer :=
  if address =? "0x0c" then Recent.Pair (Some "{}") else Recent.NoPair.
Definition parseAny (text : string) : option AnyJson := Some text.
Definition abiOf (data : option AnyJson) : option string := data.
Definition decodeThrows (abi : string) (encoded : Codec)
    : option Recent.DecodedEvent := None.
Definition noTypes (r : EventRecord) : list string := [].

(** Two accounts of the extension. *)
Definition alice : AccountField.Account :=
  AccountField.mkAccount "5GrwvaEF5zXb26Fz9rcQpDWS57CtERHpNehXCPcNoHGKutQY"
                         (Some "alice").
Definition bob : AccountField.Account :=
  AccountField.mkAccount "5FHneW46xGXgs5mUiveU4sbTyGBzmstUspZC92UhjJM694ty"
                         (Some "bob").

End Sample.

(** ** Text of numbers *)
Module Text.

(** The characters that the decimal text of a number is made of. *)
Definition isDigit (c : ascii) : bool :=
  match c with
  | "0" | "1" | "2" | "3" | "4" | "5" | "6" | "7" | "8" | "9" => true
  | _ => false
  end%char.

Fixpoint allDigits (s : string) : bool :=
  match s with
  | EmptyString => true
  | String c rest => isDigit c && allDigits rest
  end.

End Text.

(** * Properties *)

(** ** The deduplication pipeline *)
Section EventsTheory.
Import Events.

Lemma mapIndexFrom_paired (records : list EventRecord) (i : nat) :
  mapIndexFrom i records =
  map (fun ie => mkIndexedEvent [fst ie] (snd ie))
      (List.combine (seq i (List.length records)) records).
Proof.
  revert i. induction records as [|r rest IH]; intro i; simpl.
  - reflexivity.
  - now rewrite IH.
Qed.

Lemma keepEvent_noise (i : nat) (r : EventRecord) :
  keepEvent (mkIndexedEvent [i] r) = negb (noise_spec (section r) (method r)).
Proof.
  unfold keepEvent, noise_spec, includes. simpl.
  destruct (section r =? "system"), (section r =? "balances"),
    (section r =? "treasury"), (method r =? "Deposit"),
    (section r =? "parasInclusion"), (section r =? "inclusion"),
    (method r =? "CandidateBacked"), (method r =? "CandidateIncluded");
    reflexivity.
Qed.

Lemma filter_map_swap {A B : Type} (f : A -> B) (p : B -> bool) (l : list A) :
  filter p (map f l) = map f (filter (fun a => p (f a)) l).
Proof.
  induction l as [|a l IH]; simpl; [reflexivity|].
  destruct (p (f a)); simpl; now rewrite IH.
Qed.

Lemma reducer_merge (acc : list IndexedEvent) (i : nat) (r : EventRecord) :
  reducer acc (mkIndexedEvent [i] r) = merge_spec acc (i, r).
Proof.
  unfold reducer. simpl.
  induction acc as [|c rest IH]; simpl.
  - reflexivity.
  - unfold sameKind at 1 3. simpl.
    rewrite (String.eqb_sym (section r)), (String.eqb_sym (method r)).
    destruct ((section (record c) =? section r)
              && (method (record c) =? method r)); [reflexivity|].
    destruct (find (sameKind (mkIndexedEvent [i] r)) rest) eqn:Hfind.
    + now rewrite <- IH.
    + rewrite <- IH. reflexivity.
Qed.

Lemma fold_reducer_merge (l : list (nat * EventRecord)) (acc : list IndexedEvent) :
  fold_left reducer (map (fun ie => mkIndexedEvent [fst ie] (snd ie)) l) acc =
  fold_left merge_spec l acc.
Proof.
  revert acc. induction l as [|[i r] l IH]; intro acc; simpl.
  - reflexivity.
  - now rewrite reducer_merge, IH.
Qed.

Lemma newEvents_dedupe_spec (records : list EventRecord) :
  newEvents records = dedupe_spec records.
Proof.
  unfold newEvents, dedupe_spec, mapIndex, paired_spec.
  rewrite mapIndexFrom_paired, filter_map_swap, fold_reducer_merge.
  do 2 f_equal. apply filter_ext. intros [i r]. apply keepEvent_noise.
Qed.

(** C2. The pipeline of the source (index, filter, reduce, reverse) is the
    function the design document describes; on the batch
    [(A,m), (A,m), (B,n)] it gives [(B,n,[2]), (A,m,[0,1])]; equal batches
    give equal results. *)
Theorem dedupe_pipeline :
  (forall records, newEvents records = dedupe_spec records) /\
  newEvents [mkEventRecord "A" "m" []; mkEventRecord "A" "m" [];
             mkEventRecord "B" "n" []]
  = [mkIndexedEvent [2] (mkEventRecord "B" "n" []);
     mkIndexedEvent [0; 1] (mkEventRecord "A" "m" [])] /\
  (forall b1 b2, b1 = b2 -> newEvents b1 = newEvents b2).
Proof.
  split; [exact newEvents_dedupe_spec|].
  split; [reflexivity|].
  intros b1 b2 Heq. now rewrite Heq.
Qed.

Lemma dedupe_pipeline_witness :
  newEvents [mkEventRecord "system" "ExtrinsicSuccess" [];
             mkEventRecord "balances" "Transfer" ["0x01"]]
  = newEvents [mkEventRecord "system" "ExtrinsicSuccess" [];
               mkEventRecord "balances" "Transfer" ["0x01"]].
Proof.
  apply (proj2 (proj2 dedupe_pipeline)). reflexivity.
Defined.

End EventsTheory.

(** ** The stored event log *)
Section LogTheory.
Import Events.

Variable eventHash : list IndexedEvent -> string.

Lemma differs_true (a : string) (b : option string) :
  differs a b = true <-> b <> Some a.
Proof.
  destruct b as [b'|]; simpl.
  - rewrite negb_true_iff, String.eqb_neq. split; congruence.
  - split; [discriminate|reflexivity].
Qed.

Lemma differs_false (a : string) (b : option string) :
  differs a b = false <-> b = Some a.
Proof.
  destruct b as [b'|]; simpl.
  - rewrite negb_false_iff, String.eqb_eq. split; congruence.
  - split; discriminate.
Qed.

Lemma otherHeight_true (H : N) (p : KeyedEvent) :
  otherHeight H p = true <-> blockNumber p <> Some H.
Proof.
  unfold otherHeight. destruct (blockNumber p) as [n|].
  - rewrite negb_true_iff, N.eqb_neq. split; congruence.
  - split; [discriminate|reflexivity].
Qed.

Lemma length_zero_nil {A : Type} (l : list A) :
  (List.length l =? 0)%nat = false <-> l <> [].
Proof.
  destruct l; simpl; split; congruence.
Qed.

Lemma in_firstn {A : Type} (n : nat) (l : list A) (x : A) :
  In x (firstn n l) -> In x l.
Proof.
  intro Hin. rewrite <- (firstn_skipn n l). apply in_or_app. now left.
Qed.

(** The branch that stores a new block, under the three conditions. *)
Lemma onRecords_new_block (d : Delivery) (st : Ingestion) (header : Header) :
  newEvents (records d) <> [] ->
  event (prevHashes st) <> Some (eventHash (newEvents (records d))) ->
  getHeader d = Some header ->
  block (prevHashes st) <> Some (hash header) ->
  onRecords eventHash d st =
  {| systemEventsAtom :=
       storeBlock (List.length (records d)) (number header) (hash header)
         (newEvents (records d)) (systemEventsAtom st);
     prevHashes := {| block := Some (hash header);
                      event := Some (eventHash (newEvents (records d))) |} |}.
Proof.
  intros Hne Hev Hhd Hbl. unfold onRecords.
  apply differs_true in Hev. apply differs_true in Hbl.
  apply length_zero_nil in Hne.
  rewrite Hev, Hne, Hhd. cbn [andb negb block]. now rewrite Hbl.
Qed.

Lemma storeBlock_bounded n H h ne s :
  (List.length (events (storeBlock n H h ne s)) <= MAX_EVENTS)%nat.
Proof.
  unfold storeBlock. cbn [events]. apply firstn_le_length.
Qed.

(** Every run of the callback keeps the log within [MAX_EVENTS]. *)
Lemma onRecords_bounded (d : Delivery) (st : Ingestion) :
  (List.length (events (systemEventsAtom st)) <= MAX_EVENTS)%nat ->
  (List.length (events (systemEventsAtom (onRecords eventHash d st)))
   <= MAX_EVENTS)%nat.
Proof.
  intro Hst. unfold onRecords.
  destruct (differs _ _ && _); [|exact Hst].
  destruct (getHeader d) as [header|]; [|exact Hst].
  destruct (differs (hash header) _); [|exact Hst].
  apply storeBlock_bounded.
Qed.

Lemma onAllRecords_bounded (ds : list Delivery) (st : Ingestion) :
  (List.length (events (systemEventsAtom st)) <= MAX_EVENTS)%nat ->
  (List.length (events (systemEventsAtom (onAllRecords eventHash ds st)))
   <= MAX_EVENTS)%nat.
Proof.
  revert st. unfold onAllRecords.
  induction ds as [|d ds IH]; intros st Hst; simpl; [exact Hst|].
  apply IH, onRecords_bounded, Hst.
Qed.

(** C3. A delivery with a non-empty candidate list, a new content hash and
    a new block hash stores the new keyed events followed by the stored
    ones of another block number, cut to 75; the log never holds more than
    75 entries, from the initial state on; and every stored entry at the
    new height is one of the new ones. *)
Theorem new_block_replaces_log (d : Delivery) (st : Ingestion) (header : Header) :
  newEvents (records d) <> [] ->
  event (prevHashes st) <> Some (eventHash (newEvents (records d))) ->
  getHeader d = Some header ->
  block (prevHashes st) <> Some (hash header) ->
  let built := map (toKeyed (number header) (hash header)) (newEvents (records d)) in
  let kept := filter (otherHeight (number header)) (events (systemEventsAtom st)) in
  let stored := events (systemEventsAtom (onRecords eventHash d st)) in
  stored = firstn 75 (built ++ kept) /\
  (forall p, In p kept <->
             In p (events (systemEventsAtom st)) /\
             blockNumber p <> Some (number header)) /\
  (List.length stored <= 75)%nat /\
  (forall ds, (List.length (events (systemEventsAtom
                 (onAllRecords eventHash ds initial))) <= 75)%nat) /\
  (forall p, In p stored -> blockNumber p = Some (number header) -> In p built).
Proof.
  intros Hne Hev Hhd Hbl built kept stored.
  assert (Hstored : stored = firstn 75 (built ++ kept)).
  { unfold stored. rewrite (onRecords_new_block d st header Hne Hev Hhd Hbl).
    reflexivity. }
  split; [exact Hstored|].
  split.
  { intro p. unfold kept. rewrite filter_In, otherHeight_true. tauto. }
  split.
  { rewrite Hstored. apply firstn_le_length. }
  split.
  { intro ds. apply (onAllRecords_bounded ds initial). apply Nat.le_0_l. }
  intros p Hin Hnum. rewrite Hstored in Hin.
  apply in_firstn in Hin. apply in_app_or in Hin.
  destruct Hin as [Hin|Hin]; [exact Hin|].
  unfold kept in Hin. apply filter_In in Hin. destruct Hin as [_ Hother].
  apply otherHeight_true in Hother. contradiction.
Qed.

End LogTheory.

Section LogExamples.
Import Events Sample.

Lemma new_block_replaces_log_witness :
  events (systemEventsAtom
            (onRecords kindsDigest forked7 (onRecords kindsDigest first7 initial)))
  = [toKeyed 7 "0xbb" (mkIndexedEvent [0] instantiated)].
Proof.
  refine (proj1 (new_block_replaces_log kindsDigest forked7
                   (onRecords kindsDigest first7 initial) fork7 _ _ _ _)).
  - vm_compute. discriminate.
  - vm_compute. discriminate.
  - reflexivity.
  - vm_compute. discriminate.
Defined.

End LogExamples.

(** ** Deliveries that store no new block *)
Section SkipTheory.
Import Events.

Variable eventHash : list IndexedEvent -> string.

(** The [else] branch: an empty candidate list or an unchanged content
    hash. *)
Lemma onRecords_count_only (d : Delivery) (st : Ingestion) :
  newEvents (records d) = [] \/
  event (prevHashes st) = Some (eventHash (newEvents (records d))) ->
  onRecords eventHash d st =
  {| systemEventsAtom :=
       {| eventCount := List.length (records d);
          events := events (systemEventsAtom st) |};
     prevHashes := prevHashes st |}.
Proof.
  intros [Hnil|Hsame]; unfold onRecords.
  - rewrite Hnil. cbn [List.length Nat.eqb negb]. now rewrite andb_false_r.
  - apply differs_false in Hsame. now rewrite Hsame.
Qed.

(** The inner test fails: same block hash as the tracker. *)
Lemma onRecords_same_block (d : Delivery) (st : Ingestion) (header : Header) :
  newEvents (records d) <> [] ->
  event (prevHashes st) <> Some (eventHash (newEvents (records d))) ->
  getHeader d = Some header ->
  block (prevHashes st) = Some (hash header) ->
  onRecords eventHash d st =
  {| systemEventsAtom := systemEventsAtom st;
     prevHashes := {| block := block (prevHashes st);
                      event := Some (eventHash (newEvents (records d))) |} |}.
Proof.
  intros Hne Hev Hhd Hbl. unfold onRecords.
  apply differs_true in Hev. apply length_zero_nil in Hne.
  apply differs_false in Hbl.
  rewrite Hev, Hne, Hhd. cbn [andb negb block]. now rewrite Hbl.
Qed.

(** C4, amended. When the candidate list is empty or its hash is the stored
    one, only [eventCount] changes, to the size of the raw batch: the list
    and both trackers stay. When the list is non-empty with a new hash but
    the fetched block hash is the stored one, the atom stays whole
    ([eventCount] too) and so does the block-hash tracker, while the
    event-hash tracker takes the new hash. *)
Theorem delivery_without_new_block (d : Delivery) (st : Ingestion) :
  (newEvents (records d) = [] \/
   event (prevHashes st) = Some (eventHash (newEvents (records d))) ->
   eventCount (systemEventsAtom (onRecords eventHash d st))
     = List.length (records d) /\
   events (systemEventsAtom (onRecords eventHash d st))
     = events (systemEventsAtom st) /\
   prevHashes (onRecords eventHash d st) = prevHashes st) /\
  (forall header,
     newEvents (records d) <> [] ->
     event (prevHashes st) <> Some (eventHash (newEvents (records d))) ->
     getHeader d = Some header ->
     block (prevHashes st) = Some (hash header) ->
     systemEventsAtom (onRecords eventHash d st) = systemEventsAtom st /\
     block (prevHashes (onRecords eventHash d st)) = block (prevHashes st) /\
     event (prevHashes (onRecords eventHash d st))
       = Some (eventHash (newEvents (records d)))).
Proof.
  split.
  - intro Hcase. rewrite (onRecords_count_only d st Hcase). auto.
  - intros header Hne Hev Hhd Hbl.
    rewrite (onRecords_same_block d st header Hne Hev Hhd Hbl). auto.
Qed.

End SkipTheory.

Section SkipExamples.
Import Events Sample.

Lemma delivery_without_new_block_witness :
  (eventCount (systemEventsAtom
                 (onRecords kindsDigest quiet8 (onRecords kindsDigest first7 initial)))
   = 1%nat /\
   events (systemEventsAtom
             (onRecords kindsDigest quiet8 (onRecords kindsDigest first7 initial)))
   = events (systemEventsAtom (onRecords kindsDigest first7 initial)) /\
   prevHashes (onRecords kindsDigest quiet8 (onRecords kindsDigest first7 initial))
   = prevHashes (onRecords kindsDigest first7 initial)) /\
  (systemEventsAtom
     (onRecords kindsDigest again7 (onRecords kindsDigest first7 initial))
   = systemEventsAtom (onRecords kindsDigest first7 initial) /\
   block (prevHashes
            (onRecords kindsDigest again7 (onRecords kindsDigest first7 initial)))
   = Some "0xaa" /\
   event (prevHashes
            (onRecords kindsDigest again7 (onRecords kindsDigest first7 initial)))
   = Some "contracts.Instantiated#2;balances.Transfer#1").
Proof.
  split.
  - apply (proj1 (delivery_without_new_block kindsDigest quiet8
                    (onRecords kindsDigest first7 initial))).
    left. reflexivity.
  - apply (proj2 (delivery_without_new_block kindsDigest again7
                    (onRecords kindsDigest first7 initial)) block7).
    + vm_compute. discriminate.
    + vm_compute. discriminate.
    + reflexivity.
    + reflexivity.
Defined.

(** C4 as stated fails on a second delivery for the stored block: with the
    fetched block hash equal to the tracker, [eventCount] is not set to the
    size of the batch and the event-hash tracker is overwritten. *)
Lemma duplicate_block_counterexample :
  getHeader again7 = Some block7 /\
  block (prevHashes (onRecords kindsDigest first7 initial)) = Some (hash block7) /\
  eventCount (systemEventsAtom
                (onRecords kindsDigest again7 (onRecords kindsDigest first7 initial)))
    <> List.length (records again7) /\
  event (prevHashes
           (onRecords kindsDigest again7 (onRecords kindsDigest first7 initial)))
    <> event (prevHashes (onRecords kindsDigest first7 initial)).
Proof.
  repeat split; vm_compute; discriminate.
Qed.

End SkipExamples.

(** ** Submission *)
Section TxTheory.
Import Tx.

Variable hashToHuman : string -> AnyJson.
Variable eventsToHuman : SubmittableResult -> AnyJson.

Local Abbreviation callback := (callback hashToHuman eventsToHuman).
Local Abbreviation notify := (notify hashToHuman eventsToHuman).
Local Abbreviation signAndSend := (signAndSend hashToHuman eventsToHuman).

Lemma scanError_app (es : list EventRecord) (e : EventRecord) :
  scanError (es ++ [e]) =
  if isExtrinsicFailed e then nth_error (data e) 0 else scanError es.
Proof.
  unfold scanError. now rewrite fold_left_app.
Qed.

Lemma scanError_lastFailed (es : list EventRecord) :
  scanError es =
  match lastFailed es with
  | Some e => nth_error (data e) 0
  | None => None
  end.
Proof.
  unfold lastFailed.
  induction es as [|e es IH] using rev_ind; [reflexivity|].
  rewrite scanError_app, rev_app_distr. simpl.
  destruct (isExtrinsicFailed e); [reflexivity|exact IH].
Qed.

Lemma lastFailed_some (es : list EventRecord) :
  existsb isExtrinsicFailed es = true ->
  exists e, lastFailed es = Some e /\ In e es /\ isExtrinsicFailed e = true.
Proof.
  intro Hex. unfold lastFailed.
  destruct (find isExtrinsicFailed (rev es)) as [e|] eqn:Hfind.
  - exists e. apply find_some in Hfind. destruct Hfind as [Hin Hf].
    rewrite <- in_rev in Hin. auto.
  - apply existsb_exists in Hex. destruct Hex as [x [Hin Hf]].
    rewrite in_rev in Hin.
    now rewrite (find_none _ _ Hfind x Hin) in Hf.
Qed.

Lemma lastFailed_none (es : list EventRecord) :
  existsb isExtrinsicFailed es = false -> lastFailed es = None.
Proof.
  intro Hex. unfold lastFailed.
  destruct (find isExtrinsicFailed (rev es)) as [e|] eqn:Hfind; [|reflexivity].
  apply find_some in Hfind. destruct Hfind as [Hin Hf].
  rewrite <- in_rev in Hin.
  assert (Hyes : existsb isExtrinsicFailed es = true)
    by (apply existsb_exists; eauto).
  congruence.
Qed.

(** Notifications that are not terminal leave the submission as it is. *)
Lemma callback_not_terminal (r : SubmittableResult) (s : Submission) :
  terminal r = false -> callback r s = s.
Proof.
  unfold terminal, Tx.callback. destruct (status r); intro H;
    try reflexivity; discriminate.
Qed.

Lemma notify_skip (pre rest : list SubmittableResult) (s : Submission) :
  forallb (fun x => negb (terminal x)) pre = true ->
  notify (pre ++ rest) s = notify rest s.
Proof.
  induction pre as [|x pre IH]; simpl; intro Hpre; [reflexivity|].
  apply andb_true_iff in Hpre. destruct Hpre as [Hx Hpre].
  apply negb_true_iff in Hx.
  destruct (unsubCalls s =? 0)%nat eqn:Hsub.
  - rewrite (callback_not_terminal x s Hx). now apply IH.
  - destruct rest; simpl; [reflexivity|now rewrite Hsub].
Qed.

(** After [unsub] the subscription hands nothing more to the callback. *)
Lemma notify_unsubscribed (rest : list SubmittableResult) (s : Submission) :
  unsubCalls s <> 0%nat -> notify rest s = s.
Proof.
  intro Hsub. destruct rest; simpl; [reflexivity|].
  apply Nat.eqb_neq in Hsub. now rewrite Hsub.
Qed.

Lemma signAndSend_first_terminal (pre post : list SubmittableResult)
    (r : SubmittableResult) :
  forallb (fun x => negb (terminal x)) pre = true ->
  terminal r = true ->
  signAndSend (Resolves tt) (pre ++ r :: post) = callback r subscribed.
Proof.
  intros Hpre Hr. unfold Tx.signAndSend.
  change (newPromise (asyncCall (executorBody (Resolves tt)))) with subscribed.
  rewrite (notify_skip pre (r :: post) subscribed Hpre).
  simpl. apply notify_unsubscribed.
  unfold terminal in Hr. unfold Tx.callback.
  destruct (status r); try discriminate.
  destruct (scanError (events r)); simpl; discriminate.
Qed.

(** C1. Let [r] be the first [InBlock] or [Invalid] notification of a
    submission whose subscription was made. [unsub] is called once, whatever
    follows. For [InBlock]: with a [system.ExtrinsicFailed] event in the list
    (each such event carrying its payload) the promise is rejected with the
    payload of the failure event, the last one if there are several; with
    none it is fulfilled with the block hash and the humanized events. For
    [Invalid] it is rejected with ['Invalid transaction']. *)
Theorem signAndSend_terminal (pre post : list SubmittableResult)
    (r : SubmittableResult) :
  forallb (fun x => negb (terminal x)) pre = true ->
  terminal r = true ->
  let s := signAndSend (Resolves tt) (pre ++ r :: post) in
  unsubCalls s = 1%nat /\
  (forall h, status r = InBlock h ->
     existsb isExtrinsicFailed (events r) = true ->
     (forall e, In e (events r) -> isExtrinsicFailed e = true -> data e <> []) ->
     exists e payload,
       lastFailed (events r) = Some e /\ In e (events r) /\
       section e = "system" /\ method e = "ExtrinsicFailed" /\
       nth_error (data e) 0 = Some payload /\
       promise s = Rejected (OfCodec payload)) /\
  (forall h, status r = InBlock h ->
     existsb isExtrinsicFailed (events r) = false ->
     promise s = Fulfilled {| hash := hashToHuman h;
                              humanEvents := eventsToHuman r |}) /\
  (status r = Invalid ->
     promise s = Rejected (OfString "Invalid transaction")).
Proof.
  intros Hpre Hr s. unfold s.
  rewrite (signAndSend_first_terminal pre post r Hpre Hr).
  unfold Tx.callback. split; [|split; [|split]].
  - unfold terminal in Hr. destruct (status r); try discriminate.
    + destruct (scanError (events r)); reflexivity.
    + reflexivity.
  - intros h Hst Hex Hdata. rewrite Hst.
    destruct (lastFailed_some (events r) Hex) as [e [Hlast [Hin Hf]]].
    rewrite scanError_lastFailed, Hlast.
    destruct (data e) as [|payload more] eqn:Hd.
    + exfalso. now apply (Hdata e Hin Hf).
    + exists e, payload. unfold isExtrinsicFailed in Hf.
      apply andb_true_iff in Hf. destruct Hf as [Hs Hm].
      apply String.eqb_eq in Hs. apply String.eqb_eq in Hm.
      rewrite Hd. simpl. auto 10.
  - intros h Hst Hex. rewrite Hst.
    now rewrite scanError_lastFailed, (lastFailed_none (events r) Hex).
  - intro Hst. now rewrite Hst.
Qed.

(** Had the executor been a plain function, a throw of its body would have
    rejected the promise. *)
Lemma newPromise_sync_throw (e : string) :
  promise (newPromise (executorBody (Rejects e))) = Rejected (External e).
Proof.
  reflexivity.
Qed.

(** C9 fails on the code: when the awaited subscription rejects, the
    promise that [signAndSend] returned is not rejected with the error; it
    stays pending whatever follows, and the error settles the promise of the
    [async] executor only. *)
Theorem subscription_failure_not_surfaced (e : string)
    (notifications : list SubmittableResult) :
  promise (signAndSend (Rejects e) notifications) = Pending /\
  promise (signAndSend (Rejects e) notifications) <> Rejected (External e) /\
  executor (signAndSend (Rejects e) notifications) = Rejected (External e) /\
  unsubCalls (signAndSend (Rejects e) notifications) = 0%nat.
Proof.
  unfold Tx.signAndSend, newPromise, asyncCall, executorBody. simpl.
  repeat split. discriminate.
Qed.

End TxTheory.

Section TxExamples.
Import Tx Sample.

Lemma signAndSend_terminal_witness :
  unsubCalls (signAndSend hashText methodsText (Resolves tt)
                [pendingResult Ready; pendingResult Broadcast; failedInBlock;
                 pendingResult (Finalized "0x11")]) = 1%nat /\
  promise (signAndSend hashText methodsText (Resolves tt)
             [pendingResult Ready; pendingResult Broadcast; failedInBlock;
              pendingResult (Finalized "0x11")])
  = Rejected (OfCodec "0xdead") /\
  promise (signAndSend hashText methodsText (Resolves tt)
             [pendingResult Ready; goodInBlock; goodInBlock])
  = Fulfilled {| hash := "0x22"; humanEvents := "Transfer,ExtrinsicSuccess" |} /\
  promise (signAndSend hashText methodsText (Resolves tt)
             [pendingResult Ready; pendingResult Invalid])
  = Rejected (OfString "Invalid transaction").
Proof.
  split; [|split; [|split]].
  - apply (signAndSend_terminal hashText methodsText
             [pendingResult Ready; pendingResult Broadcast] 
             [pendingResult (Finalized "0x11")] failedInBlock);
      reflexivity.
  - destruct (signAndSend_terminal hashText methodsText
                [pendingResult Ready; pendingResult Broadcast]
                [pendingResult (Finalized "0x11")] failedInBlock
                eq_refl eq_refl) as [_ [Hfail _]].
    destruct (Hfail "0x11" eq_refl eq_refl) as [e [payload Hrej]].
    + intros e [He|[He|[]]] Hf; subst e; [discriminate Hf|discriminate].
    + destruct Hrej as [Hlast [_ [_ [_ [Hnth Hp]]]]].
      vm_compute in Hlast. injection Hlast as <-.
      vm_compute in Hnth. injection Hnth as <-.
      exact Hp.
  - apply (proj1 (proj2 (proj2
             (signAndSend_terminal hashText methodsText
                [pendingResult Ready] [goodInBlock] goodInBlock
                eq_refl eq_refl))) "0x22"); reflexivity.
  - apply (proj2 (proj2 (proj2
             (signAndSend_terminal hashText methodsText
                [pendingResult Ready] [] (pendingResult Invalid)
                eq_refl eq_refl)))).
    reflexivity.
Defined.

End TxExamples.

(** ** The connection *)
Section ConnTheory.
Import Conn.

Lemma status_eqb_eq (a b : ApiConnectionStatus) :
  status_eqb a b = true <-> a = b.
Proof.
  destruct a, b; simpl; split; congruence.
Qed.

Lemma onTimeout_connected (a : Atoms) :
  rpcApiStatusAtom a = connected -> onTimeout a = a.
Proof.
  intro H. unfold onTimeout. now rewrite H.
Qed.

Lemma onTimeout_otherwise (a : Atoms) :
  rpcApiStatusAtom a <> connected ->
  onTimeout a =
  {| rpcEndpointAtom := "";
     rpcEndpointErrorAtom := "RPC Endpoint is unreachable";
     rpcApiInstanceAtom := None;
     rpcApiStatusAtom := error |}.
Proof.
  intro H. unfold onTimeout.
  destruct (status_eqb (rpcApiStatusAtom a) connected) eqn:E; [|reflexivity].
  apply status_eqb_eq in E. contradiction.
Qed.

Lemma onTimeout_twice (a : Atoms) : onTimeout (onTimeout a) = onTimeout a.
Proof.
  unfold onTimeout.
  destruct (rpcApiStatusAtom a) eqn:E; simpl; try reflexivity.
  now rewrite E.
Qed.

(** Any number of timers, at least one, act as one. *)
Lemma timers_fire_as_one (due : list N) (a : Atoms) :
  due <> [] -> fold_left (fun a _ => onTimeout a) due a = onTimeout a.
Proof.
  revert a. induction due as [|d due IH]; intros a Hne; [contradiction|].
  simpl. destruct due as [|d' due'].
  - reflexivity.
  - rewrite IH by discriminate. apply onTimeout_twice.
Qed.

Lemma advanceTo_fires (t due : N) (w : World) :
  In due (timers w) -> (due <= t)%N ->
  atoms (advanceTo t w) = onTimeout (atoms w).
Proof.
  intros Hin Hle. unfold advanceTo. cbn [atoms].
  apply timers_fire_as_one. intro Hnil.
  assert (Hf : In due (filter (fun d => (d <=? t)%N) (timers w))).
  { apply filter_In. split; [exact Hin|]. now apply N.leb_le. }
  rewrite Hnil in Hf. contradiction.
Qed.

Lemma advanceTo_quiet (t : N) (w : World) :
  (forall due, In due (timers w) -> (t < due)%N) ->
  atoms (advanceTo t w) = atoms w.
Proof.
  intro Hall. unfold advanceTo. cbn [atoms].
  replace (filter (fun d => (d <=? t)%N) (timers w)) with (@nil N); [reflexivity|].
  symmetry. induction (timers w) as [|d l IH]; [reflexivity|].
  simpl. assert (Hd : (t < d)%N) by (apply Hall; now left).
  apply N.leb_gt in Hd. rewrite Hd. apply IH.
  intros due Hin. apply Hall. now right.
Qed.

(** Nothing in the hook takes a registered timer away before it is due. *)
Lemma deliver_keeps_timer (due : N) (ts : N * Signal) (w : World) :
  In due (timers w) -> (fst ts < due)%N -> In due (timers (deliver ts w)).
Proof.
  intros Hin Hlt. unfold deliver.
  assert (Hadv : In due (timers (advanceTo (fst ts) w))).
  { unfold advanceTo. cbn [timers]. apply filter_In. split; [exact Hin|].
    apply negb_true_iff. now apply N.leb_gt. }
  destruct (snd ts); simpl; try exact Hadv.
  destruct (rpcEndpointAtom _ =? ""); [exact Hadv|].
  apply in_or_app. now left.
Qed.

Lemma run_keeps_timer (due : N) (trace : list (N * Signal)) (w : World) :
  In due (timers w) ->
  Forall (fun ts => (fst ts < due)%N) trace ->
  In due (timers (run trace w)).
Proof.
  revert w. unfold run.
  induction trace as [|ts trace IH]; intros w Hin Hall; simpl; [exact Hin|].
  inversion Hall as [|? ? Hts Hrest]; subst.
  apply IH; [|exact Hrest]. now apply deliver_keeps_timer.
Qed.

(** C5, amended. The effect run with an endpoint sets [connecting] and
    registers a timer due 10000 ms later. Left alone, the atoms do not change
    before that time. Whatever signals arrive before it, the timer is still
    registered at the due time, and firing it then leaves the atoms alone
    only when the status is [connected]: from every other status
    ([connecting], but also [disconnected] and [error]) it sets [error],
    clears the endpoint and the API instance, and sets the message
    ['RPC Endpoint is unreachable']. *)
Theorem liveness_timer (w : World) (trace : list (N * Signal)) :
  rpcEndpointAtom (atoms w) <> "" ->
  Forall (fun ts => (fst ts < now w + 10000)%N) trace ->
  let due := (now w + 10000)%N in
  let entered := effect w in
  let before := run trace entered in
  rpcApiStatusAtom (atoms entered) = connecting /\
  (forall t, (t < due)%N ->
     (forall d, In d (timers w) -> (t < d)%N) ->
     atoms (advanceTo t entered) = atoms entered) /\
  In due (timers before) /\
  (rpcApiStatusAtom (atoms before) = connected ->
     atoms (advanceTo due before) = atoms before) /\
  (rpcApiStatusAtom (atoms before) <> connected ->
     atoms (advanceTo due before) =
     {| rpcEndpointAtom := "";
        rpcEndpointErrorAtom := "RPC Endpoint is unreachable";
        rpcApiInstanceAtom := None;
        rpcApiStatusAtom := error |}).
Proof.
  intros Hurl Htrace due entered before.
  apply String.eqb_neq in Hurl.
  assert (Hreg : In due (timers entered)).
  { unfold entered, effect. cbn [timers]. rewrite Hurl.
    apply in_or_app. right. now left. }
  assert (Hpending : In due (timers before)).
  { unfold before. now apply run_keeps_timer. }
  split.
  { unfold entered, effect, effectAtoms. cbn [atoms]. now rewrite Hurl. }
  split.
  { intros t Ht Hstale. apply advanceTo_quiet.
    intros d Hd. unfold entered, effect in Hd. cbn [timers] in Hd.
    rewrite Hurl in Hd. apply in_app_or in Hd.
    destruct Hd as [Hd|[Hd|[]]]; [now apply Hstale|].
    now subst d. }
  split; [exact Hpending|].
  split.
  - intro Hc. rewrite (advanceTo_fires due due before Hpending (N.le_refl _)).
    now apply onTimeout_connected.
  - intro Hc. rewrite (advanceTo_fires due due before Hpending (N.le_refl _)).
    now apply onTimeout_otherwise.
Qed.

(** The handler of ['disconnected'] keeps [error]; the handler of
    ['connected'] sets [connected] from every status. *)
Lemma error_kept_on_disconnect (a : Atoms) :
  rpcApiStatusAtom a = error ->
  rpcApiStatusAtom (apiOnDisconnected a) = error.
Proof.
  intro H. unfold apiOnDisconnected. simpl. now rewrite H.
Qed.

Lemma connected_from_any (a : Atoms) :
  rpcApiStatusAtom (apiOnConnected a) = connected.
Proof.
  reflexivity.
Qed.

End ConnTheory.

Section ConnExamples.
Import Conn Sample.

Lemma liveness_timer_witness :
  atoms (advanceTo 10000 (run [] (effect attempt)))
  = {| rpcEndpointAtom := "";
       rpcEndpointErrorAtom := "RPC Endpoint is unreachable";
       rpcApiInstanceAtom := None;
       rpcApiStatusAtom := error |} /\
  atoms (advanceTo 10000 (run readyInTime (effect attempt)))
  = atoms (run readyInTime (effect attempt)).
Proof.
  split.
  - apply (liveness_timer attempt []).
    + discriminate.
    + constructor.
    + discriminate.
  - apply (liveness_timer attempt readyInTime).
    + discriminate.
    + repeat constructor.
    + reflexivity.
Defined.

(** C5 as stated fails: the status has left [connecting] for
    [disconnected] when the timer fires, and the timer still sets [error]
    and the message. *)
Lemma timer_after_disconnect_counterexample :
  rpcApiStatusAtom (atoms (run dropped (effect attempt))) = disconnected /\
  rpcEndpointErrorAtom (atoms (run dropped (effect attempt))) = "" /\
  rpcApiStatusAtom (atoms (advanceTo 10000 (run dropped (effect attempt)))) = error /\
  rpcEndpointErrorAtom (atoms (advanceTo 10000 (run dropped (effect attempt))))
  = "RPC Endpoint is unreachable" /\
  atoms (advanceTo 10000 (run dropped (effect attempt)))
  <> atoms (run dropped (effect attempt)).
Proof.
  repeat split. vm_compute. discriminate.
Qed.

(** C6 fails on the code. The node is unreachable at first: after three
    seconds the transport reports an error, or the API reports that it is
    disconnected, or both; the endpoint is cleared and the effect sets
    [disconnected]. The timer of the attempt fires at 10 s and sets [error];
    the endpoint is empty already, so no effect follows, no timer is left
    and the status stays [error] however long nothing happens. The
    provider, which nothing has disconnected, reaches the node at 12 s: the
    handler of ['connected'] moves the status from [error] to [connected]
    (it does so from every state of the hook), where the handler of
    ['disconnected'] keeps [error]. *)
Theorem connected_overrides_error :
  Forall (fun early =>
            let stalled := unreachable early in
            atoms stalled = timedOut /\
            timers stalled = [] /\
            (forall t, atoms (elapse t stalled) = atoms stalled) /\
            rpcApiStatusAtom (atoms (react (12000%N, ApiConnected) stalled))
            = connected /\
            rpcApiStatusAtom (atoms (react (12000%N, ApiDisconnected) stalled))
            = error)
         [[(3000%N, WsError false)];
          [(3000%N, ApiDisconnected)];
          [(3000%N, WsError false); (3000%N, ApiDisconnected)]] /\
  (forall (w : World) (t : N),
     rpcApiStatusAtom (atoms (react (t, ApiConnected) w)) = connected).
Proof.
  split.
  - repeat constructor.
  - intros w t. unfold react, committed. cbn [snd handle onAtoms atoms].
    unfold apiOnConnected at 1. cbn [rpcEndpointAtom].
    rewrite String.eqb_refl. reflexivity.
Qed.

End ConnExamples.

(** ** Polling *)
Section CheckUntilTheory.
Import Barrier.
Local Open Scope Z_scope.

Variable T : Type.
Variable truthy : T -> bool.

Local Abbreviation loop := (loop T truthy).
Local Abbreviation checkUntil := (checkUntil T truthy).
Local Abbreviation falsyBefore := (falsyBefore T truthy).

Lemma falsyBefore_0 (calls : list (Z * Awaited T)) : falsyBefore calls 0.
Proof.
  intros j Hj. lia.
Qed.

Lemma falsyBefore_S (took : Z) (v : T) (rest : list (Z * Awaited T)) (k : nat) :
  truthy v = false -> falsyBefore rest k ->
  falsyBefore ((took, Resolves v) :: rest) (S k).
Proof.
  intros Hv Hrest [|j] Hj; simpl.
  - now exists took, v.
  - apply Hrest. lia.
Qed.

(** Every run has called [async_fn] at least once more than before. *)
Lemma loop_evaluates (t0 timeout : Z) (calls : list (Z * Awaited T)) :
  forall now n, (S n <= evaluations (loop t0 timeout calls now n))%nat.
Proof.
  induction calls as [|[took [v|e]] rest IH]; intros now n; simpl; try lia.
  destruct (truthy v); simpl; [lia|].
  destruct (now + took - t0 >=? timeout); simpl; [lia|].
  specialize (IH (sleep POLL_MS (now + took)) (S n)). lia.
Qed.

(** A run that returned: the call that decided it resolved truthy, those
    before it falsy. *)
Lemma loop_returned (t0 timeout : Z) (calls : list (Z * Awaited T)) :
  forall now n,
    outcome (loop t0 timeout calls now n) = Returned ->
    exists k took v,
      evaluations (loop t0 timeout calls now n) = S (n + k) /\
      nth_error calls k = Some (took, Resolves v) /\ truthy v = true /\
      falsyBefore calls k /\
      clock (loop t0 timeout calls now n) = readingAfter T calls k now.
Proof.
  induction calls as [|[took [v|e]] rest IH]; intros now n; simpl;
    try discriminate.
  destruct (truthy v) eqn:Hv; simpl.
  - intros _. exists 0%nat, took, v. rewrite Nat.add_0_r.
    repeat split; auto using falsyBefore_0.
  - destruct (now + took - t0 >=? timeout); simpl; [discriminate|].
    intro Hret. destruct (IH _ _ Hret) as [k [tk [vk [He [Hn [Ht [Hf Hc]]]]]]].
    exists (S k), tk, vk. rewrite He, Hc. simpl.
    repeat split; auto using falsyBefore_S; try lia.
Qed.

(** A run that threw the timeout error: the call before the throw resolved
    falsy, like those before it, and the reading after it was at or past
    the deadline. *)
Lemma loop_timeout (t0 timeout : Z) (calls : list (Z * Awaited T)) :
  forall now n,
    outcome (loop t0 timeout calls now n) = Threw (NewError "timeout") ->
    exists k,
      evaluations (loop t0 timeout calls now n) = S (n + k) /\
      falsyBefore calls (S k) /\
      clock (loop t0 timeout calls now n) = readingAfter T calls k now /\
      clock (loop t0 timeout calls now n) - t0 >= timeout.
Proof.
  induction calls as [|[took [v|e]] rest IH]; intros now n; simpl;
    try discriminate.
  destruct (truthy v) eqn:Hv; simpl; [discriminate|].
  destruct (now + took - t0 >=? timeout) eqn:Hd; simpl.
  - intros _. exists 0%nat. rewrite Nat.add_0_r.
    repeat split; auto using falsyBefore_S, falsyBefore_0.
    apply Z.geb_le in Hd. lia.
  - intro Hthrow. destruct (IH _ _ Hthrow) as [k [He [Hf [Hc Hlate]]]].
    exists (S k). rewrite He, Hc in *. simpl.
    repeat split; auto using falsyBefore_S; try lia.
Qed.

(** A truthy call ends the run there, if the calls before it resolved
    falsy with readings before the deadline. *)
Lemma loop_returns (t0 timeout : Z) (calls : list (Z * Awaited T)) :
  forall now n k took v,
    nth_error calls k = Some (took, Resolves v) -> truthy v = true ->
    falsyBefore calls k ->
    (forall j, (j < k)%nat -> readingAfter T calls j now - t0 < timeout) ->
    outcome (loop t0 timeout calls now n) = Returned /\
    evaluations (loop t0 timeout calls now n) = S (n + k).
Proof.
  induction calls as [|[took0 a0] rest IH]; intros now n k took v Hn Hv Hf Ht.
  - destruct k; discriminate.
  - destruct k as [|k]; simpl in Hn.
    + injection Hn as -> ->. simpl. rewrite Hv. simpl. split; [reflexivity|lia].
    + destruct (Hf 0%nat ltac:(lia)) as [t' [v' [H0 Hv']]].
      simpl in H0. injection H0 as <- ->. simpl. rewrite Hv'.
      specialize (Ht 0%nat ltac:(lia)) as Ht0. simpl in Ht0.
      destruct (now + took0 - t0 >=? timeout) eqn:Hd.
      { apply Z.geb_le in Hd. lia. }
      destruct (IH (sleep POLL_MS (now + took0)) (S n) k took v Hn Hv) as [Ho He].
      * intros j Hj. apply (Hf (S j)). lia.
      * intros j Hj. apply (Ht (S j)). lia.
      * split; [exact Ho|]. rewrite He. lia.
Qed.

(** A falsy call whose reading is at or past the deadline ends the run
    with the timeout error, if the calls before it resolved falsy with
    readings before the deadline. *)
Lemma loop_times_out (t0 timeout : Z) (calls : list (Z * Awaited T)) :
  forall now n k,
    falsyBefore calls (S k) ->
    (forall j, (j < k)%nat -> readingAfter T calls j now - t0 < timeout) ->
    readingAfter T calls k now - t0 >= timeout ->
    outcome (loop t0 timeout calls now n) = Threw (NewError "timeout") /\
    evaluations (loop t0 timeout calls now n) = S (n + k).
Proof.
  induction calls as [|[took0 a0] rest IH]; intros now n k Hf Ht Hlate.
  - destruct (Hf 0%nat ltac:(lia)) as [t' [v' [H0 _]]]. discriminate.
  - destruct (Hf 0%nat ltac:(lia)) as [t' [v' [H0 Hv']]].
    simpl in H0. injection H0 as <- ->. simpl. rewrite Hv'.
    destruct k as [|k]; simpl in Hlate.
    + destruct (now + took0 - t0 >=? timeout) eqn:Hd.
      * simpl. split; [reflexivity|lia].
      * rewrite Z.geb_leb in Hd. apply Z.leb_gt in Hd. lia.
    + specialize (Ht 0%nat ltac:(lia)) as Ht0. simpl in Ht0.
      destruct (now + took0 - t0 >=? timeout) eqn:Hd.
      { apply Z.geb_le in Hd. lia. }
      destruct (IH (sleep POLL_MS (now + took0)) (S n) k) as [Ho He].
      * intros j Hj. apply (Hf (S j)). lia.
      * intros j Hj. apply (Ht (S j)). lia.
      * exact Hlate.
      * split; [exact Ho|]. rewrite He. lia.
Qed.

(** A run that threw the timeout error had every earlier reading before
    the deadline: the throw comes at the first reading at or past it. *)
Lemma loop_timeout_first (t0 timeout : Z) (calls : list (Z * Awaited T)) :
  forall now n k,
    outcome (loop t0 timeout calls now n) = Threw (NewError "timeout") ->
    evaluations (loop t0 timeout calls now n) = S (n + k) ->
    forall j, (j < k)%nat -> readingAfter T calls j now - t0 < timeout.
Proof.
  induction calls as [|[took [v|e]] rest IH]; intros now n k; simpl;
    try discriminate.
  destruct (truthy v) eqn:Hv; simpl; [discriminate|].
  destruct (now + took - t0 >=? timeout) eqn:Hd; simpl.
  - intros _ He j Hj. lia.
  - intros Hthrow He j Hj.
    rewrite Z.geb_leb in Hd. apply Z.leb_gt in Hd.
    destruct j as [|j]; [lia|].
    destruct k as [|k]; [lia|].
    apply (IH _ (S n) k Hthrow); [rewrite He|]; lia.
Qed.

(** A falsy call read before the deadline is followed by another call. *)
Lemma loop_polls_again (t0 timeout : Z) (calls : list (Z * Awaited T)) :
  forall now n k,
    falsyBefore calls (S k) ->
    (forall j, (j <= k)%nat -> readingAfter T calls j now - t0 < timeout) ->
    (S (S (n + k)) <= evaluations (loop t0 timeout calls now n))%nat.
Proof.
  induction calls as [|[took0 a0] rest IH]; intros now n k Hf Ht.
  - destruct (Hf 0%nat ltac:(lia)) as [t' [v' [H0 _]]]. discriminate.
  - destruct (Hf 0%nat ltac:(lia)) as [t' [v' [H0 Hv']]].
    simpl in H0. injection H0 as <- ->. simpl. rewrite Hv'.
    specialize (Ht 0%nat ltac:(lia)) as Ht0. simpl in Ht0.
    destruct (now + took0 - t0 >=? timeout) eqn:Hd.
    { apply Z.geb_le in Hd. lia. }
    destruct k as [|k].
    + pose proof (loop_evaluates t0 timeout rest (sleep POLL_MS (now + took0)) (S n)).
      lia.
    + specialize (IH (sleep POLL_MS (now + took0)) (S n) k).
      assert (Hle : (S (S (S n + k)) <=
                     evaluations (loop t0 timeout rest
                                    (sleep POLL_MS (now + took0)) (S n)))%nat).
      { apply IH.
        - intros j Hj. apply (Hf (S j)). lia.
        - intros j Hj. apply (Ht (S j)). lia. }
      lia.
Qed.

(** C10. [checkUntil] tests the predicate before the deadline, on every
    iteration. Whatever the timeout, [async_fn] is called at least once, and
    a truthy first evaluation makes the call return, however long it took
    and however small the timeout. The same holds of every later call: call
    [k] is made as soon as the calls before it resolved falsy and were read
    before the deadline, and if it resolves truthy the run returns there,
    whatever the clock shows by then. A falsy call read before the deadline
    is followed by another call 100 ms later; a falsy call read at or past
    the deadline is followed by the timeout error and by nothing else. The
    timeout error is thrown only so: after a call that resolved falsy,
    at the reading taken right after it, that reading being at least
    [timeout] after the start and the first such. *)
Theorem checkUntil_predicate_first (calls : list (Z * Awaited T))
    (timeout now : Z) :
  let r := checkUntil calls timeout now in
  (1 <= evaluations r)%nat /\
  (forall took v rest,
     calls = (took, Resolves v) :: rest -> truthy v = true ->
     outcome r = Returned /\ evaluations r = 1%nat /\ clock r = now + took) /\
  (forall k took v,
     nth_error calls k = Some (took, Resolves v) -> truthy v = true ->
     falsyBefore calls k ->
     (forall j, (j < k)%nat -> readingAfter T calls j now - now < timeout) ->
     outcome r = Returned /\ evaluations r = S k /\
     clock r = readingAfter T calls k now) /\
  (forall k,
     falsyBefore calls (S k) ->
     (forall j, (j <= k)%nat -> readingAfter T calls j now - now < timeout) ->
     (S (S k) <= evaluations r)%nat) /\
  (forall k,
     falsyBefore calls (S k) ->
     (forall j, (j < k)%nat -> readingAfter T calls j now - now < timeout) ->
     readingAfter T calls k now - now >= timeout ->
     outcome r = Threw (NewError "timeout") /\ evaluations r = S k /\
     clock r = readingAfter T calls k now) /\
  (outcome r = Threw (NewError "timeout") ->
   exists k took v,
     evaluations r = S k /\
     nth_error calls k = Some (took, Resolves v) /\ truthy v = false /\
     falsyBefore calls k /\
     (forall j, (j < k)%nat -> readingAfter T calls j now - now < timeout) /\
     clock r = readingAfter T calls k now /\
     readingAfter T calls k now - now >= timeout).
Proof.
  intro r. unfold r, Barrier.checkUntil.
  split; [apply loop_evaluates|]. split.
  { intros took v rest -> Hv. simpl. rewrite Hv. simpl. auto. }
  split.
  { intros k took v Hn Hv Hf Ht.
    destruct (loop_returns now timeout calls now 0%nat k took v Hn Hv Hf Ht)
      as [Ho He].
    split; [exact Ho|]. split; [exact He|].
    destruct (loop_returned _ _ _ _ _ Ho) as [k' [_ [_ [He' [_ [_ [_ Hc]]]]]]].
    rewrite Hc. f_equal. rewrite He in He'. simpl in He'. lia. }
  split.
  { intros k Hf Ht. apply (loop_polls_again now timeout calls now 0%nat k Hf Ht). }
  split.
  { intros k Hf Ht Hlate.
    destruct (loop_times_out now timeout calls now 0%nat k Hf Ht Hlate) as [Ho He].
    split; [exact Ho|]. split; [exact He|].
    destruct (loop_timeout _ _ _ _ _ Ho) as [k' [He' [_ [Hc _]]]].
    rewrite Hc. f_equal. rewrite He in He'. simpl in He'. lia. }
  intro Hthrow.
  destruct (loop_timeout _ _ _ _ _ Hthrow) as [k [He [Hf [Hc Hlate]]]].
  destruct (Hf k ltac:(lia)) as [took [v [Hn Hv]]].
  exists k, took, v. rewrite He. simpl.
  split; [reflexivity|]. split; [exact Hn|]. split; [exact Hv|].
  split; [intros j Hj; apply Hf; lia|].
  split; [exact (loop_timeout_first _ _ _ _ _ k Hthrow He)|].
  split; [exact Hc|]. rewrite <- Hc. exact Hlate.
Qed.

End CheckUntilTheory.

Section BarrierTheory.
Import Barrier.
Local Open Scope Z_scope.

Lemma nth_error_caughtUp (chainHeight : Z) (getInfo : list (Z * Awaited Z))
    (k : nat) (took : Z) (b : bool) :
  nth_error (map (caughtUp chainHeight) getInfo) k = Some (took, Resolves b) ->
  exists blocknum,
    nth_error getInfo k = Some (took, Resolves blocknum) /\
    b = (blocknum >? chainHeight).
Proof.
  rewrite nth_error_map.
  destruct (nth_error getInfo k) as [[took' [blocknum|e]]|]; simpl;
    try discriminate.
  unfold caughtUp. simpl. intro H. injection H as <- <-. now exists blocknum.
Qed.

Lemma readingAfter_caughtUp (chainHeight : Z) (getInfo : list (Z * Awaited Z)) :
  forall j start,
    readingAfter bool (map (caughtUp chainHeight) getInfo) j start
    = readingAfter Z getInfo j start.
Proof.
  induction getInfo as [|[took a] rest IH]; intros j start; simpl;
    [reflexivity|].
  unfold caughtUp at 1. simpl. destruct a; simpl; destruct j; auto.
Qed.

Lemma falsyBefore_notBeyond (chainHeight : Z) (getInfo : list (Z * Awaited Z))
    (k : nat) :
  falsyBefore bool (fun b => b) (map (caughtUp chainHeight) getInfo) k <->
  notBeyond chainHeight getInfo k.
Proof.
  split; intros H j Hj.
  - destruct (H j Hj) as [took [b [Hn Hb]]].
    apply nth_error_caughtUp in Hn. destruct Hn as [blocknum [Hn ->]].
    exists took, blocknum. split; [exact Hn|]. rewrite Z.gtb_ltb in Hb.
    now apply Z.ltb_ge in Hb.
  - destruct (H j Hj) as [took [blocknum [Hn Hle]]].
    exists took, (blocknum >? chainHeight). split.
    + rewrite nth_error_map, Hn. reflexivity.
    + rewrite Z.gtb_ltb. now apply Z.ltb_ge.
Qed.

(** Without the third argument, or with [false] for it, the barrier is the
    loop of [checkUntil] against the number of the best block's header. *)
Lemma blockBarrier_default (api : ChainApi) (getInfo : list (Z * Awaited Z))
    (finalized : option bool) (timeout : option Z) (now : Z) :
  finalized <> Some true ->
  blockBarrier api getInfo finalized timeout now
  = checkUntil bool (fun b => b) (map (caughtUp (getHeader api now)) getInfo)
      (match timeout with Some t => t | None => 24000 end)
      (now + headTook api).
Proof.
  intro Hmode. unfold blockBarrier.
  destruct finalized as [[|]|]; [congruence| |]; destruct timeout; reflexivity.
Qed.

(** X26. The barrier in default mode (the third argument left out or
    [false]) compares with the one height it read at the start, the number
    of the best block's header; the window is the
    timeout given, 24000 ms when none is given, and a sleep of 100 ms lies
    between two polls. It returns only on a polled height strictly above
    that target, after polls that were all at or below it, and it does so
    as soon as such a height is polled, the polls before it having been read
    before the deadline; it throws the timeout error only when every polled
    height was at or below the target, and does so at the first such poll
    read at or past the deadline. With target 100, the heights 98, 99, 100
    polled across the window (the third read when the window has run out)
    end in the timeout error, and 98, 99, 101 in success. *)
Theorem blockBarrier_strictly_beyond (api : ChainApi)
    (getInfo : list (Z * Awaited Z)) (finalized : option bool)
    (timeout : option Z) (now : Z) :
  finalized <> Some true ->
  let target := getHeader api now in
  let start := now + headTook api in
  let window := match timeout with Some t => t | None => 24000 end in
  let r := blockBarrier api getInfo finalized timeout now in
  (forall api',
     getHeader api' now = target -> headTook api' = headTook api ->
     blockBarrier api' getInfo finalized timeout now = r) /\
  (outcome r = Returned ->
   exists k took blocknum,
     evaluations r = S k /\
     nth_error getInfo k = Some (took, Resolves blocknum) /\
     blocknum > target /\ notBeyond target getInfo k /\
     clock r = readingAfter Z getInfo k start) /\
  (outcome r = Threw (NewError "timeout") ->
   exists k,
     evaluations r = S k /\ notBeyond target getInfo (S k) /\
     clock r = readingAfter Z getInfo k start /\ clock r - start >= window) /\
  (forall k took blocknum,
     nth_error getInfo k = Some (took, Resolves blocknum) ->
     blocknum > target -> notBeyond target getInfo k ->
     (forall j, (j < k)%nat -> readingAfter Z getInfo j start - start < window) ->
     outcome r = Returned /\ evaluations r = S k) /\
  (forall k,
     notBeyond target getInfo (S k) ->
     (forall j, (j < k)%nat -> readingAfter Z getInfo j start - start < window) ->
     readingAfter Z getInfo k start - start >= window ->
     outcome r = Threw (NewError "timeout") /\ evaluations r = S k) /\
  (forall t1 t2 t3,
     target = 100 ->
     t1 < window -> t1 + 100 + t2 < window ->
     t1 + 100 + t2 + 100 + t3 >= window ->
     outcome (blockBarrier api
                [(t1, Resolves 98); (t2, Resolves 99); (t3, Resolves 100)]
                finalized timeout now)
     = Threw (NewError "timeout")) /\
  (forall t1 t2 t3,
     target = 100 ->
     t1 < window -> t1 + 100 + t2 < window ->
     outcome (blockBarrier api
                [(t1, Resolves 98); (t2, Resolves 99); (t3, Resolves 101)]
                finalized timeout now)
     = Returned).
Proof.
  intros Hmode target start window r.
  assert (Hr : r = checkUntil bool (fun b => b) (map (caughtUp target) getInfo)
                     window start).
  { unfold r. now rewrite blockBarrier_default. }
  split.
  { intros api' Htarget Htook. rewrite Hr, blockBarrier_default by exact Hmode.
    now rewrite Htarget, Htook. }
  rewrite Hr. clear Hr r.
  split.
  { intro Hret. unfold checkUntil in *.
    destruct (loop_returned _ _ _ _ _ _ _ Hret)
      as [k [took [b [He [Hn [Hb [Hf Hc]]]]]]].
    apply nth_error_caughtUp in Hn. destruct Hn as [blocknum [Hn ->]].
    exists k, took, blocknum. rewrite He, Hc, readingAfter_caughtUp.
    repeat split; auto.
    - now apply Z.gtb_gt in Hb.
    - now apply falsyBefore_notBeyond in Hf. }
  split.
  { intro Hthrow. unfold checkUntil in *.
    destruct (loop_timeout _ _ _ _ _ _ _ Hthrow) as [k [He [Hf [Hc Hlate]]]].
    exists k. rewrite He. rewrite Hc in *. rewrite readingAfter_caughtUp in *.
    repeat split; auto. now apply falsyBefore_notBeyond in Hf. }
  split.
  { intros k took blocknum Hn Hgt Hbefore Htime.
    unfold checkUntil.
    apply (loop_returns bool (fun b => b) start window _ start 0%nat k took
             (blocknum >? target)).
    - rewrite nth_error_map, Hn. reflexivity.
    - now apply Z.gtb_gt.
    - now apply falsyBefore_notBeyond.
    - intros j Hj. rewrite readingAfter_caughtUp. now apply Htime. }
  split.
  { intros k Hbefore Htime Hlate.
    unfold checkUntil.
    apply (loop_times_out bool (fun b => b) start window _ start 0%nat k).
    - now apply falsyBefore_notBeyond.
    - intros j Hj. rewrite readingAfter_caughtUp. now apply Htime.
    - rewrite readingAfter_caughtUp. exact Hlate. }
  split; intros t1 t2 t3 Htarget; rewrite blockBarrier_default by exact Hmode;
    fold target window; rewrite Htarget; unfold checkUntil;
    cbn [map caughtUp fst snd Barrier.loop outcome]; unfold sleep, POLL_MS;
    cbn [Z.gtb Z.compare Pos.compare Pos.compare_cont]; intros;
    repeat match goal with
           | |- context [?a >=? ?b] =>
               rewrite (Z.geb_leb a b);
               destruct (Z.leb_spec b a); try lia; cbn [outcome]
           end;
    reflexivity.
Qed.

(** C7 fails on the code in finalized mode. [getFinalizedHead] resolves with
    the hash of the finalized block, which has no field [number]: whatever
    the chain, the worker and the timeout, the call ends with a [TypeError]
    when the head request has answered, and the worker has not been polled
    once. On the worker heights 98, 99, 101, with the best block at 100, the
    barrier returns in default mode and throws in finalized mode. *)
Theorem finalized_barrier_throws :
  (forall (api : ChainApi) (getInfo : list (Z * Awaited Z))
          (timeout : option Z) (now : Z),
     outcome (blockBarrier api getInfo (Some true) timeout now) = Threw TypeError /\
     evaluations (blockBarrier api getInfo (Some true) timeout now) = 0%nat /\
     clock (blockBarrier api getInfo (Some true) timeout now) = now + headTook api) /\
  outcome (blockBarrier Sample.growing Sample.overtaking None None 0) = Returned /\
  evaluations (blockBarrier Sample.growing Sample.overtaking None None 0) = 3%nat /\
  outcome (blockBarrier Sample.growing Sample.overtaking (Some true) None 0)
  = Threw TypeError.
Proof.
  split; [intros; repeat split|].
  repeat split.
Qed.

End BarrierTheory.

Section BarrierExamples.
Import Barrier Sample.
Local Open Scope Z_scope.

Lemma slow_then_ready_falsyBefore :
  falsyBefore bool (fun b => b) slowThenReady 1.
Proof.
  intros j Hj. destruct j as [|j]; [|lia].
  exists 1000, false. split; reflexivity.
Qed.

Lemma checkUntil_predicate_first_witness :
  (outcome (checkUntil bool (fun b => b) [(500, Resolves true)] 0 1000) = Returned /\
   evaluations (checkUntil bool (fun b => b) [(500, Resolves true)] 0 1000) = 1%nat /\
   clock (checkUntil bool (fun b => b) [(500, Resolves true)] 0 1000) = 1500) /\
  (outcome (checkUntil bool (fun b => b) slowThenReady 1050 0) = Returned /\
   evaluations (checkUntil bool (fun b => b) slowThenReady 1050 0) = 2%nat /\
   clock (checkUntil bool (fun b => b) slowThenReady 1050 0) = 1110) /\
  (2 <= evaluations (checkUntil bool (fun b => b) slowThenReady 1050 0))%nat /\
  (outcome (checkUntil bool (fun b => b) slowThenReady 1000 0)
   = Threw (NewError "timeout") /\
   evaluations (checkUntil bool (fun b => b) slowThenReady 1000 0) = 1%nat /\
   clock (checkUntil bool (fun b => b) slowThenReady 1000 0) = 1000) /\
  (exists k took v,
     evaluations (checkUntil bool (fun b => b) slowThenReady 1000 0) = S k /\
     nth_error slowThenReady k = Some (took, Resolves v) /\
     (fun b : bool => b) v = false /\
     falsyBefore bool (fun b => b) slowThenReady k /\
     (forall j, (j < k)%nat ->
        readingAfter bool slowThenReady j 0 - 0 < 1000) /\
     clock (checkUntil bool (fun b => b) slowThenReady 1000 0)
     = readingAfter bool slowThenReady k 0 /\
     readingAfter bool slowThenReady k 0 - 0 >= 1000).
Proof.
  split.
  { apply (proj1 (proj2 (checkUntil_predicate_first bool (fun b => b)
                           [(500, Resolves true)] 0 1000))
             500 true []); reflexivity. }
  split.
  { apply (proj1 (proj2 (proj2 (checkUntil_predicate_first bool (fun b => b)
                                  slowThenReady 1050 0)))
             1%nat 10 true).
    - reflexivity.
    - reflexivity.
    - exact slow_then_ready_falsyBefore.
    - intros j Hj. destruct j as [|j]; [vm_compute; reflexivity|lia]. }
  split.
  { apply (proj1 (proj2 (proj2 (proj2 (checkUntil_predicate_first bool (fun b => b)
                                         slowThenReady 1050 0))))
             0%nat).
    - exact slow_then_ready_falsyBefore.
    - intros j Hj. destruct j as [|j]; [vm_compute; reflexivity|lia]. }
  split.
  { apply (proj1 (proj2 (proj2 (proj2 (proj2
              (checkUntil_predicate_first bool (fun b => b) slowThenReady 1000 0)))))
             0%nat).
    - exact slow_then_ready_falsyBefore.
    - intros j Hj. lia.
    - vm_compute. discriminate. }
  apply (proj2 (proj2 (proj2 (proj2 (proj2
           (checkUntil_predicate_first bool (fun b => b) slowThenReady 1000 0)))))).
  reflexivity.
Defined.

Lemma overtaking_notBeyond : notBeyond 100 overtaking 2.
Proof.
  intros j Hj. destruct j as [|[|j]]; [| |lia].
  - exists 8000, 98. split; [reflexivity|lia].
  - exists 8000, 99. split; [reflexivity|lia].
Qed.

Lemma lagging_notBeyond : notBeyond 100 lagging 3.
Proof.
  intros j Hj. destruct j as [|[|[|j]]]; [| | |lia].
  - exists 8000, 98. split; [reflexivity|lia].
  - exists 8000, 99. split; [reflexivity|lia].
  - exists 7800, 100. split; [reflexivity|lia].
Qed.

Lemma blockBarrier_strictly_beyond_witness :
  blockBarrier standing overtaking None None 0
  = blockBarrier growing overtaking None None 0 /\
  (exists k took blocknum,
     evaluations (blockBarrier growing overtaking None None 0) = S k /\
     nth_error overtaking k = Some (took, Resolves blocknum) /\
     blocknum > 100 /\ notBeyond 100 overtaking k /\
     clock (blockBarrier growing overtaking None None 0)
     = readingAfter Z overtaking k 50) /\
  (exists k,
     evaluations (blockBarrier growing lagging None None 0) = S k /\
     notBeyond 100 lagging (S k) /\
     clock (blockBarrier growing lagging None None 0)
     = readingAfter Z lagging k 50 /\
     clock (blockBarrier growing lagging None None 0) - 50 >= 24000) /\
  (outcome (blockBarrier growing overtaking None None 0) = Returned /\
   evaluations (blockBarrier growing overtaking None None 0) = 3%nat) /\
  (outcome (blockBarrier growing lagging None None 0)
   = Threw (NewError "timeout") /\
   evaluations (blockBarrier growing lagging None None 0) = 3%nat) /\
  outcome (blockBarrier growing lagging None None 0)
  = Threw (NewError "timeout") /\
  outcome (blockBarrier growing overtaking None None 0) = Returned.
Proof.
  assert (Hmode : @None bool <> Some true) by discriminate.
  pose proof (blockBarrier_strictly_beyond growing overtaking None None 0 Hmode)
    as [Honce [Hret [_ [Hsoon [_ [_ Hgood]]]]]].
  pose proof (blockBarrier_strictly_beyond growing lagging None None 0 Hmode)
    as [_ [_ [Hthrew [_ [Hlate [Hbad _]]]]]].
  split; [apply (Honce standing); reflexivity|].
  split; [apply Hret; reflexivity|].
  split; [apply Hthrew; reflexivity|].
  split.
  { apply (Hsoon 2%nat 7800 101).
    - reflexivity.
    - vm_compute. reflexivity.
    - exact overtaking_notBeyond.
    - intros j Hj. destruct j as [|[|j]]; [vm_compute; reflexivity..|lia]. }
  split.
  { apply (Hlate 2%nat).
    - exact lagging_notBeyond.
    - intros j Hj. destruct j as [|[|j]]; [vm_compute; reflexivity..|lia].
    - vm_compute. discriminate. }
  split.
  - apply (Hbad 8000 8000 7800); vm_compute; congruence.
  - apply (Hgood 8000 8000 7800); vm_compute; congruence.
Defined.

(** A worker that has caught up with the target but not passed it, polled
    without delay: 241 polls span the default window and end in the timeout
    error; one poll fewer and the barrier is still waiting. *)
Example level_worker_times_out :
  outcome (blockBarrier standing (reports 0 (repeat 100 241)) None None 0)
  = Threw (NewError "timeout") /\
  outcome (blockBarrier standing (reports 0 (repeat 100 240)) None None 0)
  = Awaiting.
Proof.
  split; vm_compute; reflexivity.
Qed.

(** A rejected [getInfo] ends the barrier with that error, not with the
    timeout error. *)
Example getInfo_rejection_propagates :
  outcome (blockBarrier standing [(10, Resolves 99); (10, Rejects "fetch failed")]
             (Some false) None 0) = Threw (External "fetch failed").
Proof.
  reflexivity.
Qed.

End BarrierExamples.

(** ** The runner *)
Section RunnerTheory.
Import Runner.

(** C8. A read-only invocation that gets as far as the query, with the
    query resolved, ends without throwing and puts exactly one result in
    front of the log: [succeed] is the [isOk] of the query result, and
    [output] is the humanized output when it holds and the humanized result
    (the error) when it does not. *)
Theorem read_only_run_recorded (e : Env) (inputs : Dict) (st : RunnerState)
    (q : ContractCallOutcome) :
  reachesQuery e q ->
  exists r,
    fn e inputs st
    = (Done, {| resultsAtom := r :: resultsAtom st; isLoading := false |}) /\
    succeed r = resultIsOk q /\
    output r = (if resultIsOk q then outputToHuman q
                else Some (resultToHuman q)) /\
    inputArgs r = inputs /\
    Some (methodSpec r) = currentMethod e /\
    Some (contract r) = currentContract e /\
    completedAt r = dateNow e.
Proof.
  intros [m [c [ci [name [Hm [Hapi [Hacc [Hclone [Hc [Hci [Hmut [Hq [Hname
           [Hweb [Hcert Hquery]]]]]]]]]]]]]]].
  apply String.eqb_neq in Hname.
  unfold fn, tryBlock.
  rewrite Hm, Hapi, Hacc, Hclone, Hc, Hci, Hweb, Hcert, Hquery.
  unfold bind, prop. simpl. rewrite Hq, Hmut. simpl. rewrite Hname. simpl.
  destruct (resultIsOk q) eqn:Hok; simpl; eexists; (split; [reflexivity|]);
    simpl; rewrite ?Hok; auto 10.
Qed.

End RunnerTheory.

Section RunnerExamples.
Import Runner Sample.

Lemma read_only_run_recorded_witness :
  exists r,
    fn (reading reverted) [] earlier
    = (Done, {| resultsAtom := r :: resultsAtom earlier; isLoading := false |}) /\
    succeed r = false /\
    output r = Some "{Err: {Module: ContractReverted}}".
Proof.
  assert (Hreach : reachesQuery (reading reverted) reverted).
  { exists getMessage, flipper, instance, "get". repeat split. discriminate. }
  destruct (read_only_run_recorded (reading reverted) [] earlier reverted Hreach)
    as [r [Hfn [Hs [Ho _]]]].
  exists r. auto.
Defined.

(** The same invocation with a result that is ok. *)
Example answered_run :
  fn (reading answered) [] earlier
  = (Done,
     {| resultsAtom :=
          mkMethodRunResult flipper getMessage true [] (Some "true")
            1660000000123%Z :: resultsAtom earlier;
        isLoading := false |}).
Proof.
  reflexivity.
Qed.

(** A label that the contract does not have ends the invocation at once,
    unless it names a property of [Object.prototype]: then the tables give
    something truthy, the invocation goes on and the call of the method
    throws. Neither records a result. *)
Example label_without_method :
  fn (asking (mkMessage "transfer" false []) answered) [] earlier
  = (Done, {| resultsAtom := resultsAtom earlier; isLoading := false |}) /\
  fn (asking (mkMessage "toString" false []) answered) [] earlier
  = (Failed TypeError,
     {| resultsAtom := resultsAtom earlier; isLoading := false |}).
Proof.
  split; reflexivity.
Qed.

End RunnerExamples.

(** * Further properties *)

(** ** What the pipeline does with the indexes *)
Section PipelineTheory.
Import Events.

Lemma keepEvent_record (ixs : list nat) (r : EventRecord) :
  keepEvent (mkIndexedEvent ixs r) = keepRecord r.
Proof.
  reflexivity.
Qed.

Lemma sameKind_kind (e c : IndexedEvent) :
  sameKind e c = true <-> kind e = kind c.
Proof.
  unfold sameKind, kind. rewrite andb_true_iff, !String.eqb_eq.
  split; [intros [-> ->]; reflexivity|intro H; now inversion H].
Qed.

Lemma find_sameKind_none (e : IndexedEvent) (acc : list IndexedEvent) :
  find (sameKind e) acc = None -> ~ In (kind e) (map kind acc).
Proof.
  intros Hnone Hin. apply in_map_iff in Hin. destruct Hin as [c [Hk Hc]].
  pose proof (find_none _ _ Hnone c Hc) as Hf.
  assert (Ht : sameKind e c = true) by (apply sameKind_kind; congruence).
  congruence.
Qed.

(** [find] and the push, as a split of the array at the entry found. *)
Lemma pushAtFirst_split (p : IndexedEvent -> bool) (more : list nat)
    (acc : list IndexedEvent) (found : IndexedEvent) :
  find p acc = Some found ->
  exists pre c post,
    acc = pre ++ c :: post /\ p c = true /\
    pushAtFirst p more acc
    = pre ++ mkIndexedEvent (indexes c ++ more) (record c) :: post.
Proof.
  revert found. induction acc as [|c acc IH]; intros found; simpl;
    [discriminate|].
  destruct (p c) eqn:Hp.
  - intros _. exists [], c, acc. auto.
  - intro Hf. destruct (IH found Hf) as [pre [c' [post [-> [Hc' Hpush]]]]].
    exists (c :: pre), c', post. simpl. rewrite Hpush. auto.
Qed.

Lemma reducer_indexes (acc : list IndexedEvent) (e : IndexedEvent) :
  Permutation (flat_map indexes (reducer acc e))
              (flat_map indexes acc ++ indexes e).
Proof.
  unfold reducer. destruct (find (sameKind e) acc) as [found|] eqn:Hfind.
  - destruct (pushAtFirst_split _ (indexes e) _ _ Hfind)
      as [pre [c [post [-> [_ ->]]]]].
    rewrite !flat_map_app. simpl. rewrite <- !app_assoc.
    do 2 apply Permutation_app_head. apply Permutation_app_comm.
  - rewrite flat_map_app. simpl. now rewrite app_nil_r.
Qed.

Lemma reducer_kinds (acc : list IndexedEvent) (e : IndexedEvent) :
  map kind (reducer acc e)
  = if existsb (sameKind e) acc then map kind acc else map kind acc ++ [kind e].
Proof.
  unfold reducer. destruct (find (sameKind e) acc) as [found|] eqn:Hfind.
  - assert (Hex : existsb (sameKind e) acc = true).
    { apply find_some in Hfind. apply existsb_exists. now exists found. }
    rewrite Hex.
    destruct (pushAtFirst_split _ (indexes e) _ _ Hfind)
      as [pre [c [post [-> [_ ->]]]]].
    now rewrite !map_app.
  - assert (Hex : existsb (sameKind e) acc = false).
    { destruct (existsb (sameKind e) acc) eqn:E; [|reflexivity].
      apply existsb_exists in E. destruct E as [x [Hin Hx]].
      now rewrite (find_none _ _ Hfind x Hin) in Hx. }
    rewrite Hex. now rewrite map_app.
Qed.

Lemma StronglySorted_snoc (l : list nat) (k : nat) :
  StronglySorted lt l -> (forall i, In i l -> i < k) ->
  StronglySorted lt (l ++ [k]).
Proof.
  induction 1 as [|a l Hl IH Ha]; intro Hk; simpl.
  - repeat constructor.
  - constructor.
    + apply IH. intros i Hi. apply Hk. now right.
    + apply Forall_app. split; [exact Ha|].
      constructor; [|constructor]. apply Hk. now left.
Qed.

(** A record that passed the filter goes into the accumulator. *)
Lemma accumulated_keep (records : list EventRecord) (k : nat)
    (acc : list IndexedEvent) (r : EventRecord) :
  accumulated records k acc ->
  nth_error records k = Some r -> keepRecord r = true ->
  accumulated records (S k) (reducer acc (mkIndexedEvent [k] r)).
Proof.
  intros [Hgroups [Hkinds [Hnodup Hcover]]] Hnth Hkeep.
  assert (Hbelow : forall i, In i (flat_map indexes acc) -> i < k).
  { intros i Hi. now apply Hcover in Hi. }
  assert (Hperm := reducer_indexes acc (mkIndexedEvent [k] r)).
  cbn [indexes] in Hperm.
  split; [|split; [|split]].
  - unfold reducer.
    destruct (find (sameKind (mkIndexedEvent [k] r)) acc) as [found|] eqn:Hfind.
    + destruct (pushAtFirst_split _ [k] _ _ Hfind)
        as [pre [c [post [Hacc [Hsame Hpush]]]]].
      cbn [indexes]. rewrite Hpush. subst acc.
      apply Forall_app in Hgroups. destruct Hgroups as [Hpre Hrest].
      inversion Hrest as [|? ? Hc Hpost]; subst.
      apply Forall_app. split; [exact Hpre|]. constructor; [|exact Hpost].
      destruct Hc as [Hhd [Hne [Hsorted Hall]]].
      apply sameKind_kind in Hsame. unfold kind in Hsame. simpl in Hsame.
      inversion Hsame as [[Hsec Hmet]].
      assert (Hc_below : forall i, In i (indexes c) -> i < k).
      { intros i Hi. apply Hbelow. rewrite flat_map_app. apply in_or_app.
        right. simpl. apply in_or_app. now left. }
      unfold groups. cbn [indexes record]. repeat split.
      * destruct (indexes c); [contradiction|exact Hhd].
      * destruct (indexes c); discriminate.
      * now apply StronglySorted_snoc.
      * intros i Hi. apply in_app_or in Hi. destruct Hi as [Hi|[<-|[]]].
        -- now apply Hall.
        -- exists r. auto.
    + apply Forall_app. split; [exact Hgroups|]. constructor; [|constructor].
      unfold groups. cbn [indexes record hd]. repeat split.
      * exact Hnth.
      * discriminate.
      * repeat constructor.
      * intros i [<-|[]]. exists r. auto.
  - rewrite reducer_kinds.
    destruct (existsb (sameKind (mkIndexedEvent [k] r)) acc) eqn:Hex;
      [exact Hkinds|].
    apply (Permutation_NoDup (l := kind (mkIndexedEvent [k] r) :: map kind acc)).
    + apply Permutation_cons_append.
    + constructor; [|exact Hkinds].
      intro Hin. apply in_map_iff in Hin. destruct Hin as [c [Hk Hc]].
      assert (Ht : existsb (sameKind (mkIndexedEvent [k] r)) acc = true).
      { apply existsb_exists. exists c. split; [exact Hc|].
        apply sameKind_kind. congruence. }
      congruence.
  - apply (Permutation_NoDup (l := k :: flat_map indexes acc)).
    + symmetry. etransitivity; [exact Hperm|].
      symmetry. apply Permutation_cons_append.
    + constructor; [|exact Hnodup]. intro Hin. apply Hbelow in Hin. lia.
  - intro i. split.
    + intro Hin. apply (Permutation_in _ Hperm) in Hin.
      apply in_app_or in Hin. destruct Hin as [Hin|[<-|[]]].
      * apply Hcover in Hin. destruct Hin as [Hi Hr]. split; [lia|exact Hr].
      * split; [lia|]. exists r. auto.
    + intros [Hi Hr]. apply (Permutation_in _ (Permutation_sym Hperm)).
      apply in_or_app. destruct (Nat.eq_dec i k) as [->|Hne].
      * right. now left.
      * left. apply Hcover. split; [lia|exact Hr].
Qed.

(** A record that the filter drops leaves the accumulator as it is. *)
Lemma accumulated_drop (records : list EventRecord) (k : nat)
    (acc : list IndexedEvent) (r : EventRecord) :
  accumulated records k acc ->
  nth_error records k = Some r -> keepRecord r = false ->
  accumulated records (S k) acc.
Proof.
  intros [Hgroups [Hkinds [Hnodup Hcover]]] Hnth Hdrop.
  split; [exact Hgroups|]. split; [exact Hkinds|]. split; [exact Hnodup|].
  intro i. rewrite Hcover. split.
  - intros [Hi Hr]. split; [lia|exact Hr].
  - intros [Hi [r' [Hr' Hk']]]. split; [|eauto].
    destruct (Nat.eq_dec i k) as [->|Hne]; [|lia]. congruence.
Qed.

Lemma accumulated_fold (records : list EventRecord) :
  forall rest before acc,
    records = before ++ rest ->
    accumulated records (List.length before) acc ->
    accumulated records (List.length records)
      (fold_left reducer
         (filter keepEvent (mapIndexFrom (List.length before) rest)) acc).
Proof.
  induction rest as [|r rest IH]; intros before acc Hsplit Hacc.
  - simpl. subst records. rewrite app_nil_r in *. exact Hacc.
  - assert (Hnth : nth_error records (List.length before) = Some r).
    { subst records. rewrite nth_error_app2 by lia.
      now rewrite Nat.sub_diag. }
    assert (Hnext : records = (before ++ [r]) ++ rest).
    { subst records. now rewrite <- app_assoc. }
    simpl. rewrite keepEvent_record.
    replace (S (List.length before)) with (List.length (before ++ [r]))
      by (rewrite length_app; simpl; lia).
    destruct (keepRecord r) eqn:Hkeep; simpl.
    + apply (IH (before ++ [r]) _ Hnext).
      rewrite length_app. simpl. rewrite Nat.add_1_r.
      now apply accumulated_keep.
    + apply (IH (before ++ [r]) _ Hnext).
      rewrite length_app. simpl. rewrite Nat.add_1_r.
      now apply (accumulated_drop records _ acc r).
Qed.

Lemma accumulated_newEvents (records : list EventRecord) :
  accumulated records (List.length records) (rev (newEvents records)).
Proof.
  unfold newEvents, mapIndex. rewrite rev_involutive.
  apply (accumulated_fold records records [] []); [reflexivity|].
  split; [constructor|]. split; [constructor|]. split; [constructor|].
  intro i. simpl. split; [contradiction|]. intros [Hi _]. lia.
Qed.

Lemma flat_map_rev_perm (l : list IndexedEvent) :
  Permutation (flat_map indexes (rev l)) (flat_map indexes l).
Proof.
  apply Permutation_flat_map. symmetry. apply Permutation_rev.
Qed.

(** X1. Each position of a record that passes the filter occurs in the
    index list of exactly one entry of [newEvents], and no other number
    occurs there: no index is lost, repeated, or made up. *)
Theorem newEvents_indexes_cover (records : list EventRecord) :
  NoDup (flat_map indexes (newEvents records)) /\
  forall i, In i (flat_map indexes (newEvents records)) <->
            exists r, nth_error records i = Some r /\ keepRecord r = true.
Proof.
  destruct (accumulated_newEvents records) as [_ [_ [Hnodup Hcover]]].
  pose proof (flat_map_rev_perm (newEvents records)) as Hperm.
  split.
  - exact (Permutation_NoDup Hperm Hnodup).
  - intro i. split.
    + intro Hin. apply (Permutation_in _ (Permutation_sym Hperm)) in Hin.
      now apply Hcover in Hin.
    + intros [r [Hr Hk]]. apply (Permutation_in _ Hperm). apply Hcover.
      split; [|eauto]. apply nth_error_Some. congruence.
Qed.

(** X2. The entries of [newEvents] have pairwise different (section,
    method); each carries the record of its first index; its indexes are
    ascending positions of records that passed the filter and have its
    section and method. *)
Theorem newEvents_groups (records : list EventRecord) :
  NoDup (map kind (newEvents records)) /\
  forall e, In e (newEvents records) ->
    nth_error records (hd 0 (indexes e)) = Some (record e) /\
    indexes e <> [] /\
    StronglySorted lt (indexes e) /\
    keepRecord (record e) = true /\
    forall i, In i (indexes e) ->
      exists r, nth_error records i = Some r /\ keepRecord r = true /\
                section r = section (record e) /\ method r = method (record e).
Proof.
  destruct (accumulated_newEvents records) as [Hgroups [Hkinds _]].
  split.
  - rewrite <- (rev_involutive (newEvents records)), map_rev.
    now apply NoDup_rev.
  - intros e He. rewrite in_rev in He.
    rewrite Forall_forall in Hgroups.
    destruct (Hgroups e He) as [Hhd [Hne [Hsorted Hall]]].
    repeat split; auto.
    destruct (indexes e) as [|i0 rest] eqn:Hix; [contradiction|].
    destruct (Hall i0 (or_introl eq_refl)) as [r [Hr [Hk _]]].
    simpl in Hhd. congruence.
Qed.

Lemma newEvents_nil_iff (records : list EventRecord) :
  newEvents records = [] <-> Forall (fun r => keepRecord r = false) records.
Proof.
  destruct (accumulated_newEvents records) as [Hgroups [_ [_ Hcover]]].
  split.
  - intro Hnil. rewrite Hnil in Hcover. simpl in Hcover.
    apply Forall_forall. intros r Hr.
    destruct (keepRecord r) eqn:Hk; [|reflexivity].
    apply In_nth_error in Hr. destruct Hr as [i Hi].
    exfalso. apply (Hcover i). split; [|eauto].
    apply nth_error_Some. congruence.
  - intro Hall. rewrite <- (rev_involutive (newEvents records)).
    destruct (rev (newEvents records)) as [|e rest]; [reflexivity|].
    inversion Hgroups as [|? ? [Hhd [Hne [_ Hevery]]] _]; subst.
    destruct (indexes e) as [|i0 more] eqn:Hix; [contradiction|].
    destruct (Hevery i0 (or_introl eq_refl)) as [r [Hr [Hk _]]].
    rewrite Forall_forall in Hall.
    apply nth_error_In in Hr. apply Hall in Hr. congruence.
Qed.

End PipelineTheory.

(** ** What the log keeps over any deliveries *)
Section LogInvariants.
Import Events.

Variable eventHash : list IndexedEvent -> string.

(** A batch without a record that passes the filter gives no candidate. *)
Lemma noise_only_else_branch (d : Delivery) (st : Ingestion) :
  Forall (fun r => keepRecord r = false) (records d) ->
  onRecords eventHash d st
  = {| systemEventsAtom := countOnly (List.length (records d)) (systemEventsAtom st);
       prevHashes := prevHashes st |}.
Proof.
  intro Hall. apply newEvents_nil_iff in Hall.
  unfold onRecords. rewrite Hall. cbn [List.length Nat.eqb negb].
  now rewrite andb_false_r.
Qed.

(** X3. [newEvents] is empty exactly when no record of the batch passes
    the filter, and such a batch changes [eventCount] only: the stored
    events and both trackers stay, whatever the trackers hold. *)
Theorem noise_only_batch (d : Delivery) (st : Ingestion) :
  (newEvents (records d) = [] <->
   Forall (fun r => keepRecord r = false) (records d)) /\
  (Forall (fun r => keepRecord r = false) (records d) ->
   eventCount (systemEventsAtom (onRecords eventHash d st))
   = List.length (records d) /\
   events (systemEventsAtom (onRecords eventHash d st))
   = events (systemEventsAtom st) /\
   prevHashes (onRecords eventHash d st) = prevHashes st).
Proof.
  split; [apply newEvents_nil_iff|].
  intro Hall. rewrite (noise_only_else_branch d st Hall). auto.
Qed.

(** The three ways a run of the callback can go. *)
Lemma onRecords_cases (d : Delivery) (st : Ingestion) :
  (systemEventsAtom (onRecords eventHash d st)
   = countOnly (List.length (records d)) (systemEventsAtom st) /\
   prevHashes (onRecords eventHash d st) = prevHashes st) \/
  (systemEventsAtom (onRecords eventHash d st) = systemEventsAtom st /\
   block (prevHashes (onRecords eventHash d st)) = block (prevHashes st)) \/
  (exists header,
     getHeader d = Some header /\
     newEvents (records d) <> [] /\
     onRecords eventHash d st
     = {| systemEventsAtom :=
            storeBlock (List.length (records d)) (number header) (hash header)
              (newEvents (records d)) (systemEventsAtom st);
          prevHashes := {| block := Some (hash header);
                           event := Some (eventHash (newEvents (records d))) |} |}).
Proof.
  unfold onRecords.
  destruct (differs _ (event (prevHashes st))) eqn:Hev; cbn [andb];
    [|left; auto].
  destruct (List.length (newEvents (records d)) =? 0)%nat eqn:Hlen;
    cbn [negb]; [left; auto|].
  destruct (getHeader d) as [header|]; [|right; left; auto].
  cbn [block]. destruct (differs (hash header) (block (prevHashes st)));
    [|right; left; auto].
  right; right. exists header. repeat split.
  intro Hnil. rewrite Hnil in Hlen. discriminate.
Qed.

Lemma NoDup_map_of_flat_map {A B : Type} (f : A -> list B) (l : list A) :
  NoDup (flat_map f l) -> Forall (fun x => f x <> []) l -> NoDup (map f l).
Proof.
  induction l as [|x l IH]; simpl; intros Hnd Hne; [constructor|].
  inversion Hne as [|? ? Hx Hl]; subst.
  constructor.
  - intro Hin. apply in_map_iff in Hin. destruct Hin as [y [Hy Hyl]].
    destruct (f x) as [|b bs] eqn:Hfx; [contradiction|].
    simpl in Hnd. inversion Hnd as [|? ? Hnotin _]; subst.
    apply Hnotin. apply in_or_app. right.
    apply in_flat_map. exists y. split; [exact Hyl|]. rewrite Hy. now left.
  - apply IH; [|exact Hl]. now apply NoDup_app_remove_l in Hnd.
Qed.

Lemma newEvents_indexes_distinct (records : list EventRecord) :
  NoDup (map indexes (newEvents records)).
Proof.
  destruct (accumulated_newEvents records) as [Hgroups [_ [Hnodup _]]].
  rewrite <- (rev_involutive (newEvents records)), map_rev.
  apply NoDup_rev. apply NoDup_map_of_flat_map; [exact Hnodup|].
  apply Forall_forall. intros e He. rewrite Forall_forall in Hgroups.
  now destruct (Hgroups e He) as [_ [Hne _]].
Qed.

Lemma NoDup_map_injective {A B : Type} (f : A -> B) (l : list A) :
  (forall x y, f x = f y -> x = y) -> NoDup l -> NoDup (map f l).
Proof.
  intros Hinj. induction 1 as [|x l Hx Hl IH]; simpl; constructor; [|exact IH].
  intro Hin. apply in_map_iff in Hin. destruct Hin as [y [Hy Hyl]].
  apply Hinj in Hy. now subst y.
Qed.

Lemma NoDup_firstn {A : Type} (n : nat) (l : list A) :
  NoDup l -> NoDup (firstn n l).
Proof.
  intro H. rewrite <- (firstn_skipn n l) in H.
  now apply NoDup_app_remove_r in H.
Qed.

(** Dropping elements keeps the images pairwise different. *)
Lemma filter_images_distinct {B C : Type} (image : B -> C) (keep : B -> bool) :
  forall xs, NoDup (map image xs) -> NoDup (map image (filter keep xs)).
Proof.
  intros xs. induction xs as [|x xs IH]; simpl; intro H; [constructor|].
  inversion H as [|? ? Hx Hxs]; subst.
  destruct (keep x); simpl; [|now apply IH].
  constructor; [|now apply IH].
  intro Hin. apply Hx. apply in_map_iff in Hin.
  destruct Hin as [y [Hy Hyl]]. apply filter_In in Hyl.
  apply in_map_iff. exists y. tauto.
Qed.

(** Storing a block keeps [wellKept]. *)
Lemma storeBlock_wellKept (d : Delivery) (st : Ingestion) (header : Header) :
  wellKept st ->
  newEvents (records d) <> [] ->
  wellKept
    {| systemEventsAtom :=
         storeBlock (List.length (records d)) (number header) (hash header)
           (newEvents (records d)) (systemEventsAtom st);
       prevHashes := {| block := Some (hash header);
                        event := Some (eventHash (newEvents (records d))) |} |}.
Proof.
  intros [Hmade [Hhead [Hsame Hnodup]]] Hne.
  set (built := map (toKeyed (number header) (hash header)) (newEvents (records d))).
  set (kept := filter (otherHeight (number header)) (events (systemEventsAtom st))).
  assert (Hbuilt : forall p, In p built ->
            blockNumber p = Some (number header) /\
            blockHash p = Some (hash header) /\
            key p = makeKey (number header) (hash header) (indexes (keyed p))).
  { intros p Hp. apply in_map_iff in Hp. destruct Hp as [e [<- _]]. auto. }
  assert (Hkept : forall p, In p kept ->
            In p (events (systemEventsAtom st)) /\
            blockNumber p <> Some (number header)).
  { intros p Hp. apply filter_In in Hp. now rewrite otherHeight_true in Hp. }
  assert (Hin : forall p,
            In p (firstn MAX_EVENTS (built ++ kept)) -> In p built \/ In p kept).
  { intros p Hp. apply in_firstn in Hp. now apply in_app_or in Hp. }
  unfold wellKept, storeBlock. cbn [systemEventsAtom events prevHashes block].
  fold built kept. split; [|split; [|split]].
  - apply Forall_forall. intros p Hp. destruct (Hin p Hp) as [Hb|Hk].
    + destruct (Hbuilt p Hb) as [Hn [Hh Hkey]]. eauto.
    + rewrite Forall_forall in Hmade. apply Hmade. now apply Hkept.
  - unfold built. destruct (newEvents (records d)) as [|e rest];
      [contradiction|]. reflexivity.
  - intros p q Hp Hq Hnum.
    destruct (Hin p Hp) as [Hpb|Hpk], (Hin q Hq) as [Hqb|Hqk].
    + destruct (Hbuilt p Hpb) as [_ [-> _]].
      now destruct (Hbuilt q Hqb) as [_ [-> _]].
    + destruct (Hbuilt p Hpb) as [Hn _]. destruct (Hkept q Hqk) as [_ Hq'].
      congruence.
    + destruct (Hbuilt q Hqb) as [Hn _]. destruct (Hkept p Hpk) as [_ Hp'].
      congruence.
    + apply Hsame; [now apply Hkept|now apply Hkept|exact Hnum].
  - rewrite <- firstn_map. apply NoDup_firstn. rewrite map_app.
    apply NoDup_app.
    + unfold built. rewrite map_map. cbn [blockNumber keyed toKeyed].
      rewrite <- (map_map indexes (fun ix => (Some (number header), ix))).
      apply NoDup_map_injective; [|apply newEvents_indexes_distinct].
      intros x y Hxy. now inversion Hxy.
    + now apply filter_images_distinct.
    + intros a Ha Hb. apply in_map_iff in Ha. destruct Ha as [p [<- Hp]].
      apply in_map_iff in Hb. destruct Hb as [q [Hq Hqk]].
      destruct (Hbuilt p Hp) as [Hn _]. destruct (Hkept q Hqk) as [_ Hq'].
      inversion Hq. congruence.
Qed.

Lemma onRecords_wellKept (d : Delivery) (st : Ingestion) :
  wellKept st -> wellKept (onRecords eventHash d st).
Proof.
  intro Hst. destruct (onRecords_cases d st) as [[Ha Hp]|[[Ha Hb]|Hstore]].
  - destruct Hst as [Hmade [Hhead [Hsame Hnodup]]].
    unfold wellKept. rewrite Ha, Hp. exact (conj Hmade (conj Hhead (conj Hsame Hnodup))).
  - destruct Hst as [Hmade [Hhead [Hsame Hnodup]]].
    unfold wellKept. rewrite Ha, Hb.
    exact (conj Hmade (conj Hhead (conj Hsame Hnodup))).
  - destruct Hstore as [header [_ [Hne ->]]]. now apply storeBlock_wellKept.
Qed.

Lemma onAllRecords_wellKept (ds : list Delivery) (st : Ingestion) :
  wellKept st -> wellKept (onAllRecords eventHash ds st).
Proof.
  revert st. unfold onAllRecords.
  induction ds as [|d ds IH]; intros st Hst; simpl; [exact Hst|].
  apply IH. now apply onRecords_wellKept.
Qed.

Lemma initial_wellKept : wellKept initial.
Proof.
  unfold wellKept. simpl. repeat split; try constructor. contradiction.
Qed.

(** X4. After any deliveries from the hook's first state, the block-hash
    tracker is the block hash of the first stored event ([null] while
    nothing is stored), and two stored events with the same block number
    have the same block hash: the log never holds two blocks of one
    height. *)
Theorem log_tracks_one_block_per_height (ds : list Delivery) :
  let st := onAllRecords eventHash ds initial in
  block (prevHashes st)
  = match events (systemEventsAtom st) with
    | [] => None
    | p :: _ => blockHash p
    end /\
  forall p q,
    In p (events (systemEventsAtom st)) ->
    In q (events (systemEventsAtom st)) ->
    blockNumber p = blockNumber q -> blockHash p = blockHash q.
Proof.
  destruct (onAllRecords_wellKept ds initial initial_wellKept)
    as [_ [Hhead [Hsame _]]].
  split; [exact Hhead|exact Hsame].
Qed.

End LogInvariants.

(** ** Keys *)
Section KeyTheory.
Import Events Text.

Lemma allDigits_uint (d : Decimal.uint) :
  allDigits (NilEmpty.string_of_uint d) = true.
Proof.
  induction d; simpl; auto.
Qed.

Lemma to_uint_nonnil (n : N) : N.to_uint n <> Decimal.Nil.
Proof.
  destruct n as [|p]; simpl; [discriminate|].
  apply DecimalPos.Unsigned.to_uint_nonnil.
Qed.

Lemma decimal_NilEmpty (n : N) :
  decimal n = NilEmpty.string_of_uint (N.to_uint n).
Proof.
  unfold decimal, NilZero.string_of_uint.
  pose proof (to_uint_nonnil n) as Hn.
  destruct (N.to_uint n); [contradiction|reflexivity..].
Qed.

Lemma decimal_digits (n : N) : allDigits (decimal n) = true.
Proof.
  rewrite decimal_NilEmpty. apply allDigits_uint.
Qed.

Lemma decimal_nonempty (n : N) : decimal n <> "".
Proof.
  rewrite decimal_NilEmpty. pose proof (to_uint_nonnil n) as Hn.
  destruct (N.to_uint n); [contradiction|discriminate..].
Qed.

Lemma decimal_inj (n m : N) : decimal n = decimal m -> n = m.
Proof.
  rewrite !decimal_NilEmpty. intro H.
  apply DecimalN.Unsigned.to_uint_inj.
  assert (Hs : Some (N.to_uint n) = Some (N.to_uint m))
    by (rewrite <- !NilEmpty.usu; now rewrite H).
  now inversion Hs.
Qed.

(** Two texts of digits, each followed by the same character that is not a
    digit: the digits and what follows them are told apart. *)
Lemma digits_then_mark (c : ascii) (a b x y : string) :
  isDigit c = false -> allDigits a = true -> allDigits b = true ->
  (a ++ String c x)%string = (b ++ String c y)%string -> a = b /\ x = y.
Proof.
  intro Hc. revert b. induction a as [|ca a IH]; intros [|cb b] Ha Hb Heq;
    simpl in *.
  - inversion Heq. auto.
  - inversion Heq; subst. apply andb_true_iff in Hb. destruct Hb as [Hb _].
    congruence.
  - inversion Heq; subst. apply andb_true_iff in Ha. destruct Ha as [Ha _].
    congruence.
  - inversion Heq; subst.
    apply andb_true_iff in Ha. apply andb_true_iff in Hb.
    destruct (IH b (proj2 Ha) (proj2 Hb) H1) as [-> ->]. auto.
Qed.

Lemma digits_without_mark (c : ascii) (a x : string) :
  isDigit c = false -> allDigits (a ++ String c x) = false.
Proof.
  intro Hc. induction a as [|ca a IH]; simpl.
  - now rewrite Hc.
  - rewrite IH. apply andb_false_r.
Qed.

Lemma append_cancel (a x y : string) :
  (a ++ x)%string = (a ++ y)%string -> x = y.
Proof.
  induction a as [|c a IH]; simpl; intro H; [exact H|].
  inversion H. auto.
Qed.

(** [indexes.join('.')] tells index lists apart. *)
Lemma join_inj (l1 l2 : list nat) :
  String.concat "." (map (fun i => decimal (N.of_nat i)) l1)
  = String.concat "." (map (fun i => decimal (N.of_nat i)) l2) ->
  l1 = l2.
Proof.
  revert l2. induction l1 as [|x l1 IH]; intros [|y l2] Heq.
  - reflexivity.
  - exfalso. simpl in Heq. destruct (map _ l2).
    + symmetry in Heq. now apply decimal_nonempty in Heq.
    + pose proof (decimal_nonempty (N.of_nat y)) as Hy.
      destruct (decimal (N.of_nat y)); [contradiction|discriminate].
  - exfalso. simpl in Heq. destruct (map _ l1).
    + now apply decimal_nonempty in Heq.
    + pose proof (decimal_nonempty (N.of_nat x)) as Hx.
      destruct (decimal (N.of_nat x)); [contradiction|discriminate].
  - destruct l1 as [|x' l1], l2 as [|y' l2].
    + simpl in Heq. apply decimal_inj in Heq. apply Nat2N.inj in Heq.
      now subst.
    + exfalso. cbn [map String.concat] in Heq.
      pose proof (decimal_digits (N.of_nat x)) as Hx. rewrite Heq in Hx.
      change ("." ++ ?r)%string with (String "."%char r) in Hx.
      now rewrite digits_without_mark in Hx.
    + exfalso. cbn [map String.concat] in Heq.
      pose proof (decimal_digits (N.of_nat y)) as Hy. rewrite <- Heq in Hy.
      change ("." ++ ?r)%string with (String "."%char r) in Hy.
      now rewrite digits_without_mark in Hy.
    + change (String.concat "." (map (fun i => decimal (N.of_nat i)) (x :: x' :: l1)))
        with (decimal (N.of_nat x)
              ++ String "."%char
                   (String.concat "." (map (fun i => decimal (N.of_nat i)) (x' :: l1))))%string
        in Heq.
      change (String.concat "." (map (fun i => decimal (N.of_nat i)) (y :: y' :: l2)))
        with (decimal (N.of_nat y)
              ++ String "."%char
                   (String.concat "." (map (fun i => decimal (N.of_nat i)) (y' :: l2))))%string
        in Heq.
      apply digits_then_mark in Heq; auto using decimal_digits.
      destruct Heq as [Hxy Hrest]. apply decimal_inj, Nat2N.inj in Hxy.
      apply IH in Hrest. congruence.
Qed.

Lemma makeKey_number (n n' : N) (h h' : string) (ix ix' : list nat) :
  makeKey n h ix = makeKey n' h' ix' -> n = n'.
Proof.
  unfold makeKey.
  change ("-" ++ ?r)%string with (String "-"%char r).
  intro Heq. apply digits_then_mark in Heq; auto using decimal_digits.
  now apply decimal_inj.
Qed.

Lemma makeKey_indexes (n : N) (h : string) (ix ix' : list nat) :
  makeKey n h ix = makeKey n h ix' -> ix = ix'.
Proof.
  unfold makeKey. intro Heq.
  do 4 apply append_cancel in Heq. now apply join_inj.
Qed.

End KeyTheory.

Section KeyInvariant.
Import Events.

Variable eventHash : list IndexedEvent -> string.

Lemma NoDup_map_by {A B C : Type} (f : A -> B) (g : A -> C) (l : list A) :
  (forall x y, In x l -> In y l -> g x = g y -> f x = f y) ->
  NoDup (map f l) -> NoDup (map g l).
Proof.
  induction l as [|x l IH]; simpl; intros Hfg Hnd; [constructor|].
  inversion Hnd as [|? ? Hx Hl]; subst. constructor.
  - intro Hin. apply in_map_iff in Hin. destruct Hin as [y [Hy Hyl]].
    apply Hx. apply in_map_iff. exists y. split; [|exact Hyl].
    symmetry. apply Hfg; auto.
  - apply IH; [|exact Hl]. intros a b Ha Hb. apply Hfg; auto.
Qed.

(** X5. After any deliveries from the hook's first state, every stored
    event has its block number and block hash set and its [key] is the text
    made from them and its indexes, and no two stored events share a
    [key]. *)
Theorem stored_keys_unique (ds : list Delivery) :
  let stored := events (systemEventsAtom (onAllRecords eventHash ds initial)) in
  (forall p, In p stored ->
     exists n h,
       blockNumber p = Some n /\ blockHash p = Some h /\
       key p = makeKey n h (indexes (keyed p))) /\
  NoDup (map key stored).
Proof.
  destruct (onAllRecords_wellKept eventHash ds initial initial_wellKept)
    as [Hmade [_ [Hsame Hnodup]]].
  rewrite Forall_forall in Hmade.
  split; [exact Hmade|].
  apply (NoDup_map_by (fun p => (blockNumber p, indexes (keyed p))));
    [|exact Hnodup].
  intros p q Hp Hq Hkey.
  destruct (Hmade p Hp) as [n [h [Hn [Hh Hk]]]].
  destruct (Hmade q Hq) as [n' [h' [Hn' [Hh' Hk']]]].
  rewrite Hk, Hk' in Hkey.
  assert (Hnn : n = n') by (eapply makeKey_number; eassumption).
  subst n'.
  assert (Hhh : h = h').
  { assert (Hb : blockHash p = blockHash q) by (apply Hsame; congruence).
    congruence. }
  subst h'. apply makeKey_indexes in Hkey. congruence.
Qed.

End KeyInvariant.

Section RedeliveryTheory.
Import Events.

Variable eventHash : list IndexedEvent -> string.

(** X6. A batch delivered again right after itself, the same in every
    field of every record ([phase], event and [topics]), whatever the header
    request gives the second time, only sets [eventCount]: the second run
    leaves the stored events and both trackers as the first run left
    them. *)
Theorem redelivery_counts_only (d d' : Delivery) (st : Ingestion) :
  records d' = records d ->
  onRecords eventHash d' (onRecords eventHash d st)
  = {| systemEventsAtom :=
         {| eventCount := List.length (records d);
            events := events (systemEventsAtom (onRecords eventHash d st)) |};
       prevHashes := prevHashes (onRecords eventHash d st) |}.
Proof.
  intro Hrec.
  rewrite (onRecords_count_only eventHash d' (onRecords eventHash d st));
    rewrite Hrec; [reflexivity|].
  destruct (newEvents (records d)) as [|e rest] eqn:Hne; [now left|right].
  unfold onRecords. rewrite Hne.
  destruct (differs (eventHash (e :: rest)) (event (prevHashes st))) eqn:Hev;
    cbn [andb List.length Nat.eqb negb].
  - destruct (getHeader d) as [header|]; [|reflexivity].
    cbn [block]. destruct (differs (hash header) (block (prevHashes st)));
      reflexivity.
  - cbn [prevHashes]. now apply differs_false.
Qed.

End RedeliveryTheory.

(** ** Every course of a submission *)
Section TxInvariants.
Import Tx.

Variable hashToHuman : string -> AnyJson.
Variable eventsToHuman : SubmittableResult -> AnyJson.

Local Abbreviation callback := (callback hashToHuman eventsToHuman).
Local Abbreviation notify := (notify hashToHuman eventsToHuman).
Local Abbreviation signAndSend := (signAndSend hashToHuman eventsToHuman).

Lemma callback_terminal_settles (r : SubmittableResult) :
  terminal r = true ->
  unsubCalls (callback r subscribed) = 1%nat /\
  promise (callback r subscribed) <> Pending.
Proof.
  unfold terminal, Tx.callback. destruct (status r); try discriminate; intros _.
  - destruct (scanError (events r)); simpl; split; [reflexivity|discriminate
                                                   |reflexivity|discriminate].
  - simpl. split; [reflexivity|discriminate].
Qed.

Lemma notify_subscribed (ns : list SubmittableResult) :
  (forallb (fun x => negb (terminal x)) ns = true /\
   notify ns subscribed = subscribed) \/
  (forallb (fun x => negb (terminal x)) ns = false /\
   unsubCalls (notify ns subscribed) = 1%nat /\
   promise (notify ns subscribed) <> Pending).
Proof.
  induction ns as [|r ns IH].
  - left. auto.
  - cbn [forallb Tx.notify]. change (unsubCalls subscribed =? 0)%nat with true.
    cbv iota. destruct (terminal r) eqn:Hr; cbn [negb andb].
    + right. split; [reflexivity|].
      destruct (callback_terminal_settles r Hr) as [Hu Hp].
      rewrite notify_unsubscribed by (rewrite Hu; discriminate). auto.
    + rewrite (callback_not_terminal _ _ r subscribed Hr). exact IH.
Qed.

Lemma unsub_pending_aux (ns : list SubmittableResult) :
  forallb (fun x => negb (terminal x)) ns = true ->
  promise (signAndSend (Resolves tt) ns) = Pending.
Proof.
  intro Hall. change (signAndSend (Resolves tt) ns) with (notify ns subscribed).
  destruct (notify_subscribed ns) as [[_ ->]|[Hex _]]; [reflexivity|congruence].
Qed.

(** X7. Whatever the subscription and the notifications, [unsub] is called
    at most once, and it has been called exactly when the promise is
    settled; with a subscription, the promise stays pending exactly when no
    notification is [InBlock] or [Invalid] (so a submission that is only
    ever reported as dropped, usurped or finalized never settles). *)
Theorem unsub_iff_settled (subscription : Awaited unit)
    (ns : list SubmittableResult) :
  let s := signAndSend subscription ns in
  ((unsubCalls s = 0%nat /\ promise s = Pending) \/
   (unsubCalls s = 1%nat /\ promise s <> Pending)) /\
  (promise (signAndSend (Resolves tt) ns) = Pending <->
   forallb (fun x => negb (terminal x)) ns = true).
Proof.
  assert (Hsub : forall u, signAndSend (Resolves u) ns = notify ns subscribed)
    by reflexivity.
  split.
  - destruct subscription as [u|e].
    + rewrite Hsub. destruct (notify_subscribed ns) as [[_ ->]|[_ H]].
      * left. auto.
      * right. exact H.
    + left. split; reflexivity.
  - rewrite Hsub. destruct (notify_subscribed ns) as [[Hall ->]|[Hex [_ Hp]]].
    + split; auto.
    + split; [intro H; contradiction|intro H; congruence].
Qed.

End TxInvariants.

(** ** More on the connection *)
Section ConnMore.
Import Conn.

(** X8. When the effect runs after a handler that cleared the endpoint
    (transport error, disconnect, API error, or the timer when the status
    was not [connected]), the four atoms are back at their first values:
    the status is [disconnected] and the message is empty, so neither the
    status [error] nor the message set by the handler outlives that run of
    the effect; and the effect registers no timer then. *)
Theorem effect_after_cleared_endpoint (w : World) (s : Signal) (due : N) :
  (clearsEndpoint s = true ->
   atoms (handle RunEffect (handle s w)) = initialAtoms /\
   timers (handle RunEffect (handle s w)) = timers w) /\
  (In due (timers w) -> rpcApiStatusAtom (atoms w) <> connected ->
   atoms (advanceTo due w) = timedOut /\
   atoms (effect (advanceTo due w)) = initialAtoms).
Proof.
  split.
  - destruct s; try discriminate; intros _; split; reflexivity.
  - intros Hin Hst.
    assert (Hfired : atoms (advanceTo due w) = timedOut).
    { rewrite (advanceTo_fires due due w Hin (N.le_refl _)).
      now rewrite (onTimeout_otherwise _ Hst). }
    split; [exact Hfired|].
    unfold effect. cbn [atoms]. rewrite Hfired. reflexivity.
Qed.

Lemma effect_keeps_timers (w : World) (due : N) :
  In due (timers w) -> In due (timers (effect w)).
Proof.
  intro Hin. unfold effect. cbn [timers].
  destruct (rpcEndpointAtom (atoms w) =? ""); [exact Hin|].
  apply in_or_app. now left.
Qed.

(** X9. The effect clears no timer: one registered by an earlier run is
    still registered after a new run, and when it comes due it ends the new
    attempt (status [error], endpoint and API instance cleared, timeout
    message), however short a time after that attempt began, unless the
    status is [connected] by then. *)
Theorem earlier_timer_ends_new_attempt (w : World) (due : N)
    (trace : list (N * Signal)) :
  In due (timers w) ->
  rpcEndpointAtom (atoms w) <> "" ->
  Forall (fun ts => (fst ts < due)%N) trace ->
  rpcApiStatusAtom (atoms (effect w)) = connecting /\
  In due (timers (run trace (effect w))) /\
  (rpcApiStatusAtom (atoms (run trace (effect w))) <> connected ->
   atoms (advanceTo due (run trace (effect w))) = timedOut).
Proof.
  intros Hin Hurl Htrace. apply String.eqb_neq in Hurl.
  assert (Hpending : In due (timers (run trace (effect w)))).
  { apply run_keeps_timer; [|exact Htrace]. now apply effect_keeps_timers. }
  split; [|split; [exact Hpending|]].
  - unfold effect, effectAtoms. cbn [atoms]. now rewrite Hurl.
  - intro Hst. rewrite (advanceTo_fires due due _ Hpending (N.le_refl _)).
    now apply onTimeout_otherwise.
Qed.

Lemma onTimeout_not_connecting (a : Atoms) :
  rpcApiStatusAtom (onTimeout a) = connected -> rpcApiStatusAtom a = connected.
Proof.
  unfold onTimeout. destruct (rpcApiStatusAtom a); simpl; auto; discriminate.
Qed.

Lemma timers_not_connecting (dues : list N) (a : Atoms) :
  rpcApiStatusAtom (fold_left (fun a _ => onTimeout a) dues a) = connected ->
  rpcApiStatusAtom a = connected.
Proof.
  revert a. induction dues as [|d dues IH]; intros a; simpl; [auto|].
  intro H. apply IH in H. now apply onTimeout_not_connecting.
Qed.

(** X10. The status is [connected] only through the handler of
    ['connected']: after any course of signals and time, a status
    [connected] that was not there at the start means that the signal
    occurred. Nothing else in the hook, the timer included, sets it. *)
Theorem connected_only_by_signal (trace : list (N * Signal)) (w : World) :
  rpcApiStatusAtom (atoms (run trace w)) = connected ->
  rpcApiStatusAtom (atoms w) = connected \/
  exists t, In (t, ApiConnected) trace.
Proof.
  revert w. unfold run.
  induction trace as [|[t s] trace IH]; intros w Hc; simpl in *; [now left|].
  destruct (IH _ Hc) as [Hnow|[t' Hin]]; [|right; exists t'; now right].
  unfold deliver in Hnow. cbn [fst snd] in Hnow.
  assert (Hadv : rpcApiStatusAtom (atoms (advanceTo t w)) = connected ->
                 rpcApiStatusAtom (atoms w) = connected).
  { unfold advanceTo. cbn [atoms]. apply timers_not_connecting. }
  destruct s; cbn [handle] in Hnow.
  - left. apply Hadv. exact Hnow.
  - left. apply Hadv. unfold effect, effectAtoms in Hnow. cbn [atoms] in Hnow.
    destruct (rpcEndpointAtom (atoms (advanceTo t w)) =? ""); discriminate.
  - left. apply Hadv. exact Hnow.
  - right. exists t. now left.
  - left. apply Hadv. unfold onAtoms, apiOnDisconnected in Hnow.
    cbn [atoms rpcApiStatusAtom] in Hnow.
    destruct (rpcApiStatusAtom (atoms (advanceTo t w))); simpl in Hnow;
      try discriminate; reflexivity.
  - discriminate.
  - left. apply Hadv. exact Hnow.
Qed.

End ConnMore.

(** ** More on polling *)
Section PollingMore.
Import Barrier.
Local Open Scope Z_scope.

Variable T : Type.
Variable truthy : T -> bool.

Local Abbreviation loop := (loop T truthy).
Local Abbreviation checkUntil := (checkUntil T truthy).
Local Abbreviation falsyBefore := (falsyBefore T truthy).

Lemma loop_calls_bound (t0 timeout : Z) (calls : list (Z * Awaited T)) :
  Forall (fun c => 0 <= fst c) calls ->
  forall now n,
    (S (S n) <= evaluations (loop t0 timeout calls now n))%nat ->
    now - t0
    + POLL_MS * (Z.of_nat (evaluations (loop t0 timeout calls now n))
                 - Z.of_nat n - 2)
    < timeout.
Proof.
  induction 1 as [|[took [v|e]] rest Htook Hrest IH]; intros now n;
    cbn [Barrier.loop evaluations]; try lia.
  destruct (truthy v); cbn [evaluations]; [lia|].
  destruct (now + took - t0 >=? timeout) eqn:Hd; cbn [evaluations]; [lia|].
  rewrite Z.geb_leb in Hd. apply Z.leb_gt in Hd. cbn [fst] in Htook.
  intros _.
  pose proof (loop_evaluates T truthy t0 timeout rest
                (sleep POLL_MS (now + took)) (S n)) as Hge.
  destruct (Nat.eq_dec
              (evaluations (loop t0 timeout rest (sleep POLL_MS (now + took)) (S n)))
              (S (S n))) as [Heq|Hne].
  - rewrite Heq. unfold POLL_MS. lia.
  - specialize (IH (sleep POLL_MS (now + took)) (S n)).
    unfold sleep, POLL_MS in *. lia.
Qed.

Lemma loop_awaiting (t0 timeout : Z) (calls : list (Z * Awaited T)) :
  Forall (fun c => 0 <= fst c) calls ->
  forall now n,
    outcome (loop t0 timeout calls now n) = Awaiting ->
    calls <> [] ->
    now - t0 + POLL_MS * (Z.of_nat (List.length calls) - 1) < timeout.
Proof.
  induction 1 as [|[took [v|e]] rest Htook Hrest IH]; intros now n;
    cbn [Barrier.loop outcome]; try (intros; congruence).
  destruct (truthy v); cbn [outcome]; [discriminate|].
  destruct (now + took - t0 >=? timeout) eqn:Hd; cbn [outcome]; [discriminate|].
  rewrite Z.geb_leb in Hd. apply Z.leb_gt in Hd. cbn [fst] in Htook.
  intros Hw _.
  destruct rest as [|c rest'].
  - cbn [List.length]. unfold POLL_MS. lia.
  - specialize (IH (sleep POLL_MS (now + took)) (S n) Hw ltac:(discriminate)).
    cbn [List.length] in *. unfold sleep, POLL_MS in *. lia.
Qed.

(** X11. When no call of [async_fn] takes negative time, the polls are at
    least 100 ms apart, so their number is bounded by the timeout: a run
    that made [e >= 2] calls has [100 * (e - 2) < timeout]; and a run does
    not wait for ever while [async_fn] keeps settling: given answers for
    [timeout / 100 + 1] calls or more, it returns or throws. *)
Theorem checkUntil_bounded (calls : list (Z * Awaited T)) (timeout now : Z) :
  Forall (fun c => 0 <= fst c) calls ->
  ((2 <= evaluations (checkUntil calls timeout now))%nat ->
   POLL_MS * (Z.of_nat (evaluations (checkUntil calls timeout now)) - 2)
   < timeout) /\
  (calls <> [] ->
   timeout <= POLL_MS * (Z.of_nat (List.length calls) - 1) ->
   outcome (checkUntil calls timeout now) <> Awaiting).
Proof.
  intro Htook. unfold Barrier.checkUntil. split.
  - intro He. pose proof (loop_calls_bound now timeout calls Htook now 0%nat He).
    unfold POLL_MS in *. lia.
  - intros Hne Hlen Hw.
    pose proof (loop_awaiting now timeout calls Htook now 0%nat Hw Hne).
    unfold POLL_MS in *. lia.
Qed.

Lemma loop_longer_timeout (t0 t1 t2 : Z) (calls : list (Z * Awaited T)) :
  t1 <= t2 ->
  forall now n,
    outcome (loop t0 t1 calls now n) <> Threw (NewError "timeout") ->
    loop t0 t2 calls now n = loop t0 t1 calls now n.
Proof.
  intro Hle. induction calls as [|[took [v|e]] rest IH]; intros now n;
    simpl; try reflexivity.
  destruct (truthy v); [reflexivity|].
  destruct (now + took - t0 >=? t1) eqn:H1; simpl; [congruence|].
  rewrite Z.geb_leb in H1. apply Z.leb_gt in H1.
  assert (H2 : (now + took - t0 >=? t2) = false)
    by (rewrite Z.geb_leb; apply Z.leb_gt; lia).
  rewrite H2. apply IH.
Qed.

(** X12. A longer timeout changes nothing in a run that did not time out:
    if [checkUntil] with one timeout returned, threw the error of
    [async_fn], or is still waiting, then with any larger timeout it takes
    the same course, call for call. *)
Theorem checkUntil_longer_timeout (calls : list (Z * Awaited T))
    (t1 t2 now : Z) :
  t1 <= t2 ->
  outcome (checkUntil calls t1 now) <> Threw (NewError "timeout") ->
  checkUntil calls t2 now = checkUntil calls t1 now.
Proof.
  intros Hle Hout. unfold Barrier.checkUntil. now apply loop_longer_timeout.
Qed.

Lemma loop_rejected (t0 timeout : Z) (calls : list (Z * Awaited T)) (e : string) :
  forall now n,
    outcome (loop t0 timeout calls now n) = Threw (External e) ->
    exists k took,
      evaluations (loop t0 timeout calls now n) = S (n + k) /\
      nth_error calls k = Some (took, Rejects e) /\
      falsyBefore calls k.
Proof.
  induction calls as [|[took [v|e']] rest IH]; intros now n; simpl;
    try discriminate.
  - destruct (truthy v) eqn:Hv; simpl; [discriminate|].
    destruct (now + took - t0 >=? timeout); simpl; [discriminate|].
    intro Hthrow. destruct (IH _ _ Hthrow) as [k [tk [He [Hn Hf]]]].
    exists (S k), tk. rewrite He. simpl.
    repeat split; auto using falsyBefore_S; try lia.
  - intro Hthrow. injection Hthrow as ->. exists 0%nat, took.
    rewrite Nat.add_0_r. repeat split; auto using falsyBefore_0.
Qed.

Lemma loop_rejects (t0 timeout : Z) (calls : list (Z * Awaited T)) (e : string) :
  forall now n k took,
    nth_error calls k = Some (took, Rejects e) ->
    falsyBefore calls k ->
    (forall j, (j < k)%nat -> readingAfter T calls j now - t0 < timeout) ->
    outcome (loop t0 timeout calls now n) = Threw (External e) /\
    evaluations (loop t0 timeout calls now n) = S (n + k).
Proof.
  induction calls as [|[took0 a0] rest IH]; intros now n k took Hn Hf Ht.
  - destruct k; discriminate.
  - destruct k as [|k]; simpl in Hn.
    + injection Hn as -> ->. simpl. split; [reflexivity|lia].
    + destruct (Hf 0%nat ltac:(lia)) as [t' [v' [H0 Hv']]].
      simpl in H0. injection H0 as <- ->. simpl. rewrite Hv'.
      specialize (Ht 0%nat ltac:(lia)) as Ht0. simpl in Ht0.
      destruct (now + took0 - t0 >=? timeout) eqn:Hd.
      { apply Z.geb_le in Hd. lia. }
      destruct (IH (sleep POLL_MS (now + took0)) (S n) k took Hn) as [Ho He].
      * intros j Hj. apply (Hf (S j)). lia.
      * intros j Hj. apply (Ht (S j)). lia.
      * split; [exact Ho|]. rewrite He. lia.
Qed.

(** X13. A call of [async_fn] that rejects ends [checkUntil] with that
    very error and stops the polling: the run throws the error of
    [async_fn] exactly when the last call it made rejected with it, the
    calls before having resolved falsy before the deadline; such an end is
    never the timeout error. *)
Theorem checkUntil_rejection (calls : list (Z * Awaited T))
    (timeout now : Z) (e : string) :
  (outcome (checkUntil calls timeout now) = Threw (External e) ->
   exists k took,
     evaluations (checkUntil calls timeout now) = S k /\
     nth_error calls k = Some (took, Rejects e) /\
     falsyBefore calls k) /\
  (forall k took,
     nth_error calls k = Some (took, Rejects e) ->
     falsyBefore calls k ->
     (forall j, (j < k)%nat -> readingAfter T calls j now - now < timeout) ->
     outcome (checkUntil calls timeout now) = Threw (External e) /\
     evaluations (checkUntil calls timeout now) = S k).
Proof.
  unfold Barrier.checkUntil. split.
  - intro Hthrow. destruct (loop_rejected _ _ _ _ _ _ Hthrow) as [k [tk H]].
    exists k, tk. exact H.
  - intros k took Hn Hf Ht.
    exact (loop_rejects now timeout calls e now 0%nat k took Hn Hf Ht).
Qed.

End PollingMore.

(** ** More on the runner *)
Section RunnerMore.
Import Runner.

Lemma tryBlock_log (e : Env) (inputs : Dict) (rs : list MethodRunResult) :
  snd (tryBlock e inputs rs) = rs \/
  exists r m,
    tryBlock e inputs rs = (Next tt, r :: rs) /\
    currentMethod e = Some m /\ mutates m = false /\ methodSpec r = m.
Proof.
  unfold tryBlock, bind, await, awaitPromise, awaitBarrier, method_of,
    appendResult, dispatchResultsAtom, leave, throw, ret.
  destruct (currentMethod e) as [m|]; [|now left].
  destruct (negb (api e) || negb (account e)); [now left|].
  destruct (cloneIsReady e); [|now left].
  destruct (currentContract e); [|now left].
  destruct (create e) as [ci|]; [|now left].
  destruct (negb (present (prop (queryMethods ci) (label m)))
            && negb (present (prop (txMethods ci) (label m)))); [now left|].
  destruct (web3FromSource e); [|now left].
  destruct (mutates m) eqn:Hmut.
  - left. destruct (prop (txMethods ci) (label m)); try reflexivity.
    destruct (signAndSend e); try reflexivity.
    destruct (createPruntimeApi e); [|reflexivity].
    destruct (blockBarrier e); reflexivity.
  - destruct (signCertificate e); [|now left].
    destruct (prop (queryMethods ci) (label m)); try now left.
    destruct (query e) as [q|]; [|now left].
    right. destruct (resultIsOk q); eexists; exists m; repeat split;
      exact Hmut.
Qed.

(** X14. Whatever an invocation of the runner meets, the results already
    in the log stay, in place; at most one result is put in front of them,
    and only by an invocation of a method that does not mutate, which then
    ends normally; and [isLoading] is back to [false] exactly when the
    invocation settles. *)
Theorem fn_log_grows_by_read_only (e : Env) (inputs : Dict) (st : RunnerState) :
  (resultsAtom (snd (fn e inputs st)) = resultsAtom st \/
   exists r m,
     resultsAtom (snd (fn e inputs st)) = r :: resultsAtom st /\
     fst (fn e inputs st) = Done /\
     currentMethod e = Some m /\ mutates m = false /\ methodSpec r = m) /\
  (isLoading (snd (fn e inputs st)) = false <->
   fst (fn e inputs st) <> NeverSettles).
Proof.
  unfold fn. split.
  - destruct (tryBlock_log e inputs (resultsAtom st)) as [Hsame|[r [m [Hrun H]]]].
    + left. destruct (tryBlock e inputs (resultsAtom st)) as [[u| | |] rs];
        simpl in *; exact Hsame.
    + right. exists r, m. rewrite Hrun. simpl. tauto.
  - destruct (tryBlock e inputs (resultsAtom st)) as [[u| | |] rs]; simpl;
      split; intro H; try reflexivity; try discriminate; congruence.
Qed.

Lemma reachesSubmit_flow (e : Env) (inputs : Dict) (rs : list MethodRunResult) :
  reachesSubmit e ->
  tryBlock e inputs rs
  = bind (awaitPromise (signAndSend e))
      (fun _ => bind (await (createPruntimeApi e))
                  (fun _ => awaitBarrier (blockBarrier e))) rs.
Proof.
  intros [m [c [ci [name [Hm [Hapi [Hacc [Hclone [Hc [Hci [Hmut [Htx [Hname
            Hweb]]]]]]]]]]]]].
  apply String.eqb_neq in Hname.
  unfold tryBlock. rewrite Hm, Hapi, Hacc, Hclone, Hc, Hci, Hweb.
  unfold bind at 1 2 3. unfold prop. simpl. rewrite Htx, Hmut. simpl.
  rewrite Hname. rewrite andb_false_r. reflexivity.
Qed.

(** X15. An invocation of a mutating method that gets as far as the
    submission records no result, however it ends. While the promise of
    [signAndSend] is pending it never settles and [isLoading] stays [true]:
    so it is when the subscription of the extrinsic failed. A rejected
    submission ends it with the reason of the rejection; after a submission
    in a block it ends as the barrier does, with the timeout error when the
    barrier timed out. *)
Theorem fn_mutating (e : Env) (inputs : Dict) (st : RunnerState) :
  reachesSubmit e ->
  resultsAtom (snd (fn e inputs st)) = resultsAtom st /\
  (signAndSend e = Pending ->
   fn e inputs st
   = (NeverSettles, {| resultsAtom := resultsAtom st; isLoading := true |})) /\
  (forall h1 h2 x ns,
     signAndSend e = Tx.promise (Tx.signAndSend h1 h2 (Rejects x) ns) ->
     fn e inputs st
     = (NeverSettles, {| resultsAtom := resultsAtom st; isLoading := true |})) /\
  (forall r, signAndSend e = Rejected r ->
     fn e inputs st
     = (Failed r, {| resultsAtom := resultsAtom st; isLoading := false |})) /\
  (forall v r, signAndSend e = Fulfilled v ->
     createPruntimeApi e = Resolves tt -> blockBarrier e = Barrier.Threw r ->
     fn e inputs st
     = (Failed r, {| resultsAtom := resultsAtom st; isLoading := false |})) /\
  (forall v, signAndSend e = Fulfilled v ->
     createPruntimeApi e = Resolves tt -> blockBarrier e = Barrier.Returned ->
     fn e inputs st
     = (Done, {| resultsAtom := resultsAtom st; isLoading := false |})).
Proof.
  intro Hreach. unfold fn.
  rewrite (reachesSubmit_flow e inputs (resultsAtom st) Hreach).
  unfold bind, awaitPromise, await, awaitBarrier, throw, ret.
  split; [|split; [|split; [|split; [|split]]]].
  - destruct (signAndSend e); try reflexivity.
    destruct (createPruntimeApi e); try reflexivity.
    destruct (blockBarrier e); reflexivity.
  - intros ->. reflexivity.
  - intros h1 h2 x ns ->. reflexivity.
  - intros r ->. reflexivity.
  - intros v r -> -> ->. reflexivity.
  - intros v -> -> ->. reflexivity.
Qed.

End RunnerMore.

(** ** Stored contracts *)
Section ContractsTheory.
Import Contracts.
Local Open Scope Z_scope.

Lemma insertBy_perm {A : Type} (key : A -> Z) (x : A) (l : list A) :
  Permutation (insertBy key x l) (x :: l).
Proof.
  induction l as [|y l IH]; simpl; [reflexivity|].
  destruct (key x <=? key y); [reflexivity|].
  rewrite IH. apply perm_swap.
Qed.

Lemma sortBy_perm {A : Type} (key : A -> Z) (l : list A) :
  Permutation (sortBy key l) l.
Proof.
  induction l as [|x l IH]; simpl; [reflexivity|].
  rewrite insertBy_perm. now constructor.
Qed.

Lemma insertBy_sorted {A : Type} (key : A -> Z) (x : A) (l : list A) :
  StronglySorted (fun a b => key a <= key b) l ->
  StronglySorted (fun a b => key a <= key b) (insertBy key x l).
Proof.
  induction 1 as [|y l Hl IH Hy]; simpl.
  - repeat constructor.
  - destruct (key x <=? key y) eqn:Hxy.
    + apply Z.leb_le in Hxy. constructor.
      * now constructor.
      * constructor; [exact Hxy|].
        rewrite Forall_forall in *. intros z Hz. specialize (Hy z Hz). lia.
    + apply Z.leb_gt in Hxy. constructor; [exact IH|].
      rewrite Forall_forall in *. intros z Hz.
      apply (Permutation_in _ (insertBy_perm key x l)) in Hz.
      destruct Hz as [<-|Hz]; [lia|now apply Hy].
Qed.

Lemma sortBy_sorted {A : Type} (key : A -> Z) (l : list A) :
  StronglySorted (fun a b => key a <= key b) (sortBy key l).
Proof.
  induction l as [|x l IH]; simpl; [constructor|].
  now apply insertBy_sorted.
Qed.

Lemma StronglySorted_app_one {A : Type} (R : A -> A -> Prop) (l : list A)
    (x : A) :
  StronglySorted R l -> Forall (fun y => R y x) l ->
  StronglySorted R (l ++ [x]).
Proof.
  induction 1 as [|y l Hl IH Hy]; intro Hx; simpl.
  - repeat constructor.
  - inversion Hx as [|? ? Hyx Hlx]; subst. constructor.
    + now apply IH.
    + apply Forall_app. split; [exact Hy|]. now repeat constructor.
Qed.

Lemma StronglySorted_rev {A : Type} (R : A -> A -> Prop) (l : list A) :
  StronglySorted R l -> StronglySorted (fun a b => R b a) (rev l).
Proof.
  induction 1 as [|x l Hl IH Hx]; simpl; [constructor|].
  apply StronglySorted_app_one; [exact IH|].
  apply Forall_rev. exact Hx.
Qed.

(** X16. With an API instance and the on-chain listing resolved,
    [availableContractsAtom] gives exactly the stored contracts whose id is
    listed on chain, each once, ordered by [savedAt] from the latest to the
    earliest, a missing [savedAt] counting as 0. Without an API instance it
    gives the empty list and asks nothing; a rejected listing rejects it. *)
Theorem availableContracts_sorted (onChainKeys : list string)
    (onLocal : LocalContracts) :
  (exists result,
     availableContracts true (Resolves onChainKeys) onLocal = Resolves result /\
     Permutation result
       (filter (fun i => includes onChainKeys (fst i)) onLocal) /\
     (forall i, In i result <-> In i onLocal /\ In (fst i) onChainKeys) /\
     StronglySorted (fun a b => savedAtOr0 a >= savedAtOr0 b) result) /\
  (forall onChain, availableContracts false onChain onLocal = Resolves []) /\
  (forall e, availableContracts true (Rejects e) onLocal = Rejects e).
Proof.
  split; [|split; reflexivity].
  eexists. split; [reflexivity|].
  set (kept := filter (fun i => includes onChainKeys (fst i)) onLocal).
  assert (Hperm : Permutation (rev (sortBy savedAtOr0 kept)) kept).
  { rewrite <- Permutation_rev. apply sortBy_perm. }
  split; [exact Hperm|]. split.
  - intro i. split.
    + intro Hin. apply (Permutation_in _ Hperm) in Hin.
      apply filter_In in Hin. destruct Hin as [Hl Hk]. split; [exact Hl|].
      unfold includes in Hk. apply existsb_exists in Hk.
      destruct Hk as [k [Hk Heq]]. apply String.eqb_eq in Heq. now subst.
    + intros [Hl Hk]. apply (Permutation_in _ (Permutation_sym Hperm)).
      apply filter_In. split; [exact Hl|].
      unfold includes. apply existsb_exists. exists (fst i).
      split; [exact Hk|apply String.eqb_refl].
  - pose proof (StronglySorted_rev _ _ (sortBy_sorted savedAtOr0 kept)) as Hs.
    eapply StronglySorted_ind with (P := fun l =>
      StronglySorted (fun a b => savedAtOr0 a >= savedAtOr0 b) l);
      [constructor| |exact Hs].
    intros a l _ IH Ha. constructor; [exact IH|].
    rewrite Forall_forall in *. intros x Hx. specialize (Ha x Hx). lia.
Qed.

Lemma has_In (l : LocalContracts) (k : string) :
  has l k = true <-> In k (map fst l).
Proof.
  unfold has. rewrite existsb_exists, in_map_iff. split.
  - intros [i [Hi Hk]]. apply String.eqb_eq in Hk. now exists i.
  - intros [i [Hk Hi]]. exists i. split; [exact Hi|]. now apply String.eqb_eq.
Qed.

Lemma has_cons (k' : string) (v' : Runner.LocalContractInfo)
    (l : LocalContracts) (k : string) :
  has ((k', v') :: l) k = false -> (k' =? k)%string = false /\ has l k = false.
Proof.
  unfold has. simpl. intro H. now apply orb_false_iff in H.
Qed.

(** An array index is the decimal text of its number, so no two keys are
    the same array index. *)
Lemma arrayIndex_decimal (k : string) (n : N) :
  arrayIndex k = Some n -> k = Events.decimal n.
Proof.
  unfold arrayIndex. destruct (NilZero.uint_of_string k) as [u|]; [|discriminate].
  cbv zeta.
  destruct (Events.decimal (N.of_uint u) =? k)%string eqn:Hk; simpl;
    [|discriminate].
  destruct (N.of_uint u <? 4294967295)%N; [|discriminate].
  intro H. injection H as <-. apply String.eqb_eq in Hk. now symmetry.
Qed.

Lemma overwrite_keys (k : string) (v : Runner.LocalContractInfo)
    (l : LocalContracts) :
  map fst (overwrite k v l) = map fst l.
Proof.
  induction l as [|[k' v'] l IH]; simpl; [reflexivity|].
  destruct (k' =? k)%string eqn:Hk; simpl.
  - apply String.eqb_eq in Hk. now subst.
  - now rewrite IH.
Qed.

Lemma currentContract_overwrite (k : string) (v : Runner.LocalContractInfo)
    (l : LocalContracts) :
  has l k = true -> currentContract (overwrite k v l) k = Some v.
Proof.
  unfold has. induction l as [|[k' v'] l IH]; simpl; [discriminate|].
  destruct (k' =? k)%string eqn:Hk; simpl.
  - intros _. now rewrite String.eqb_refl.
  - intro H. rewrite Hk. now apply IH.
Qed.

Lemma currentContract_overwrite_other (k k'' : string)
    (v : Runner.LocalContractInfo) (l : LocalContracts) :
  k'' <> k -> currentContract (overwrite k v l) k'' = currentContract l k''.
Proof.
  intro Hne. induction l as [|[k' v'] l IH]; simpl; [reflexivity|].
  destruct (k' =? k)%string eqn:Hk; simpl.
  - apply String.eqb_eq in Hk. subst k'.
    apply not_eq_sym in Hne. apply String.eqb_neq in Hne. now rewrite Hne.
  - now rewrite IH.
Qed.

(** Where [insertIndex] puts the entry: the entries it passes are array
    indexes below [n]; the entry it stops at is none. *)
Lemma insertIndex_split (n : N) (entry : string * Runner.LocalContractInfo)
    (l : LocalContracts) :
  exists before after,
    l = before ++ after /\
    insertIndex n entry l = before ++ entry :: after /\
    Forall (fun i => exists m, arrayIndex (fst i) = Some m /\ (m < n)%N) before /\
    match after with
    | [] => True
    | i :: _ => forall m, arrayIndex (fst i) = Some m -> (n <= m)%N
    end.
Proof.
  induction l as [|[k v] l IH]; simpl.
  - exists [], []. repeat split; constructor.
  - destruct (arrayIndex k) as [m|] eqn:Hk.
    + destruct (m <? n)%N eqn:Hlt.
      * destruct IH as [before [after [Hl [Hins [Hb Ha]]]]].
        exists ((k, v) :: before), after. rewrite Hins, Hl at 1.
        repeat split; auto. constructor; [|exact Hb].
        exists m. split; [exact Hk|]. now apply N.ltb_lt.
      * exists [], ((k, v) :: l). repeat split; [constructor|].
        simpl. intros m' Hm'. rewrite Hk in Hm'. injection Hm' as <-.
        now apply N.ltb_ge.
    + exists [], ((k, v) :: l). repeat split; [constructor|].
      simpl. intros m' Hm'. congruence.
Qed.

Lemma currentContract_app (l1 l2 : LocalContracts) (k : string) :
  currentContract (l1 ++ l2) k
  = match currentContract l1 k with
    | Some v => Some v
    | None => currentContract l2 k
    end.
Proof.
  induction l1 as [|[k' v'] l1 IH]; simpl; [reflexivity|].
  now destruct (k' =? k)%string.
Qed.

Lemma currentContract_absent (l : LocalContracts) (k : string) :
  has l k = false -> currentContract l k = None.
Proof.
  unfold has. induction l as [|[k' v'] l IH]; simpl; [reflexivity|].
  intro H. apply orb_false_iff in H. destruct H as [Hk Hl].
  rewrite Hk. now apply IH.
Qed.

Lemma has_app (l1 l2 : LocalContracts) (k : string) :
  has (l1 ++ l2) k = has l1 k || has l2 k.
Proof.
  unfold has. apply existsb_app.
Qed.

(** A new key reads back wherever it was put, and leaves the others as
    they read. *)
Lemma currentContract_put (before after : LocalContracts) (k : string)
    (v : Runner.LocalContractInfo) :
  has (before ++ after) k = false ->
  currentContract (before ++ (k, v) :: after) k = Some v /\
  forall k', k' <> k ->
    currentContract (before ++ (k, v) :: after) k'
    = currentContract (before ++ after) k'.
Proof.
  intro Hno. rewrite has_app in Hno. apply orb_false_iff in Hno.
  destruct Hno as [Hb _]. split.
  - rewrite currentContract_app, (currentContract_absent _ _ Hb). simpl.
    now rewrite String.eqb_refl.
  - intros k' Hne. rewrite !currentContract_app. simpl.
    apply not_eq_sym in Hne. apply String.eqb_neq in Hne. now rewrite Hne.
Qed.

Lemma currentContract_assign (k : string) (v : Runner.LocalContractInfo)
    (l : LocalContracts) :
  currentContract (assign k v l) k = Some v.
Proof.
  unfold assign. destruct (has l k) eqn:Hhas.
  - now apply currentContract_overwrite.
  - destruct (arrayIndex k) as [n|].
    + destruct (insertIndex_split n (k, v) l) as [before [after [Hl [-> _]]]].
      subst l. now apply currentContract_put.
    + apply (currentContract_put l [] k v). now rewrite app_nil_r.
Qed.

Lemma currentContract_assign_other (k k' : string)
    (v : Runner.LocalContractInfo) (l : LocalContracts) :
  k' <> k -> currentContract (assign k v l) k' = currentContract l k'.
Proof.
  intro Hne. unfold assign. destruct (has l k) eqn:Hhas.
  - now apply currentContract_overwrite_other.
  - destruct (arrayIndex k) as [n|].
    + destruct (insertIndex_split n (k, v) l) as [before [after [Hl [-> _]]]].
      subst l. now apply currentContract_put.
    + pose proof (currentContract_put l [] k v) as Hput.
      rewrite app_nil_r in Hput. now apply Hput.
Qed.

(** Whether a key may follow the array index [n], and whether it may follow
    a key that is no array index. *)
Local Abbreviation above n :=
  (fun k' : string => match arrayIndex k' with
                      | Some m => (n <? m)%N
                      | None => true
                      end).
Local Abbreviation named :=
  (fun k' : string => match arrayIndex k' with
                      | Some _ => false
                      | None => true
                      end).

Lemma above_weaken (m n : N) (keys : list string) :
  (m <= n)%N -> forallb (above n) keys = true -> forallb (above m) keys = true.
Proof.
  intros Hle Hall. rewrite forallb_forall in *. intros k Hk.
  specialize (Hall k Hk). destruct (arrayIndex k) as [j|]; [|reflexivity].
  apply N.ltb_lt in Hall. apply N.ltb_lt. lia.
Qed.

Lemma named_above (n : N) (keys : list string) :
  forallb named keys = true -> forallb (above n) keys = true.
Proof.
  intro Hall. rewrite forallb_forall in *. intros k Hk.
  specialize (Hall k Hk). now destruct (arrayIndex k).
Qed.

(** The listing order is kept when a new array index is put in its place. *)
Lemma insertIndex_listed (n : N) (k : string) (v : Runner.LocalContractInfo)
    (l : LocalContracts) :
  arrayIndex k = Some n -> has l k = false ->
  listed (map fst l) = true ->
  listed (map fst (insertIndex n (k, v) l)) = true /\
  forall m, (m < n)%N -> forallb (above m) (map fst l) = true ->
            forallb (above m) (map fst (insertIndex n (k, v) l)) = true.
Proof.
  intros Hk. induction l as [|[k' v'] l IH]; intros Hno Hl.
  - simpl. rewrite Hk. split; [reflexivity|].
    intros m Hm _. apply N.ltb_lt in Hm. now rewrite Hm.
  - apply has_cons in Hno. destruct Hno as [Hne Hno].
    cbn [map fst listed] in Hl. apply andb_true_iff in Hl.
    destruct Hl as [Hhead Hrest].
    cbn [insertIndex]. destruct (arrayIndex k') as [m'|] eqn:Hk'.
    + destruct (m' <? n)%N eqn:Hlt.
      * destruct (IH Hno Hrest) as [IHl IHa].
        apply N.ltb_lt in Hlt. split.
        -- cbn [map fst listed]. rewrite Hk'. apply andb_true_iff.
           split; [now apply IHa|exact IHl].
        -- intros m Hm Hall. cbn [map fst forallb] in *.
           apply andb_true_iff in Hall. destruct Hall as [H1 H2].
           apply andb_true_iff. split; [exact H1|]. now apply IHa.
      * apply N.ltb_ge in Hlt.
        assert (Hneq : m' <> n).
        { intro Heq. subst m'. apply arrayIndex_decimal in Hk, Hk'.
          apply String.eqb_neq in Hne. congruence. }
        assert (Hgt : (n < m')%N) by lia.
        split.
        -- cbn [map fst listed]. rewrite Hk, Hk'. rewrite Hhead, Hrest.
           cbn [forallb]. rewrite Hk'.
           apply N.ltb_lt in Hgt. rewrite Hgt. cbn [andb].
           rewrite (above_weaken n m'); [reflexivity|lia|exact Hhead].
        -- intros m Hm Hall. cbn [map fst forallb] in *. rewrite Hk.
           apply N.ltb_lt in Hm. now rewrite Hm.
    + split.
      * cbn [map fst listed]. rewrite Hk, Hk'. rewrite Hhead, Hrest.
        cbn [forallb]. rewrite Hk'. cbn [andb].
        rewrite (named_above n); [reflexivity|exact Hhead].
      * intros m Hm Hall. cbn [map fst forallb] in *. rewrite Hk.
        apply N.ltb_lt in Hm. now rewrite Hm.
Qed.

(** The listing order is kept when a new key that is no array index goes
    last. *)
Lemma append_listed (k : string) (keys : list string) :
  arrayIndex k = None -> listed keys = true -> listed (keys ++ [k]) = true.
Proof.
  intro Hk. induction keys as [|k' keys IH]; intro Hl.
  - simpl. now rewrite Hk.
  - cbn [app listed] in *. apply andb_true_iff in Hl. destruct Hl as [Hhead Hrest].
    apply andb_true_iff. split; [|now apply IH].
    destruct (arrayIndex k'); rewrite forallb_app, Hhead; simpl; now rewrite Hk.
Qed.

Lemma insertIndex_perm (n : N) (entry : string * Runner.LocalContractInfo)
    (l : LocalContracts) :
  Permutation (insertIndex n entry l) (entry :: l).
Proof.
  destruct (insertIndex_split n entry l) as [before [after [-> [-> _]]]].
  symmetry. apply Permutation_middle.
Qed.

(** X17. Saving a contract with [{ ...exists, [id]: info }] and reading it
    back: [contracts[id]] is then [info] and every other id reads as before.
    An id already stored keeps its place, and the ids listed are the same. A
    new id that is no array index is listed last. A new id that is the array
    index [n] is listed after the array indexes below [n] and before every
    other id. The result lists its ids as an object does (array indexes
    first, ascending) if [exists] did, and the ids stay pairwise
    different. *)
Theorem assign_then_read (k : string) (v : Runner.LocalContractInfo)
    (l : LocalContracts) :
  currentContract (assign k v l) k = Some v /\
  (forall k', k' <> k ->
     currentContract (assign k v l) k' = currentContract l k') /\
  (In k (map fst l) -> map fst (assign k v l) = map fst l) /\
  (~ In k (map fst l) -> arrayIndex k = None -> assign k v l = l ++ [(k, v)]) /\
  (forall n,
     ~ In k (map fst l) -> arrayIndex k = Some n -> listed (map fst l) = true ->
     exists before after,
       l = before ++ after /\ assign k v l = before ++ (k, v) :: after /\
       Forall (fun i => exists m, arrayIndex (fst i) = Some m /\ (m < n)%N)
              before /\
       Forall (fun i => forall m, arrayIndex (fst i) = Some m -> (n < m)%N)
              after) /\
  (listed (map fst l) = true -> listed (map fst (assign k v l)) = true) /\
  (NoDup (map fst l) -> NoDup (map fst (assign k v l))).
Proof.
  split; [apply currentContract_assign|].
  split; [intros k' Hne; now apply currentContract_assign_other|].
  split.
  { intro Hin. apply has_In in Hin. unfold assign. rewrite Hin.
    apply overwrite_keys. }
  assert (Hnew : ~ In k (map fst l) -> has l k = false).
  { intro Hnot. destruct (has l k) eqn:Hhas; [|reflexivity].
    apply has_In in Hhas. contradiction. }
  split.
  { intros Hnot Hk. unfold assign. now rewrite (Hnew Hnot), Hk. }
  split.
  { intros n Hnot Hk Hl. unfold assign. rewrite (Hnew Hnot), Hk.
    destruct (insertIndex_split n (k, v) l) as [before [after [Hsplit [Hins [Hb Ha]]]]].
    exists before, after. split; [exact Hsplit|]. split; [exact Hins|].
    split; [exact Hb|].
    destruct (insertIndex_listed n k v l Hk (Hnew Hnot) Hl) as [Hl' _].
    rewrite Hins, map_app in Hl'. cbn [map fst] in Hl'.
    clear - Hl' Hk. induction before as [|b before IH].
    - cbn [map app listed] in Hl'. rewrite Hk in Hl'.
      apply andb_true_iff in Hl'. destruct Hl' as [Hall _].
      rewrite forallb_forall in Hall. apply Forall_forall.
      intros i Hi m Hm. specialize (Hall (fst i) (in_map fst _ _ Hi)).
      rewrite Hm in Hall. now apply N.ltb_lt.
    - cbn [map app listed] in Hl'. apply andb_true_iff in Hl'.
      apply IH. apply Hl'. }
  split.
  { intro Hl. unfold assign. destruct (has l k) eqn:Hhas.
    - now rewrite overwrite_keys.
    - destruct (arrayIndex k) as [n|] eqn:Hk.
      + now apply insertIndex_listed.
      + rewrite map_app. now apply append_listed. }
  intro Hnd. unfold assign. destruct (has l k) eqn:Hhas.
  - now rewrite overwrite_keys.
  - assert (Hfresh : NoDup (k :: map fst l)).
    { constructor; [|exact Hnd]. intro Hin. apply has_In in Hin. congruence. }
    destruct (arrayIndex k) as [n|].
    + apply (Permutation_NoDup (l := k :: map fst l)); [|exact Hfresh].
      symmetry. apply (Permutation_map fst (insertIndex_perm n (k, v) l)).
    + rewrite map_app. apply (Permutation_NoDup (l := k :: map fst l));
        [|exact Hfresh].
      apply Permutation_cons_append.
Qed.

End ContractsTheory.

(** ** Upload and instantiation *)
Section UploadTheory.
Import Upload.

Variable dissocWasm : ContractFile -> string.

Local Abbreviation run := (uploadCodeAndInstantiate dissocWasm).

(** The constructor that [initSelector] takes. *)
Lemma initSelector_found (contract : ContractFile) (st : UploadState) :
  (exists c, In c (constructors contract) /\
             (fst c = "default" \/ fst c = "new")) ->
  exists selector, initSelector contract st = (Runner.Next selector, st).
Proof.
  intros [c [Hin Hlabel]]. unfold initSelector.
  destruct (filter _ (constructors contract)) as [|c' rest] eqn:Hf.
  - exfalso.
    assert (Hc : In c (filter (fun c => (fst c =? "default") || (fst c =? "new"))
                          (constructors contract))).
    { apply filter_In. split; [exact Hin|]. apply orb_true_iff.
      destruct Hlabel as [->| ->]; [left|right]; apply String.eqb_refl. }
    rewrite Hf in Hc. contradiction.
  - eexists. reflexivity.
Qed.

Lemma initSelector_missing (contract : ContractFile) (st : UploadState) :
  (forall c, In c (constructors contract) ->
             fst c <> "default" /\ fst c <> "new") ->
  initSelector contract st = (Runner.Throw TypeError, st).
Proof.
  intro Hnone. unfold initSelector.
  destruct (filter _ (constructors contract)) as [|c rest] eqn:Hf;
    [reflexivity|].
  assert (Hc : In c (filter (fun c => (fst c =? "default") || (fst c =? "new"))
                        (constructors contract)))
    by (rewrite Hf; now left).
  apply filter_In in Hc. destruct Hc as [Hin Hlabel].
  destruct (Hnone c Hin) as [Hd Hn].
  apply String.eqb_neq in Hd. apply String.eqb_neq in Hn.
  rewrite Hd, Hn in Hlabel. discriminate.
Qed.

(** X18. How the upload callback fails and what it leaves behind. Without
    an API instance it throws ['API instance is not ready yet.'] and touches
    nothing. Otherwise the event list is emptied first: a rejected first
    submission ends the call with its reason, the list empty and nothing
    stored; and when no constructor is labelled [default] or [new], the
    call throws a [TypeError] only after the code upload went through, its
    events being the list, with no second submission, nothing stored and no
    toast. *)
Theorem upload_failures (e : Env) (contract : ContractFile) (st : UploadState) :
  (api e = false ->
   run e contract st
   = (Runner.Throw (NewError "API instance is not ready yet."), st)) /\
  (forall r,
     api e = true -> web3FromSource e = Resolves tt ->
     uploadCode e = Rejected r ->
     run e contract st
     = (Runner.Throw r,
        {| eventsAtom := [];
           localContractsAtom := localContractsAtom st;
           toasts := toasts st |})) /\
  (forall r1,
     api e = true -> web3FromSource e = Resolves tt ->
     uploadCode e = Fulfilled r1 ->
     (forall c, In c (constructors contract) ->
                fst c <> "default" /\ fst c <> "new") ->
     run e contract st
     = (Runner.Throw TypeError,
        {| eventsAtom := rev (map event r1);
           localContractsAtom := localContractsAtom st;
           toasts := toasts st |})).
Proof.
  unfold uploadCodeAndInstantiate. split; [|split].
  - intros ->. reflexivity.
  - intros r -> -> ->. reflexivity.
  - intros r1 -> -> -> Hnone. unfold bind, reset, await, awaitPromise, ret,
      dispatch. cbn [negb eventsAtom localContractsAtom toasts].
    rewrite initSelector_missing by exact Hnone.
    unfold dispatchEventAtom. now rewrite app_nil_r.
Qed.

(** X19. A call of the upload callback in which both submissions are
    fulfilled and a constructor is labelled [default] or [new] ends
    normally with the toast shown. The event list is then the events of the
    second submission, latest first, followed by those of the first, latest
    first, whatever it held before. A contract is stored exactly when the
    second submission has an event of method [Instantiating] whose first
    one carries more than two values: it is stored under the first value,
    with that id, the metadata without the wasm and the time of saving, and
    reads back under that id. *)
Theorem upload_success (e : Env) (contract : ContractFile) (st : UploadState)
    (r1 r2 : list HumanRecord) :
  api e = true -> web3FromSource e = Resolves tt ->
  uploadCode e = Fulfilled r1 -> instantiate e = Fulfilled r2 ->
  (exists c, In c (constructors contract) /\
             (fst c = "default" \/ fst c = "new")) ->
  exists stored,
    run e contract st
    = (Runner.Next tt,
       {| eventsAtom := rev (map event r2) ++ rev (map event r1);
          localContractsAtom := stored;
          toasts := "Instantiate Requested." :: toasts st |}) /\
    (forall found contractId,
       instantiateEvent r2 = Some found ->
       (2 < List.length (data (event found)))%nat ->
       nth_error (data (event found)) 0 = Some contractId ->
       stored
       = Contracts.assign contractId
           {| Runner.contractId := contractId;
              Runner.metadata := dissocWasm contract;
              Runner.savedAt := Some (dateNow e) |}
           (localContractsAtom st) /\
       Contracts.currentContract stored contractId
       = Some {| Runner.contractId := contractId;
                 Runner.metadata := dissocWasm contract;
                 Runner.savedAt := Some (dateNow e) |}) /\
    (instantiateEvent r2 = None \/
     (exists found, instantiateEvent r2 = Some found /\
                    (List.length (data (event found)) <= 2)%nat) ->
     stored = localContractsAtom st).
Proof.
  intros Hapi Hweb H1 H2 Hctor.
  unfold uploadCodeAndInstantiate. rewrite Hapi, Hweb, H1, H2.
  unfold bind, reset, await, awaitPromise, ret, dispatch.
  cbn [negb eventsAtom localContractsAtom toasts].
  match goal with
  | |- context [initSelector contract ?s] =>
      destruct (initSelector_found contract s Hctor) as [selector ->]
  end.
  cbn [eventsAtom localContractsAtom toasts].
  unfold dispatchEventAtom. rewrite app_nil_r.
  destruct (instantiateEvent r2) as [found|] eqn:Hfound.
  - destruct (2 <? List.length (data (event found)))%nat eqn:Hlen.
    + destruct (nth_error (data (event found)) 0) as [contractId|] eqn:Hid.
      * eexists. split; [reflexivity|]. split.
        -- intros f id Hf _ Hn. injection Hf as <-.
           rewrite Hid in Hn. injection Hn as <-.
           split; [reflexivity|].
           apply currentContract_assign.
        -- intros [Hnone|[f [Hf Hle]]]; [discriminate|].
           injection Hf as <-. apply Nat.ltb_lt in Hlen. lia.
      * apply Nat.ltb_lt in Hlen. apply nth_error_None in Hid. lia.
    + eexists. split; [reflexivity|]. split.
      * intros f id Hf Hgt _. injection Hf as <-.
        apply Nat.ltb_ge in Hlen. lia.
      * intros _. reflexivity.
  - eexists. split; [reflexivity|]. split.
    + intros f id Hf. discriminate.
    + intros _. reflexivity.
Qed.

End UploadTheory.

(** ** The account field *)
Section AccountFieldTheory.
Import AccountField.

Lemma substring_length (n m : nat) (s : string) :
  String.length (String.substring n m s) = Nat.min m (String.length s - n).
Proof.
  revert n m. induction s as [|c s IH]; intros [|n] [|m]; simpl;
    rewrite ?IH, ?Nat.sub_0_r, ?Nat.min_0_r; reflexivity.
Qed.

Lemma length_append (a b : string) :
  String.length (a ++ b)%string = String.length a + String.length b.
Proof.
  induction a as [|c a IH]; simpl; auto.
Qed.

(** X20. What the account field shows. The alert about the extension is
    shown exactly when the select menu is not. The hint to create an
    account is shown exactly when the menu is shown without a list, and
    the button then reads ['Please Add Account First'] unless a stored
    selection still has a name. A list, when shown, has one item per
    account, in order, and the short form of an address of twelve
    characters or more is fifteen characters long. *)
Theorem account_field_view (enabled : bool) (accounts : list Account)
    (selected : option Account) :
  (ExtensionRequiredHelpText enabled = true <->
   AccountSelectFieldBase enabled accounts selected = None) /\
  (CreateAccountHelpText enabled accounts = true <->
   exists m, AccountSelectFieldBase enabled accounts selected = Some m /\
             menuList m = None) /\
  (CreateAccountHelpText enabled accounts = true ->
   selectedName selected = None ->
   exists m, AccountSelectFieldBase enabled accounts selected = Some m /\
             button m = "Please Add Account First") /\
  (forall m items,
     AccountSelectFieldBase enabled accounts selected = Some m ->
     menuList m = Some items ->
     accounts <> [] /\
     map itemName items = map name accounts /\
     map isChecked items = map (fun a => checked a selected) accounts) /\
  (forall a, In a accounts -> 12 <= String.length (address a) ->
     String.length (shortAddress (address a)) = 15).
Proof.
  unfold ExtensionRequiredHelpText, CreateAccountHelpText,
    AccountSelectFieldBase, placeholder.
  split; [|split; [|split; [|split]]].
  - destruct enabled; simpl; split; intro H; congruence.
  - destruct enabled; simpl.
    + destruct accounts as [|a rest]; simpl.
      * split; [intros _; eexists; split; reflexivity|reflexivity].
      * split; [discriminate|]. intros [m [Hm Hl]].
        injection Hm as <-. discriminate.
    + split; [discriminate|]. intros [m [Hm _]]. discriminate.
  - destruct enabled; simpl; [|discriminate].
    destruct accounts as [|a rest]; simpl; [|discriminate].
    intros _ ->. eexists. split; reflexivity.
  - intros m items. destruct enabled; simpl; [|discriminate].
    intro Hm. injection Hm as <-. simpl.
    destruct accounts as [|a rest]; simpl; [discriminate|].
    intro Hi. injection Hi as <-.
    split; [discriminate|]. split.
    + simpl. f_equal. rewrite map_map. reflexivity.
    + simpl. f_equal. rewrite map_map. reflexivity.
  - intros a _ Hlen. unfold shortAddress.
    rewrite !length_append, !substring_length. simpl String.length. lia.
Qed.

End AccountFieldTheory.

(** ** Where a settled submission comes from *)
Section TxOutcome.
Import Tx.

Variable hashToHuman : string -> AnyJson.
Variable eventsToHuman : SubmittableResult -> AnyJson.

Local Abbreviation callback := (callback hashToHuman eventsToHuman).
Local Abbreviation signAndSend := (signAndSend hashToHuman eventsToHuman).

Lemma first_terminal (ns : list SubmittableResult) :
  forallb (fun x => negb (terminal x)) ns = false ->
  exists pre r post,
    ns = pre ++ r :: post /\
    forallb (fun x => negb (terminal x)) pre = true /\ terminal r = true.
Proof.
  induction ns as [|x ns IH]; simpl; [discriminate|].
  destruct (terminal x) eqn:Hx; simpl.
  - intros _. exists [], x, ns. auto.
  - intro Hrest. destruct (IH Hrest) as [pre [r [post [-> [Hpre Hr]]]]].
    exists (x :: pre), r, post. simpl. rewrite Hx. auto.
Qed.

Lemma scanError_some (es : list EventRecord) (c : Codec) :
  scanError es = Some c ->
  exists e, In e es /\ isExtrinsicFailed e = true /\ nth_error (data e) 0 = Some c.
Proof.
  rewrite scanError_lastFailed. unfold lastFailed.
  destruct (find isExtrinsicFailed (rev es)) as [e|] eqn:Hfind; [|discriminate].
  intro Hc. apply find_some in Hfind. destruct Hfind as [Hin Hf].
  rewrite <- in_rev in Hin. eauto.
Qed.

(** X21. Whatever a submission meets, its promise is pending, or fulfilled
    with the hash and events of an [InBlock] notification it received, or
    rejected with the first value of a [system.ExtrinsicFailed] event of
    such a notification, or rejected with the string ['Invalid transaction']
    after an [Invalid] notification. It is never rejected with anything
    else: no error of the subscription or of the transport reaches it. *)
Theorem signAndSend_outcome_traced (subscription : Awaited unit)
    (ns : list SubmittableResult) :
  match promise (signAndSend subscription ns) with
  | Pending => True
  | Fulfilled v =>
      exists r h,
        In r ns /\ status r = InBlock h /\ scanError (events r) = None /\
        v = {| hash := hashToHuman h; humanEvents := eventsToHuman r |}
  | Rejected (OfCodec c) =>
      exists r h e,
        In r ns /\ status r = InBlock h /\ In e (events r) /\
        isExtrinsicFailed e = true /\ nth_error (data e) 0 = Some c
  | Rejected (OfString s) =>
      s = "Invalid transaction" /\ exists r, In r ns /\ status r = Invalid
  | Rejected _ => False
  end.
Proof.
  destruct subscription as [u|e]; [|exact I].
  destruct (forallb (fun x => negb (terminal x)) ns) eqn:Hall.
  - assert (Hp : promise (signAndSend (Resolves u) ns) = Pending).
    { destruct u. now apply (unsub_pending_aux hashToHuman eventsToHuman). }
    now rewrite Hp.
  - destruct (first_terminal ns Hall) as [pre [r [post [-> [Hpre Hr]]]]].
    destruct u.
    rewrite (signAndSend_first_terminal hashToHuman eventsToHuman pre post r Hpre Hr).
    assert (Hin : In r (pre ++ r :: post)) by (apply in_or_app; right; now left).
    unfold Tx.callback. unfold terminal in Hr.
    destruct (status r) as [| | |h| | | | | |] eqn:Hst; try discriminate.
    + destruct (scanError (events r)) as [c|] eqn:Hscan; simpl.
      * destruct (scanError_some _ _ Hscan) as [ev [Hev [Hf Hn]]].
        exists r, h, ev. auto.
      * exists r, h. auto.
    + simpl. split; [reflexivity|]. exists r. auto.
Qed.

(** X22. The callback does not look at whether the promise is settled:
    called on an [InBlock] or [Invalid] notification after the promise was
    settled, it calls [unsub] once more and leaves the promise as it is; on
    any other notification it does nothing at all. *)
Theorem callback_after_settlement (r : SubmittableResult) (s : Submission) :
  promise s <> Pending ->
  promise (callback r s) = promise s /\
  executor (callback r s) = executor s /\
  unsubCalls (callback r s)
  = (if terminal r then S (unsubCalls s) else unsubCalls s).
Proof.
  intro Hs. unfold Tx.callback, terminal, reject, resolve, unsub.
  destruct (status r); cbn [promise executor unsubCalls]; auto;
    try (destruct (scanError (events r)); cbn [promise executor unsubCalls]);
    destruct (promise s); try contradiction; auto.
Qed.

End TxOutcome.

(** ** The barrier and its target *)
Section BarrierTarget.
Import Barrier.
Local Open Scope Z_scope.

Lemma loop_lower_target (t0 timeout low high : Z)
    (getInfo : list (Z * Awaited Z)) :
  low <= high ->
  forall now n,
    outcome (loop bool (fun b => b) t0 timeout (map (caughtUp high) getInfo) now n)
    = Returned ->
    outcome (loop bool (fun b => b) t0 timeout (map (caughtUp low) getInfo) now n)
    = Returned /\
    (evaluations
       (loop bool (fun b => b) t0 timeout (map (caughtUp low) getInfo) now n)
     <= evaluations
          (loop bool (fun b => b) t0 timeout (map (caughtUp high) getInfo) now n))%nat.
Proof.
  intro Hle. induction getInfo as [|[took [h|e]] rest IH]; intros now n;
    cbn [map caughtUp fst snd Barrier.loop outcome evaluations];
    try discriminate.
  destruct (h >? high) eqn:Hhigh.
  - assert (Hlow : (h >? low) = true).
    { apply Z.gtb_gt in Hhigh. apply Z.gtb_gt. lia. }
    rewrite Hlow. cbn [outcome evaluations]. auto.
  - destruct (h >? low); cbn [outcome evaluations].
    + intros _. split; [reflexivity|].
      destruct (now + took - t0 >=? timeout); cbn [evaluations]; [lia|].
      pose proof (loop_evaluates bool (fun b => b) t0 timeout
                    (map (caughtUp high) rest)
                    (sleep POLL_MS (now + took)) (S n)).
      lia.
    + destruct (now + took - t0 >=? timeout); cbn [outcome evaluations];
        [discriminate|].
      apply IH.
Qed.

(** X23. In default mode a lower target never turns a success of the
    barrier into a failure: with the same answers of the worker, the same
    start and the same timeout, if the barrier returns on a chain whose best
    block has one number, it returns on every chain whose best block has a
    number that is not higher, after no more polls. *)
Theorem blockBarrier_lower_target (api api' : ChainApi) (finalized : option bool)
    (getInfo : list (Z * Awaited Z)) (timeout : option Z) (now : Z) :
  finalized <> Some true ->
  headTook api' = headTook api ->
  getHeader api' now <= getHeader api now ->
  outcome (blockBarrier api getInfo finalized timeout now) = Returned ->
  outcome (blockBarrier api' getInfo finalized timeout now) = Returned /\
  (evaluations (blockBarrier api' getInfo finalized timeout now)
   <= evaluations (blockBarrier api getInfo finalized timeout now))%nat.
Proof.
  intros Hmode Htook Hheads.
  rewrite !blockBarrier_default by exact Hmode.
  unfold checkUntil. rewrite Htook.
  now apply loop_lower_target.
Qed.

End BarrierTarget.

(** ** The order of the entries *)
Section PipelineOrder.
Import Events.

(** The first indexes of the accumulator's entries, in order. *)
Local Abbreviation firsts := (map (fun c => hd 0%nat (indexes c))).

Lemma reducer_firsts (records : list EventRecord) (k : nat)
    (acc : list IndexedEvent) (r : EventRecord) :
  accumulated records k acc ->
  firsts (reducer acc (mkIndexedEvent [k] r))
  = if existsb (sameKind (mkIndexedEvent [k] r)) acc
    then firsts acc else firsts acc ++ [k].
Proof.
  intros [Hgroups _]. unfold reducer.
  destruct (find (sameKind (mkIndexedEvent [k] r)) acc) as [found|] eqn:Hfind.
  - assert (Hex : existsb (sameKind (mkIndexedEvent [k] r)) acc = true).
    { apply find_some in Hfind. apply existsb_exists. now exists found. }
    rewrite Hex.
    destruct (pushAtFirst_split _ [k]%nat _ _ Hfind)
      as [pre [c [post [Hacc [_ Hpush]]]]].
    cbn [indexes]. rewrite Hpush, Hacc, !map_app. cbn [map indexes].
    subst acc. apply Forall_app in Hgroups. destruct Hgroups as [_ Hrest].
    inversion Hrest as [|? ? [_ [Hne _]] _]; subst.
    destruct (indexes c); [contradiction|reflexivity].
  - assert (Hex : existsb (sameKind (mkIndexedEvent [k] r)) acc = false).
    { destruct (existsb _ acc) eqn:E; [|reflexivity].
      apply existsb_exists in E. destruct E as [x [Hin Hx]].
      now rewrite (find_none _ _ Hfind x Hin) in Hx. }
    rewrite Hex. now rewrite map_app.
Qed.

Lemma firsts_below (records : list EventRecord) (k : nat)
    (acc : list IndexedEvent) :
  accumulated records k acc -> forall i, In i (firsts acc) -> i < k.
Proof.
  intros [Hgroups [_ [_ Hcover]]] i Hi.
  apply in_map_iff in Hi. destruct Hi as [c [<- Hc]].
  rewrite Forall_forall in Hgroups. destruct (Hgroups c Hc) as [_ [Hne _]].
  apply Hcover. apply in_flat_map. exists c. split; [exact Hc|].
  destruct (indexes c); [contradiction|now left].
Qed.

Lemma ordered_fold (records : list EventRecord) :
  forall rest before acc,
    records = before ++ rest ->
    accumulated records (List.length before) acc ->
    StronglySorted lt (firsts acc) ->
    StronglySorted lt
      (firsts (fold_left reducer
                 (filter keepEvent (mapIndexFrom (List.length before) rest)) acc)).
Proof.
  induction rest as [|r rest IH]; intros before acc Hsplit Hacc Hsorted.
  - exact Hsorted.
  - assert (Hnth : nth_error records (List.length before) = Some r).
    { subst records. rewrite nth_error_app2 by lia. now rewrite Nat.sub_diag. }
    assert (Hnext : records = (before ++ [r]) ++ rest).
    { subst records. now rewrite <- app_assoc. }
    simpl. rewrite keepEvent_record.
    replace (S (List.length before)) with (List.length (before ++ [r]))
      by (rewrite length_app; simpl; lia).
    destruct (keepRecord r) eqn:Hkeep; simpl.
    + apply (IH (before ++ [r]) _ Hnext).
      * rewrite length_app. simpl. rewrite Nat.add_1_r.
        now apply accumulated_keep.
      * rewrite (reducer_firsts records _ acc r Hacc).
        destruct (existsb _ acc); [exact Hsorted|].
        apply StronglySorted_snoc; [exact Hsorted|].
        now apply (firsts_below records).
    + apply (IH (before ++ [r]) _ Hnext); [|exact Hsorted].
      rewrite length_app. simpl. rewrite Nat.add_1_r.
      now apply (accumulated_drop records _ acc r).
Qed.

(** X24. The entries of the deduplicated list are in the order of the
    first occurrence of their kind in the batch, the latest first: the
    first index of each entry is above the first index of every entry after
    it. *)
Theorem newEvents_latest_first (records : list EventRecord) :
  StronglySorted
    (fun a b => hd 0%nat (indexes b) < hd 0%nat (indexes a))
    (newEvents records).
Proof.
  assert (Hasc : StronglySorted lt (firsts (rev (newEvents records)))).
  { unfold newEvents, mapIndex. rewrite rev_involutive.
    apply (ordered_fold records records [] []); [reflexivity| |constructor].
    split; [constructor|]. split; [constructor|]. split; [constructor|].
    intro i. simpl. split; [contradiction|]. intros [Hi _]. lia. }
  rewrite map_rev in Hasc. apply StronglySorted_rev in Hasc.
  rewrite rev_involutive in Hasc.
  induction (newEvents records) as [|e rest IH]; [constructor|].
  simpl in Hasc. inversion Hasc as [|? ? Hrest Hall]; subst.
  constructor; [now apply IH|].
  rewrite Forall_forall in *. intros x Hx.
  apply Hall. apply in_map_iff. now exists x.
Qed.

End PipelineOrder.

(** ** Recent events *)
Section RecentTheory.
Import Recent.

Variable Abi : Type.
Variable getAddress : string -> KeyringAnswer.
Variable jsonParse : string -> option AnyJson.
Variable newAbi : option AnyJson -> option Abi.
Variable decodeEvent : Abi -> Codec -> option DecodedEvent.
Variable typeDef : EventRecord -> list string.

Local Abbreviation getContractAbi := (getContractAbi Abi getAddress jsonParse newAbi).
Local Abbreviation detail :=
  (detail Abi getAddress jsonParse newAbi decodeEvent typeDef).
Local Abbreviation recentSystemEvents :=
  (recentSystemEvents Abi getAddress jsonParse newAbi decodeEvent typeDef).

Lemma detail_event (e : Events.KeyedEvent) :
  event (detail e) = e /\
  values (details (detail e)) = map valid (data (Events.record (Events.keyed e))) /\
  params (details (detail e)) = typeDef (Events.record (Events.keyed e)).
Proof.
  unfold Recent.detail.
  destruct (_ && _); [|auto].
  destruct (data (Events.record (Events.keyed e))) as [|a [|b rest]]; auto.
  destruct (Recent.getContractAbi _ _ _ _ (Some a)) as [abi|]; auto.
  destruct (decodeEvent abi b); auto.
Qed.

(** X25. Without an API instance [recentSystemEventsAtom] is empty;
    otherwise it has one element per stored event, for that event and in
    the same order, with one valid value per datum, whatever the keyring,
    the parsing and the decoding do: a throw in any of them leaves the event
    in place without decoded part. The decoded part is there only for an
    event [contracts.ContractExecution] of exactly two data, whose first
    datum is a non-empty address for which an ABI was built, and whose
    second datum that ABI decoded. *)
Theorem recentSystemEvents_keeps_events (events : list Events.KeyedEvent) :
  recentSystemEvents false events = [] /\
  map event (recentSystemEvents true events) = events /\
  (forall d, In d (recentSystemEvents true events) ->
     values (details d)
     = map valid (data (Events.record (Events.keyed (event d))))) /\
  (forall d a, In d (recentSystemEvents true events) ->
     abiEvent (details d) = Some a ->
     section (Events.record (Events.keyed (event d))) = "contracts" /\
     method (Events.record (Events.keyed (event d))) = "ContractExecution" /\
     exists accountId encoded abi,
       data (Events.record (Events.keyed (event d))) = [accountId; encoded] /\
       accountId <> "" /\
       getContractAbi (Some accountId) = Some abi /\
       decodeEvent abi encoded = Some (decoded a) /\
       abiValues a = map valid (args (decoded a))).
Proof.
  unfold Recent.recentSystemEvents. split; [reflexivity|]. split; [|split].
  - rewrite map_map. rewrite <- (map_id events) at 2.
    apply map_ext. intro e. apply detail_event.
  - intros d Hd. apply in_map_iff in Hd. destruct Hd as [e [<- _]].
    destruct (detail_event e) as [-> [Hv _]]. exact Hv.
  - intros d a Hd. apply in_map_iff in Hd. destruct Hd as [e [<- _]].
    destruct (detail_event e) as [-> _].
    unfold Recent.detail.
    destruct ((section (Events.record (Events.keyed e)) =? "contracts")
              && (method (Events.record (Events.keyed e)) =? "ContractExecution")
              && (List.length (data (Events.record (Events.keyed e))) =? 2)%nat)
      eqn:Hcond; [|discriminate].
    apply andb_true_iff in Hcond. destruct Hcond as [Hkind Hlen].
    apply andb_true_iff in Hkind. destruct Hkind as [Hs Hm].
    apply String.eqb_eq in Hs. apply String.eqb_eq in Hm.
    apply Nat.eqb_eq in Hlen.
    destruct (data (Events.record (Events.keyed e))) as [|accountId [|encoded rest]];
      try discriminate.
    destruct rest; [|discriminate].
    destruct (Recent.getContractAbi _ _ _ _ (Some accountId)) as [abi|] eqn:Habi;
      [|discriminate].
    destruct (decodeEvent abi encoded) as [dec|] eqn:Hdec; [|discriminate].
    cbn [details abiEvent]. intro Ha. injection Ha as <-.
    split; [exact Hs|]. split; [exact Hm|].
    exists accountId, encoded, abi. cbn [decoded abiValues].
    assert (Haddr : accountId <> "").
    { unfold Recent.getContractAbi in Habi.
      destruct (accountId =? "") eqn:He; [discriminate|].
      now apply String.eqb_neq in He. }
    auto 10.
Qed.

End RecentTheory.

(** * Instances of the further properties *)
Section EventsInstances.
Import Events Sample.

Lemma newEvents_indexes_cover_witness :
  In 4%nat (flat_map indexes (newEvents mixed)) /\
  ~ In 3%nat (flat_map indexes (newEvents mixed)).
Proof.
  destruct (newEvents_indexes_cover mixed) as [_ Hcover]. split.
  - apply Hcover. exists transfer. split; reflexivity.
  - intro Hin. apply Hcover in Hin. destruct Hin as [r [Hr Hk]].
    vm_compute in Hr. injection Hr as <-. discriminate Hk.
Defined.

Lemma newEvents_groups_witness :
  nth_error mixed (hd 0%nat (indexes (mkIndexedEvent [0; 4]%nat transfer)))
  = Some transfer /\
  StronglySorted lt (indexes (mkIndexedEvent [0; 4]%nat transfer)).
Proof.
  destruct (proj2 (newEvents_groups mixed) (mkIndexedEvent [0; 4]%nat transfer))
    as [Hhd [_ [Hsorted _]]].
  - vm_compute. right. left. reflexivity.
  - split; [exact Hhd|exact Hsorted].
Defined.

Lemma noise_only_batch_witness :
  eventCount (systemEventsAtom
                (onRecords kindsDigest quiet8 (onRecords kindsDigest first7 initial)))
  = 1%nat /\
  prevHashes (onRecords kindsDigest quiet8 (onRecords kindsDigest first7 initial))
  = prevHashes (onRecords kindsDigest first7 initial).
Proof.
  destruct (proj2 (noise_only_batch kindsDigest quiet8
                     (onRecords kindsDigest first7 initial)))
    as [Hcount [_ Hprev]].
  - repeat constructor.
  - split; [exact Hcount|exact Hprev].
Defined.

Lemma log_tracks_one_block_per_height_witness :
  blockHash (toKeyed 7 "0xbb" (mkIndexedEvent [0]%nat instantiated))
  = blockHash (toKeyed 7 "0xbb" (mkIndexedEvent [0]%nat instantiated)).
Proof.
  apply (proj2 (log_tracks_one_block_per_height kindsDigest [first7; forked7])).
  - vm_compute. left. reflexivity.
  - vm_compute. left. reflexivity.
  - reflexivity.
Defined.

Lemma stored_keys_unique_witness :
  exists n h,
    blockNumber (toKeyed 7 "0xbb" (mkIndexedEvent [0]%nat instantiated)) = Some n /\
    blockHash (toKeyed 7 "0xbb" (mkIndexedEvent [0]%nat instantiated)) = Some h /\
    key (toKeyed 7 "0xbb" (mkIndexedEvent [0]%nat instantiated))
    = makeKey n h (indexes (keyed (toKeyed 7 "0xbb" (mkIndexedEvent [0]%nat instantiated)))).
Proof.
  apply (proj1 (stored_keys_unique kindsDigest [first7; forked7])).
  vm_compute. left. reflexivity.
Defined.

Lemma redelivery_counts_only_witness :
  onRecords kindsDigest again7 (onRecords kindsDigest again7 initial)
  = {| systemEventsAtom :=
         {| eventCount := 3;
            events := events (systemEventsAtom (onRecords kindsDigest again7 initial)) |};
       prevHashes := prevHashes (onRecords kindsDigest again7 initial) |}.
Proof.
  apply (redelivery_counts_only kindsDigest again7 again7 initial).
  reflexivity.
Defined.

(** A batch that differs from the one before in the phase of a record only
    has another content hash, and its block is stored. *)
Example other_phase_is_stored :
  map blockNumber
    (events (systemEventsAtom
       (onRecords phasesDigest (mkDelivery [transferSecond] (Some (mkHeader 8 "0xcc")))
          (onRecords phasesDigest (mkDelivery [transfer] (Some block7)) initial))))
  = [Some 8%N; Some 7%N].
Proof.
  reflexivity.
Qed.

End EventsInstances.

Section TxInstances.
Import Tx Sample.

Lemma unsub_iff_settled_witness :
  promise (signAndSend hashText methodsText (Resolves tt)
             [pendingResult Ready; pendingResult Broadcast; pendingResult Dropped])
  = Pending.
Proof.
  apply (proj2 (unsub_iff_settled hashText methodsText (Resolves tt)
                  [pendingResult Ready; pendingResult Broadcast;
                   pendingResult Dropped])).
  reflexivity.
Defined.

End TxInstances.

Section ConnInstances.
Import Conn Sample.

Lemma effect_after_cleared_endpoint_witness :
  atoms (handle RunEffect (handle ApiError (effect attempt))) = initialAtoms /\
  atoms (effect (advanceTo 10000 (effect attempt))) = initialAtoms.
Proof.
  destruct (effect_after_cleared_endpoint (effect attempt) ApiError 10000)
    as [Hsig Htimer].
  split.
  - apply Hsig. reflexivity.
  - apply Htimer; [vm_compute; left; reflexivity|discriminate].
Defined.

Lemma earlier_timer_ends_new_attempt_witness :
  now (effect secondAttempt) = 8000%N /\
  rpcApiStatusAtom (atoms (effect secondAttempt)) = connecting /\
  atoms (advanceTo 10000 (run [] (effect secondAttempt))) = timedOut.
Proof.
  destruct (earlier_timer_ends_new_attempt secondAttempt 10000 [])
    as [Hconnecting [_ Hends]].
  - vm_compute. left. reflexivity.
  - discriminate.
  - constructor.
  - split; [reflexivity|]. split; [exact Hconnecting|].
    apply Hends. discriminate.
Defined.

Lemma connected_only_by_signal_witness :
  rpcApiStatusAtom (atoms (effect attempt)) = connected \/
  exists t, In (t, ApiConnected) readyInTime.
Proof.
  apply (connected_only_by_signal readyInTime (effect attempt)).
  reflexivity.
Defined.

End ConnInstances.

Section PollingInstances.
Import Barrier Sample.
Local Open Scope Z_scope.

Lemma checkUntil_bounded_witness :
  outcome (checkUntil bool (fun b => b) (map (caughtUp 100) lagging) 200 0)
  <> Awaiting.
Proof.
  apply (proj2 (checkUntil_bounded bool (fun b => b)
                  (map (caughtUp 100) lagging) 200 0
                  ltac:(repeat constructor; vm_compute; discriminate))).
  - discriminate.
  - vm_compute. discriminate.
Defined.

Lemma checkUntil_longer_timeout_witness :
  checkUntil bool (fun b => b) (map (caughtUp 100) overtaking) 60000 0
  = checkUntil bool (fun b => b) (map (caughtUp 100) overtaking) 24000 0.
Proof.
  apply checkUntil_longer_timeout.
  - vm_compute. discriminate.
  - vm_compute. discriminate.
Defined.

Lemma checkUntil_rejection_witness :
  outcome (checkUntil bool (fun b => b)
             [(10, Resolves false); (10, Rejects "fetch failed")] 24000 0)
  = Threw (External "fetch failed") /\
  evaluations (checkUntil bool (fun b => b)
                 [(10, Resolves false); (10, Rejects "fetch failed")] 24000 0)
  = 2%nat.
Proof.
  apply (proj2 (checkUntil_rejection bool (fun b => b)
                  [(10, Resolves false); (10, Rejects "fetch failed")]
                  24000 0 "fetch failed") 1%nat 10).
  - reflexivity.
  - intros j Hj. destruct j as [|j]; [|lia].
    exists 10, false. split; reflexivity.
  - intros j Hj. destruct j as [|j]; [vm_compute; reflexivity|lia].
Defined.

End PollingInstances.

Section RunnerInstances.
Import Runner Sample.

Lemma fn_log_grows_by_read_only_witness :
  isLoading (snd (fn (reading answered) [] earlier)) = false.
Proof.
  apply (proj2 (fn_log_grows_by_read_only (reading answered) [] earlier)).
  discriminate.
Defined.

Lemma fn_mutating_witness :
  fn (flipping Pending Barrier.Awaiting) [] earlier
  = (NeverSettles, {| resultsAtom := resultsAtom earlier; isLoading := true |}) /\
  fn (flipping (Fulfilled (Tx.mkInBlockValue "0x11" "[]"))
        (Barrier.Threw (NewError "timeout"))) [] earlier
  = (Failed (NewError "timeout"),
     {| resultsAtom := resultsAtom earlier; isLoading := false |}).
Proof.
  assert (Hreach : forall sent barrier, reachesSubmit (flipping sent barrier)).
  { intros sent barrier. exists flipMessage, flipper, instance, "flip".
    repeat split. discriminate. }
  split.
  - apply (fn_mutating _ [] earlier (Hreach Pending Barrier.Awaiting)).
    reflexivity.
  - destruct (fn_mutating _ [] earlier
                (Hreach (Fulfilled (Tx.mkInBlockValue "0x11" "[]"))
                        (Barrier.Threw (NewError "timeout"))))
      as [_ [_ [_ [_ [Hbarrier _]]]]].
    apply (Hbarrier (Tx.mkInBlockValue "0x11" "[]")); reflexivity.
Defined.

End RunnerInstances.

Section ContractsInstances.
Import Contracts Sample.

Lemma availableContracts_sorted_witness :
  In ("0x0c", flipper)
     (rev (sortBy savedAtOr0
             (filter (fun i => includes ["0x0c"; "0x0b"; "0xff"] (fst i)) stored3))).
Proof.
  destruct (proj1 (availableContracts_sorted ["0x0c"; "0x0b"; "0xff"] stored3))
    as [result [Hres [_ [Hin _]]]].
  injection Hres as <-. apply Hin. split.
  - right. right. left. reflexivity.
  - left. reflexivity.
Defined.

Lemma assign_then_read_witness :
  currentContract (assign "0x0b" flipper stored3) "0x0a"
  = currentContract stored3 "0x0a" /\
  map fst (assign "0x0b" flipper stored3) = map fst stored3 /\
  assign "0x0d" flipper stored3 = stored3 ++ [("0x0d", flipper)] /\
  (exists before after,
     stored3 = before ++ after /\
     assign "7" flipper stored3 = before ++ ("7", flipper) :: after /\
     Forall (fun i => exists m, arrayIndex (fst i) = Some m /\ (m < 7)%N) before /\
     Forall (fun i => forall m, arrayIndex (fst i) = Some m -> (7 < m)%N) after) /\
  listed (map fst (assign "7" flipper stored3)) = true /\
  NoDup (map fst (assign "0x0d" flipper stored3)).
Proof.
  assert (Hfresh : forall k, k <> "0x0a" -> k <> "0x0b" -> k <> "0x0c" ->
                             ~ In k (map fst stored3)).
  { intros k Ha Hb Hc Hin. simpl in Hin. intuition congruence. }
  destruct (assign_then_read "0x0b" flipper stored3) as [_ [Hother [Hkept _]]].
  destruct (assign_then_read "0x0d" flipper stored3)
    as [_ [_ [_ [Hlast [_ [_ Hnodup]]]]]].
  destruct (assign_then_read "7" flipper stored3)
    as [_ [_ [_ [_ [Hindex [Hlisted _]]]]]].
  split; [apply Hother; discriminate|].
  split; [apply Hkept; simpl; auto|].
  split; [apply Hlast; [apply Hfresh; discriminate|reflexivity]|].
  split; [apply (Hindex 7%N); [apply Hfresh; discriminate|reflexivity..]|].
  split; [apply Hlisted; reflexivity|].
  apply Hnodup. repeat constructor; simpl; intuition discriminate.
Defined.

(** An id that is an array index is listed before the ids that are none,
    and among the array indexes by its number. *)
Example index_ids_lead :
  map fst (assign "7" flipper stored3) = ["7"; "0x0a"; "0x0b"; "0x0c"] /\
  map fst (assign "9" flipper (assign "10" flipper (assign "7" flipper stored3)))
  = ["7"; "9"; "10"; "0x0a"; "0x0b"; "0x0c"] /\
  map fst (assign "07" flipper (assign "7" flipper stored3))
  = ["7"; "0x0a"; "0x0b"; "0x0c"; "07"].
Proof.
  repeat split.
Qed.

End ContractsInstances.

Section UploadInstances.
Import Upload Sample.

Lemma upload_failures_witness :
  uploadCodeAndInstantiate withoutWasm
    (uploading (Rejected (OfCodec "0xdead")) Pending) flipperFile shelf
  = (Runner.Throw (OfCodec "0xdead"),
     {| eventsAtom := []; localContractsAtom := stored3; toasts := [] |}) /\
  uploadCodeAndInstantiate withoutWasm
    (uploading (Fulfilled [paid; codeStored]) Pending) bareFile shelf
  = (Runner.Throw TypeError,
     {| eventsAtom := [event codeStored; event paid];
        localContractsAtom := stored3; toasts := [] |}).
Proof.
  split.
  - apply (proj1 (proj2 (upload_failures withoutWasm
                           (uploading (Rejected (OfCodec "0xdead")) Pending)
                           flipperFile shelf))); reflexivity.
  - apply (proj2 (proj2 (upload_failures withoutWasm
                           (uploading (Fulfilled [paid; codeStored]) Pending)
                           bareFile shelf)) [paid; codeStored]);
      try reflexivity.
    intros c [<-|[]]. split; discriminate.
Defined.

Lemma upload_success_witness :
  exists stored,
    uploadCodeAndInstantiate withoutWasm
      (uploading (Fulfilled [paid; codeStored]) (Fulfilled [paid; instantiating]))
      flipperFile shelf
    = (Runner.Next tt,
       {| eventsAtom := [event instantiating; event paid;
                         event codeStored; event paid];
          localContractsAtom := stored;
          toasts := ["Instantiate Requested."] |}) /\
    Contracts.currentContract stored "0x0d"
    = Some (Runner.mkLocalContractInfo "0x0d" "0xabcd" (Some 1660000000789%Z)).
Proof.
  destruct (upload_success withoutWasm
              (uploading (Fulfilled [paid; codeStored])
                         (Fulfilled [paid; instantiating]))
              flipperFile shelf [paid; codeStored] [paid; instantiating]
              eq_refl eq_refl eq_refl eq_refl)
    as [stored [Hrun [Hsaved _]]].
  - exists ("new", "0x9bae9d5e"). split; [now left|now right].
  - exists stored. split; [exact Hrun|].
    apply (Hsaved instantiating "0x0d"); [reflexivity|simpl; lia|reflexivity].
Defined.

End UploadInstances.

Section AccountFieldInstances.
Import AccountField Sample.

Lemma account_field_view_witness :
  (exists m, AccountSelectFieldBase true [] None = Some m /\
             button m = "Please Add Account First") /\
  String.length (shortAddress (address alice)) = 15%nat.
Proof.
  split.
  - apply (proj1 (proj2 (proj2 (account_field_view true [] None))));
      reflexivity.
  - apply (proj2 (proj2 (proj2 (proj2 (account_field_view true [alice; bob]
                                         (Some bob))))) alice).
    + now left.
    + simpl. lia.
Defined.

End AccountFieldInstances.

Section LateInstances.
Import Sample.

Lemma recentSystemEvents_keeps_events_witness :
  Recent.values
    (Recent.details
       (Recent.detail string knownContract parseAny abiOf decodeThrows noTypes
          executed))
  = [(true, "0x0c"); (true, "0xbeef")].
Proof.
  apply (proj1 (proj2 (proj2
           (recentSystemEvents_keeps_events string knownContract parseAny abiOf
              decodeThrows noTypes [executed])))
           (Recent.detail string knownContract parseAny abiOf decodeThrows
              noTypes executed)).
  left. reflexivity.
Defined.

Lemma callback_after_settlement_witness :
  Tx.unsubCalls
    (Tx.callback hashText methodsText goodInBlock
       (Tx.callback hashText methodsText failedInBlock Tx.subscribed))
  = 2%nat /\
  Tx.promise
    (Tx.callback hashText methodsText goodInBlock
       (Tx.callback hashText methodsText failedInBlock Tx.subscribed))
  = Rejected (OfCodec "0xdead").
Proof.
  destruct (callback_after_settlement hashText methodsText goodInBlock
              (Tx.callback hashText methodsText failedInBlock Tx.subscribed))
    as [Hp [_ Hu]].
  - discriminate.
  - split; [exact Hu|exact Hp].
Defined.

Lemma blockBarrier_lower_target_witness :
  Barrier.outcome (Barrier.blockBarrier trailing overtaking None None 0)
  = Barrier.Returned /\
  (Barrier.evaluations (Barrier.blockBarrier trailing overtaking None None 0)
   <= Barrier.evaluations (Barrier.blockBarrier growing overtaking None None 0))%nat.
Proof.
  apply (blockBarrier_lower_target growing trailing None overtaking None 0).
  - discriminate.
  - reflexivity.
  - vm_compute. discriminate.
  - reflexivity.
Defined.

End LateInstances.
